(** * The ESM resolver of lib/internal/modules/esm/resolve.js

    A shallow embedding of the resolver and the properties of its
    exports/imports matcher, target resolver, package walk and
    finalization step.

    Conventions.  JavaScript strings are [string]s (one [ascii] per code
    unit), indices and lengths are [Z] as in the source ([-1] for "not
    found", negative indices in [slice]).  A thrown exception is the
    [Throw] outcome; an error is identified by its code and the arguments
    that distinguish it, message texts are not modelled.  Calls that only
    notify the outside world ([process.emitWarning], [process.send]) are
    recorded, in order, in an event log next to the outcome. *)

From Stdlib Require Import ZArith Ascii String.
From Stdlib Require Import DecimalString.
From stdpp Require Import base decidable option list gmap strings.

Set Warnings "-register-all".

Local Open Scope string_scope.
Local Open Scope Z_scope.
Local Open Scope list_scope.

(** ** Primordials on strings *)

Module JS.

Definition chars (s : string) : list ascii := list_ascii_of_string s.
Definition str (l : list ascii) : string := string_of_list_ascii l.

(** [s.length] *)
Definition len (s : string) : Z := Z.of_nat (length (chars s)).

(** [s[i]], [None] for [undefined] *)
Definition at_ (s : string) (i : nat) : option ascii := chars s !! i.

Definition StringPrototypeStartsWith (s p : string) : bool :=
  bool_decide (chars p `prefix_of` chars s).

Definition StringPrototypeEndsWith (s p : string) : bool :=
  bool_decide (chars p `suffix_of` chars s).

Fixpoint index_from (c : ascii) (l : list ascii) (i : Z) : Z :=
  match l with
  | [] => -1
  | x :: t => if bool_decide (x = c) then i else index_from c t (i + 1)
  end.

(** [StringPrototypeIndexOf(s, c, from)] for a one-character search
    string [c]; [from] is clamped to [0 .. s.length]. *)
Definition StringPrototypeIndexOfFrom (s : string) (c : ascii) (from : Z) : Z :=
  let k := Z.min (Z.max from 0) (len s) in
  index_from c (drop (Z.to_nat k) (chars s)) k.

Definition StringPrototypeIndexOf (s : string) (c : ascii) : Z :=
  StringPrototypeIndexOfFrom s c 0.

Fixpoint last_index_from (c : ascii) (l : list ascii) (i : Z) (acc : Z) : Z :=
  match l with
  | [] => acc
  | x :: t => last_index_from c t (i + 1) (if bool_decide (x = c) then i else acc)
  end.

Definition StringPrototypeLastIndexOf (s : string) (c : ascii) : Z :=
  last_index_from c (chars s) 0 (-1).

Definition StringPrototypeIncludes (s : string) (c : ascii) : bool :=
  bool_decide (c ∈ chars s).

(** Relative index of [slice]: negative counts from the end. *)
Definition rel_index (n i : Z) : Z :=
  if i <? 0 then Z.max (n + i) 0 else Z.min i n.

(** [StringPrototypeSlice(s, start, end)]; [None] is an omitted [end]. *)
Definition StringPrototypeSlice (s : string) (start : Z) (end_ : option Z) : string :=
  let n := len s in
  let from := rel_index n start in
  let to := match end_ with None => n | Some e => rel_index n e end in
  str (take (Z.to_nat (to - from)) (drop (Z.to_nat from) (chars s))).

(** [StringPrototypeReplace(s, c, () => by)]: the first occurrence only. *)
Fixpoint replace_first (c : ascii) (by_ : list ascii) (l : list ascii) : list ascii :=
  match l with
  | [] => []
  | x :: t => if bool_decide (x = c) then by_ ++ t else x :: replace_first c by_ t
  end.

Definition StringPrototypeReplace (s : string) (c : ascii) (by_ : string) : string :=
  str (replace_first c (chars by_) (chars s)).

(** [RegExpPrototypeSymbolReplace(/c/g, s, () => by)]: every occurrence. *)
Definition replace_all (c : ascii) (by_ : list ascii) (l : list ascii) : list ascii :=
  concat (map (fun x => if bool_decide (x = c) then by_ else [x]) l).

Definition RegExpReplaceAllChar (c : ascii) (s by_ : string) : string :=
  str (replace_all c (chars by_) (chars s)).

(** What precedes and what follows the first occurrence of a character. *)
Fixpoint before (c : ascii) (l : list ascii) : list ascii :=
  match l with
  | [] => []
  | x :: t => if bool_decide (x = c) then [] else x :: before c t
  end.

Fixpoint after (c : ascii) (l : list ascii) : list ascii :=
  match l with
  | [] => []
  | x :: t => if bool_decide (x = c) then t else after c t
  end.

(** *** Regular expressions

    The fragment of the regular expression language that the four
    expressions of the resolver use, with a backtracking matcher.
    [RegExpPrototypeExec(re, s) !== null] is [test re s]. *)

Inductive regex : Type :=
| RLit (s : string)          (* a literal run of characters *)
| RBol                       (* ^ *)
| REol                       (* $ *)
| RAlt (a b : regex)         (* a|b *)
| RSeq (a b : regex)         (* ab *)
| ROpt (a : regex).          (* a? *)

Definition upper (c : ascii) : ascii :=
  let n := nat_of_ascii c in
  if bool_decide (97 ≤ n ≤ 122)%nat then ascii_of_nat (n - 32) else c.

(** Character comparison, under the [i] flag when [ci] is set. *)
Definition char_eqb (ci : bool) (a b : ascii) : bool :=
  if ci then bool_decide (upper a = upper b) else bool_decide (a = b).

Fixpoint lit_match (ci : bool) (p l : list ascii) : option (list ascii) :=
  match p, l with
  | [], _ => Some l
  | _ :: _, [] => None
  | a :: p', b :: l' => if char_eqb ci a b then lit_match ci p' l' else None
  end.

(** [rmatch ci r bol l k]: [r] matches a prefix of [l] (which starts at
    the beginning of the input iff [bol]) and [k] accepts the rest. *)
Fixpoint rmatch (ci : bool) (r : regex) (bol : bool) (l : list ascii)
         (k : bool -> list ascii -> bool) : bool :=
  match r with
  | RLit s =>
      match lit_match ci (chars s) l with
      | Some l' => k (bol && bool_decide (chars s = [])) l'
      | None => false
      end
  | RBol => if bol then k bol l else false
  | REol => match l with [] => k bol l | _ => false end
  | RAlt a b => rmatch ci a bol l k || rmatch ci b bol l k
  | RSeq a b => rmatch ci a bol l (fun bol' l' => rmatch ci b bol' l' k)
  | ROpt a => rmatch ci a bol l k || k bol l
  end.

Fixpoint search (ci : bool) (r : regex) (bol : bool) (l : list ascii) : bool :=
  rmatch ci r bol l (fun _ _ => true) ||
  match l with
  | [] => false
  | _ :: t => search ci r false t
  end.

Definition test (ci : bool) (r : regex) (s : string) : bool :=
  search ci r true (chars s).

Definition alts (l : list string) : regex :=
  match l with
  | [] => RLit ""
  | s :: t => fold_left (fun r x => RAlt r (RLit x)) t (RLit s)
  end.

Definition seqs (l : list regex) : regex :=
  match l with
  | [] => RLit ""
  | r :: t => fold_left RSeq t r
  end.

End JS.
Import JS.

(** ** The regular expressions of the module *)

(** The backslash, as a character and as a string. *)
Definition backslash_char : ascii := ascii_of_nat 92.
Definition backslash : string := String backslash_char "".

(** [/%2F|%5C/i] *)
Definition encodedSepRegEx : regex := alts ["%2F"; "%5C"].

Definition dotSegment : regex :=
  RSeq (alts ["."; "%2e"]) (ROpt (alts ["."; "%2e"])).

Definition nodeModulesSegment : regex :=
  seqs [ alts ["n"; "%6e"; "%4e"]; alts ["o"; "%6f"; "%4f"];
         alts ["d"; "%64"; "%44"]; alts ["e"; "%65"; "%45"];
         alts ["_"; "%5f"];
         alts ["m"; "%6d"; "%4d"]; alts ["o"; "%6f"; "%4f"];
         alts ["d"; "%64"; "%44"]; alts ["u"; "%75"; "%55"];
         alts ["l"; "%6c"; "%4c"]; alts ["e"; "%65"; "%45"];
         alts ["s"; "%73"; "%53"] ].

(** [/(^|\\|\/)((\.|%2e)(\.|%2e)?|(n|%6e|%4e)...(s|%73|%53))?(\\|\/|$)/i] *)
Definition invalidSegmentRegEx : regex :=
  seqs [ RAlt (RAlt RBol (RLit backslash)) (RLit "/");
         ROpt (RAlt dotSegment nodeModulesSegment);
         RAlt (RAlt (RLit backslash) (RLit "/")) REol ].

(** The same expression without the [?] after the segment group. *)
Definition deprecatedInvalidSegmentRegEx : regex :=
  seqs [ RAlt (RAlt RBol (RLit backslash)) (RLit "/");
         RAlt dotSegment nodeModulesSegment;
         RAlt (RAlt (RLit backslash) (RLit "/")) REol ].

(** [/^\.|%|\\/] *)
Definition invalidPackageNameRegEx : regex :=
  RAlt (RAlt (RSeq RBol (RLit ".")) (RLit "%")) (RLit backslash).

(** ** Data model *)

(** A value of the [exports] or [imports] field, as [JSON.parse] returns
    it.  An object is the list of its own properties in the order of
    [ObjectGetOwnPropertyNames]; its keys are pairwise distinct, so that
    [target[key]] is the value found at the position of [key].  A number
    or a boolean only shows its truthiness to the resolver.  [TUndefined]
    is the value of a field or property that is absent. *)
Inductive TargetValue : Type :=
| TString (s : string)
| TList (l : list TargetValue)
| TMap (m : list (string * TargetValue))
| TNull
| TUndefined
| TOther (truthy : bool).

(** Errors by code.  The path arguments of the messages
    ([fileURLToPath] of the package and of the base) are left out. *)
Inductive error : Type :=
| ERR_INVALID_URL (input : string)
| ERR_TYPE_ERROR (what : string)
| ERR_INPUT_TYPE_NOT_ALLOWED
| ERR_INVALID_ARG_TYPE (name : string)
| ERR_INVALID_MODULE_SPECIFIER (request reason : string)
| ERR_INVALID_PACKAGE_CONFIG (message : string)
| ERR_INVALID_PACKAGE_TARGET (key : string) (t : TargetValue) (isImport : bool)
| ERR_MANIFEST_DEPENDENCY_MISSING (specifier : string)
| ERR_MODULE_NOT_FOUND (path : string)
| ERR_PACKAGE_IMPORT_NOT_DEFINED (specifier : string)
| ERR_PACKAGE_PATH_NOT_EXPORTED (subpath : string)
| ERR_UNSUPPORTED_DIR_IMPORT (path : string)
| ERR_NETWORK_IMPORT_DISALLOWED (specifier reason : string).

(** [e.code] *)
Definition code (e : error) : string :=
  match e with
  | ERR_INVALID_URL _ => "ERR_INVALID_URL"
  | ERR_TYPE_ERROR _ => "TypeError"
  | ERR_INPUT_TYPE_NOT_ALLOWED => "ERR_INPUT_TYPE_NOT_ALLOWED"
  | ERR_INVALID_ARG_TYPE _ => "ERR_INVALID_ARG_TYPE"
  | ERR_INVALID_MODULE_SPECIFIER _ _ => "ERR_INVALID_MODULE_SPECIFIER"
  | ERR_INVALID_PACKAGE_CONFIG _ => "ERR_INVALID_PACKAGE_CONFIG"
  | ERR_INVALID_PACKAGE_TARGET _ _ _ => "ERR_INVALID_PACKAGE_TARGET"
  | ERR_MANIFEST_DEPENDENCY_MISSING _ => "ERR_MANIFEST_DEPENDENCY_MISSING"
  | ERR_MODULE_NOT_FOUND _ => "ERR_MODULE_NOT_FOUND"
  | ERR_PACKAGE_IMPORT_NOT_DEFINED _ => "ERR_PACKAGE_IMPORT_NOT_DEFINED"
  | ERR_PACKAGE_PATH_NOT_EXPORTED _ => "ERR_PACKAGE_PATH_NOT_EXPORTED"
  | ERR_UNSUPPORTED_DIR_IMPORT _ => "ERR_UNSUPPORTED_DIR_IMPORT"
  | ERR_NETWORK_IMPORT_DISALLOWED _ _ => "ERR_NETWORK_IMPORT_DISALLOWED"
  end.

(** What a call ends in: a value, an exception, or the exhaustion of the
    fuel that bounds the walk up the [node_modules] directories and the
    calls back into [packageResolve]. *)
Inductive outcome (A : Type) : Type :=
| Ok (a : A)
| Throw (e : error)
| OutOfFuel.
Arguments Ok {A} a.
Arguments Throw {A} e.
Arguments OutOfFuel {A}.

Module PackageConfig.
Record t : Type := {
  exists_ : bool;
  pjsonPath : string;
  name : option string;
  main : option string;
  type_ : string;
  exports : TargetValue;
  imports : TargetValue
}.
End PackageConfig.

(** The policy manifest of [internal/process/policy]. *)
Inductive destination (URL : Type) : Type :=
| DestTrue
| DestURL (u : URL)
| DestMissing.
Arguments DestTrue {URL}.
Arguments DestURL {URL} u.
Arguments DestMissing {URL}.

Record Redirects (URL : Type) : Type := {
  redirect_resolve : string -> list string -> destination URL;
  reaction : error -> outcome unit
}.
Arguments redirect_resolve {URL} r _ _.
Arguments reaction {URL} r _.

Record Manifest (URL : Type) : Type := {
  getDependencyMapper : string -> option (Redirects URL);
  mightAllow : string -> error -> outcome unit
}.
Arguments getDependencyMapper {URL} m _.
Arguments mightAllow {URL} m _ _.

(** The collaborators of the module: everything it imports from other
    modules, the options and the process.  [URL_new input base] is
    [new URL(input, base)], [None] when the constructor throws. *)
Class Host : Type := {
  URL : Type;
  URL_new : string -> option string -> option URL;
  href : URL -> string;
  protocol : URL -> string;
  pathname : URL -> string;
  search : URL -> string;
  hash : URL -> string;
  set_search_hash : URL -> string -> string -> URL;
  fileURLToPath : URL -> string;
  pathToFileURL : string -> URL;
  sep : string;
  toNamespacedPath : string -> string;
  internalModuleStat : string -> Z;
  realpathSync : string -> outcome string;
  FSLegacyMainResolve : string -> option string -> string -> outcome Z;
  getPackageScopeConfig : string -> outcome PackageConfig.t;
  packageJsonReader_read : string -> outcome PackageConfig.t;
  canBeRequiredWithoutScheme : string -> bool;
  defaultGetFormatWithoutErrors : URL -> option string;
  getConditionsSet : option (list string) -> gset string;
  preserveSymlinks : bool;
  preserveSymlinksMain : bool;
  experimentalNetworkImports : bool;
  typeFlag : bool;
  WATCH_REPORT_DEPENDENCIES : bool;
  process_send : bool;
  process_cwd : string;
  policy_manifest : option (Manifest URL);
  (* the Number conversions that isArrayIndex relies on *)
  Number : Type;
  ToNumber : string -> Number;
  NumberToString : Number -> string;
  Number_of_Z : Z -> Number;
  Number_ge : Number -> Number -> bool;
  Number_lt : Number -> Number -> bool
}.

Section Resolver.
Context {H : Host}.

(** The [base] argument: a string or a URL object. *)
Inductive Base : Type :=
| BString (s : string)
| BURL (u : URL).

(** The base as the [URL] constructor and the package reader see it. *)
Definition base_str (b : Base) : string :=
  match b with
  | BString s => s
  | BURL u => href u
  end.

(** [base.protocol], [None] for [undefined] (a string has no such property). *)
Definition base_protocol (b : Base) : option string :=
  match b with
  | BString _ => None
  | BURL u => Some (protocol u)
  end.

(** The three-valued result of target resolution. *)
Inductive resolution : Type :=
| RUrl (u : URL)
| RNull
| RUndefined.

(** Notifications, by the function of the module that is called. *)
Inductive event : Type :=
| EmitTrailingSlashPatternDeprecation (match_ : string) (pjsonUrl : URL) (base : Base)
| EmitInvalidSegmentDeprecation (target request match_ : string) (pjsonUrl : URL)
    (internal : bool) (base : Base) (isTarget : bool)
| EmitLegacyIndexDeprecation (url packageJSONUrl : URL) (base : Base) (main : option string)
| ProcessSend (watch_require : string).

(** Outcome and the notifications made on the way. *)
Definition W (A : Type) : Type := outcome A * list event.

Definition ret {A} (a : A) : W A := (Ok a, []).
Definition throw {A} (e : error) : W A := (Throw e, []).
Definition emit (ev : event) : W unit := (Ok tt, [ev]).
Definition lift {A} (o : outcome A) : W A := (o, []).

Definition bind {A B} (m : W A) (f : A -> W B) : W B :=
  match m with
  | (Ok a, w) => let '(r, w') := f a in (r, w ++ w')
  | (Throw e, w) => (Throw e, w)
  | (OutOfFuel, w) => (OutOfFuel, w)
  end.

(** [log w m]: [m] after the notifications [w]. *)
Definition log {A} (w : list event) (m : W A) : W A := (m.1, w ++ m.2).

Local Notation "x <- m ;; k" := (bind m (fun x => k))
  (at level 100, m at next level, right associativity).
Local Notation "m ;;; k" := (bind m (fun _ => k))
  (at level 100, right associativity).

(** [new URL(input, base)] as a step of a computation. *)
Definition new_URL (input : string) (base : option string) : W URL :=
  match URL_new input base with
  | Some u => ret u
  | None => throw (ERR_INVALID_URL input)
  end.

(** [URLCanParse(input)] of the [url] binding. *)
Definition URLCanParse (input : string) : bool :=
  bool_decide (is_Some (URL_new input None)).

(** [s[i]] for an index computed in [Z]. *)
Definition at_Z (s : string) (i : Z) : option ascii :=
  if i <? 0 then None else at_ s (Z.to_nat i).

Definition throwInvalidSubpath {A} (request match_ : string) (internal : bool) : W A :=
  throw (ERR_INVALID_MODULE_SPECIFIER request
           ("request is not a valid match in pattern " +:+ match_)).

Definition invalidPackageTarget (subpath : string) (t : TargetValue) (internal : bool) : error :=
  ERR_INVALID_PACKAGE_TARGET subpath t internal.

Definition exportsNotFound (subpath : string) : error :=
  ERR_PACKAGE_PATH_NOT_EXPORTED subpath.

Definition importNotDefined (specifier : string) : error :=
  ERR_PACKAGE_IMPORT_NOT_DEFINED specifier.

Section Targets.
(** [packageResolve], which the string case calls back for an [imports]
    target that names a package. *)
Variable packageResolve_rec : string -> Base -> gset string -> W URL.

Definition resolvePackageTargetString (target subpath match_ : string)
    (packageJSONUrl : URL) (base : Base) (pattern internal isPathMap : bool)
    (conditions : gset string) : W URL :=
  if negb (String.eqb subpath "") && negb pattern &&
     negb (bool_decide (at_Z target (len target - 1) = Some "/"%char))
  then throw (invalidPackageTarget match_ (TString target) internal)
  else if negb (StringPrototypeStartsWith target "./") then
    if internal && negb (StringPrototypeStartsWith target "../") &&
       negb (StringPrototypeStartsWith target "/") then
      if negb (URLCanParse target) then
        let exportTarget :=
          if pattern then RegExpReplaceAllChar "*" target subpath
          else target +:+ subpath in
        packageResolve_rec exportTarget (BURL packageJSONUrl) conditions
      else throw (invalidPackageTarget match_ (TString target) internal)
    else throw (invalidPackageTarget match_ (TString target) internal)
  else
    (if test true invalidSegmentRegEx (StringPrototypeSlice target 2 None) then
       if negb (test true deprecatedInvalidSegmentRegEx (StringPrototypeSlice target 2 None)) then
         if negb isPathMap then
           let request :=
             if pattern then StringPrototypeReplace match_ "*" subpath
             else match_ +:+ subpath in
           let resolvedTarget :=
             if pattern then RegExpReplaceAllChar "*" target subpath else target in
           emit (EmitInvalidSegmentDeprecation resolvedTarget request match_
                   packageJSONUrl internal base true)
         else ret tt
       else throw (invalidPackageTarget match_ (TString target) internal)
     else ret tt) ;;;
    resolved <- new_URL target (Some (href packageJSONUrl)) ;;
    let resolvedPath := pathname resolved in
    packageDir <- new_URL "." (Some (href packageJSONUrl)) ;;
    let packagePath := pathname packageDir in
    if negb (StringPrototypeStartsWith resolvedPath packagePath)
    then throw (invalidPackageTarget match_ (TString target) internal)
    else if String.eqb subpath "" then ret resolved
    else
      (if test true invalidSegmentRegEx subpath then
         let request :=
           if pattern then StringPrototypeReplace match_ "*" subpath
           else match_ +:+ subpath in
         if negb (test true deprecatedInvalidSegmentRegEx subpath) then
           if negb isPathMap then
             let resolvedTarget :=
               if pattern then RegExpReplaceAllChar "*" target subpath else target in
             emit (EmitInvalidSegmentDeprecation resolvedTarget request match_
                     packageJSONUrl internal base false)
           else ret tt
         else throwInvalidSubpath request match_ internal
       else ret tt) ;;;
      if pattern
      then new_URL (RegExpReplaceAllChar "*" (href resolved) subpath) None
      else new_URL subpath (Some (href resolved)).

Definition isArrayIndex (key : string) : bool :=
  let keyNum := ToNumber key in
  if negb (String.eqb (NumberToString keyNum) key) then false
  else Number_ge keyNum (Number_of_Z 0) && Number_lt keyNum (Number_of_Z 4294967295).

(** The variable [lastException] of the list case. *)
Inductive lastException_t : Type :=
| LUndefined
| LNull
| LError (e : error).

Fixpoint resolvePackageTarget (packageJSONUrl : URL) (target : TargetValue)
    (subpath packageSubpath : string) (base : Base)
    (pattern internal isPathMap : bool) (conditions : gset string)
    {struct target} : W resolution :=
  match target with
  | TString s =>
      u <- resolvePackageTargetString s subpath packageSubpath packageJSONUrl
             base pattern internal isPathMap conditions ;;
      ret (RUrl u)
  | TList l =>
      match l with
      | [] => ret RNull
      | _ =>
        (fix loop (items : list TargetValue) (lastException : lastException_t)
           : W resolution :=
           match items with
           | [] =>
               match lastException with
               | LUndefined => ret RUndefined
               | LNull => ret RNull
               | LError e => throw e
               end
           | targetItem :: rest =>
               match resolvePackageTarget packageJSONUrl targetItem subpath
                       packageSubpath base pattern internal isPathMap conditions with
               | (Throw e, w) =>
                   if String.eqb (code e) "ERR_INVALID_PACKAGE_TARGET"
                   then log w (loop rest (LError e))
                   else (Throw e, w)
               | (OutOfFuel, w) => (OutOfFuel, w)
               | (Ok RUndefined, w) => log w (loop rest lastException)
               | (Ok RNull, w) => log w (loop rest LNull)
               | (Ok (RUrl u), w) => (Ok (RUrl u), w)
               end
           end) l LUndefined
      end
  | TMap m =>
      if existsb isArrayIndex (map fst m)
      then throw (ERR_INVALID_PACKAGE_CONFIG
                    "exports cannot contain numeric property keys.")
      else
        (fix loop (entries : list (string * TargetValue)) : W resolution :=
           match entries with
           | [] => ret RUndefined
           | (key, conditionalTarget) :: rest =>
               if String.eqb key "default" || bool_decide (key ∈ conditions) then
                 resolveResult <- resolvePackageTarget packageJSONUrl
                   conditionalTarget subpath packageSubpath base pattern
                   internal isPathMap conditions ;;
                 match resolveResult with
                 | RUndefined => loop rest
                 | _ => ret resolveResult
                 end
               else loop rest
           end) m
  | TNull => ret RNull
  | TUndefined | TOther _ =>
      throw (invalidPackageTarget packageSubpath target internal)
  end.

Fixpoint isConditionalExportsMainSugar_loop (keys : list string) (i : Z)
    (isConditionalSugar : bool) : outcome bool :=
  match keys with
  | [] => Ok isConditionalSugar
  | key :: rest =>
      let curIsConditionalSugar :=
        String.eqb key "" || negb (bool_decide (at_ key 0 = Some "."%char)) in
      if i =? 0 then
        isConditionalExportsMainSugar_loop rest (i + 1) curIsConditionalSugar
      else if negb (Bool.eqb isConditionalSugar curIsConditionalSugar) then
        Throw (ERR_INVALID_PACKAGE_CONFIG
                 "exports cannot contain some keys starting with '.' and some not.")
      else isConditionalExportsMainSugar_loop rest (i + 1) isConditionalSugar
  end.

Definition isConditionalExportsMainSugar (exports : TargetValue) : outcome bool :=
  match exports with
  | TString _ | TList _ => Ok true
  | TMap m => isConditionalExportsMainSugar_loop (map fst m) 0 false
  | TNull | TUndefined | TOther _ => Ok false
  end.

Definition patternKeyCompare (a b : string) : Z :=
  let aPatternIndex := StringPrototypeIndexOf a "*" in
  let bPatternIndex := StringPrototypeIndexOf b "*" in
  let baseLenA := if aPatternIndex =? -1 then len a else aPatternIndex + 1 in
  let baseLenB := if bPatternIndex =? -1 then len b else bPatternIndex + 1 in
  if baseLenA >? baseLenB then -1
  else if baseLenB >? baseLenA then 1
  else if aPatternIndex =? -1 then 1
  else if bPatternIndex =? -1 then -1
  else if len a >? len b then -1
  else if len b >? len a then 1
  else 0.

(** Decimal numeral of an index. *)
Definition index_key (i : nat) : string :=
  NilEmpty.string_of_uint (Nat.to_uint i).

(** The own properties of a value used as an object, in the order of
    [ObjectGetOwnPropertyNames]: an array and a string have their indices
    and [length]. *)
Definition ownProperties (t : TargetValue) : list (string * TargetValue) :=
  match t with
  | TMap m => m
  | TList l =>
      imap (fun i x => (index_key i, x)) l ++
      [("length", TOther (bool_decide (l <> [])))]
  | TString s =>
      imap (fun i c => (index_key i, TString (String c ""))) (chars s) ++
      [("length", TOther (negb (String.eqb s "")))]
  | TNull | TUndefined | TOther _ => []
  end.

(** [object[key]], looked up among the own properties. *)
Fixpoint property (props : list (string * TargetValue)) (key : string)
    : TargetValue :=
  match props with
  | [] => TUndefined
  | (k, v) :: rest => if String.eqb k key then v else property rest key
  end.

Definition ObjectPrototypeHasOwnProperty (props : list (string * TargetValue))
    (key : string) : bool :=
  bool_decide (key ∈ map fst props).

(** The first test of the loop over the keys, shared by the [exports]
    and the [imports] loop: the key has a [*] and the request starts with
    what precedes it. *)
Definition patternPrefixMatches (key request : string) : bool :=
  let patternIndex := StringPrototypeIndexOf key "*" in
  negb (patternIndex =? -1) &&
  StringPrototypeStartsWith request
    (StringPrototypeSlice key 0 (Some patternIndex)).

(** The inner test and assignment of the loop, on the pair of variables
    [bestMatch], [bestMatchSubpath]. *)
Definition patternBestStep (request : string) (best : string * option string)
    (key : string) : string * option string :=
  let patternIndex := StringPrototypeIndexOf key "*" in
  let patternTrailer := StringPrototypeSlice key (patternIndex + 1) None in
  if (len request >=? len key) &&
     StringPrototypeEndsWith request patternTrailer &&
     (patternKeyCompare best.1 key =? 1) &&
     (StringPrototypeLastIndexOf key "*" =? patternIndex)
  then (key, Some (StringPrototypeSlice request patternIndex
                     (Some (len request - len patternTrailer))))
  else best.

(** The loop of [packageImportsResolve]. *)
Fixpoint importsBestMatch (name : string) (keys : list string)
    (best : string * option string) : string * option string :=
  match keys with
  | [] => best
  | key :: rest =>
      if patternPrefixMatches key name
      then importsBestMatch name rest (patternBestStep name best key)
      else importsBestMatch name rest best
  end.

(** The loop of [packageExportsResolve], which also reports a request
    that ends in a slash, once for every key that passes the first test. *)
Fixpoint exportsBestMatch (packageSubpath : string) (packageJSONUrl : URL)
    (base : Base) (keys : list string) (best : string * option string)
    : (string * option string) * list event :=
  match keys with
  | [] => (best, [])
  | key :: rest =>
      if patternPrefixMatches key packageSubpath then
        let w :=
          if StringPrototypeEndsWith packageSubpath "/"
          then [EmitTrailingSlashPatternDeprecation packageSubpath packageJSONUrl base]
          else [] in
        let '(r, w') := exportsBestMatch packageSubpath packageJSONUrl base rest
                          (patternBestStep packageSubpath best key) in
        (r, w ++ w')
      else exportsBestMatch packageSubpath packageJSONUrl base rest best
  end.

(** [bestMatchSubpath] where it is read: it is assigned whenever
    [bestMatch] is. *)
Definition assigned (bestMatchSubpath : option string) : string :=
  default "" bestMatchSubpath.

Definition packageExportsResolve (packageJSONUrl : URL) (packageSubpath : string)
    (packageConfig : PackageConfig.t) (base : Base) (conditions : gset string)
    : W URL :=
  sugar <- lift (isConditionalExportsMainSugar (PackageConfig.exports packageConfig)) ;;
  match PackageConfig.exports packageConfig with
  | TNull | TUndefined =>
      throw (ERR_TYPE_ERROR "Cannot convert undefined or null to object")
  | exports0 =>
      let exports := if sugar then [(".", exports0)] else ownProperties exports0 in
      if ObjectPrototypeHasOwnProperty exports packageSubpath &&
         negb (StringPrototypeIncludes packageSubpath "*") &&
         negb (StringPrototypeEndsWith packageSubpath "/") then
        let target := property exports packageSubpath in
        resolveResult <- resolvePackageTarget packageJSONUrl target ""
          packageSubpath base false false false conditions ;;
        match resolveResult with
        | RUrl u => ret u
        | RNull | RUndefined => throw (exportsNotFound packageSubpath)
        end
      else
        let '((bestMatch, bestMatchSubpath), w) :=
          exportsBestMatch packageSubpath packageJSONUrl base (map fst exports)
            ("", None) in
        log w
          (if negb (String.eqb bestMatch "") then
             let target := property exports bestMatch in
             resolveResult <- resolvePackageTarget packageJSONUrl target
               (assigned bestMatchSubpath) bestMatch base true false
               (StringPrototypeEndsWith packageSubpath "/") conditions ;;
             match resolveResult with
             | RUrl u => ret u
             | RNull | RUndefined => throw (exportsNotFound packageSubpath)
             end
           else throw (exportsNotFound packageSubpath))
  end.

(** Truthiness of a value, for [if (imports)]. *)
Definition truthy (t : TargetValue) : bool :=
  match t with
  | TString s => negb (String.eqb s "")
  | TList _ | TMap _ => true
  | TNull | TUndefined => false
  | TOther b => b
  end.

Definition packageImportsResolve (name : string) (base : Base)
    (conditions : gset string) : W URL :=
  if String.eqb name "#" || StringPrototypeStartsWith name "#/" ||
     StringPrototypeEndsWith name "/"
  then throw (ERR_INVALID_MODULE_SPECIFIER name
                "is not a valid internal imports specifier name")
  else
    packageConfig <- lift (getPackageScopeConfig (base_str base)) ;;
    resolveResult <-
      (if PackageConfig.exists_ packageConfig then
         let packageJSONUrl := pathToFileURL (PackageConfig.pjsonPath packageConfig) in
         let imports := PackageConfig.imports packageConfig in
         if truthy imports then
           let props := ownProperties imports in
           if ObjectPrototypeHasOwnProperty props name &&
              negb (StringPrototypeIncludes name "*") then
             resolvePackageTarget packageJSONUrl (property props name) "" name
               base false true false conditions
           else
             let '(bestMatch, bestMatchSubpath) :=
               importsBestMatch name (map fst props) ("", None) in
             if negb (String.eqb bestMatch "") then
               resolvePackageTarget packageJSONUrl (property props bestMatch)
                 (assigned bestMatchSubpath) bestMatch base true true false
                 conditions
             else ret RUndefined
         else ret RUndefined
       else ret RUndefined) ;;
    match resolveResult with
    | RUrl u => ret u
    | RNull | RUndefined => throw (importNotDefined name)
    end.

End Targets.

(** [parsePackageName]: the triple [packageName], [packageSubpath],
    [isScoped]. *)
Definition parsePackageName (specifier : string) : outcome (string * string * bool) :=
  let separatorIndex := StringPrototypeIndexOf specifier "/" in
  let validPackageName := true in
  let isScoped := false in
  let '(separatorIndex, validPackageName, isScoped) :=
    if bool_decide (at_ specifier 0 = Some "@"%char) then
      if (separatorIndex =? -1) || (len specifier =? 0)
      then (separatorIndex, false, true)
      else (StringPrototypeIndexOfFrom specifier "/" (separatorIndex + 1),
            validPackageName, true)
    else (separatorIndex, validPackageName, isScoped) in
  let packageName :=
    if separatorIndex =? -1 then specifier
    else StringPrototypeSlice specifier 0 (Some separatorIndex) in
  let validPackageName :=
    if test false invalidPackageNameRegEx packageName then false
    else validPackageName in
  if negb validPackageName then
    Throw (ERR_INVALID_MODULE_SPECIFIER specifier "is not a valid package name")
  else
    let packageSubpath :=
      "." +:+ (if separatorIndex =? -1 then ""
               else StringPrototypeSlice specifier separatorIndex None) in
    Ok (packageName, packageSubpath, isScoped).

Definition legacyMainResolveExtensions : list string :=
  [ ""; ".js"; ".json"; ".node"; "/index.js"; "/index.json"; "/index.node";
    "./index.js"; "./index.json"; "./index.node" ].

Definition kResolvedByMainIndexNode : Z := 6.

(** A value in a template or a concatenation: [undefined] prints as such. *)
Definition template (o : option string) : string := default "undefined" o.

Definition legacyMainResolve (packageJSONUrl : URL)
    (packageConfig : PackageConfig.t) (base : Base) : W URL :=
  let packageJsonUrlString := href packageJSONUrl in
  let baseStringified := base_str base in
  resolvedOption <- lift (FSLegacyMainResolve packageJsonUrlString
                            (PackageConfig.main packageConfig) baseStringified) ;;
  let baseUrl :=
    if resolvedOption <=? kResolvedByMainIndexNode
    then "./" +:+ template (PackageConfig.main packageConfig)
    else "" in
  resolvedUrl <- new_URL
    (baseUrl +:+ template (if resolvedOption <? 0 then None else
                             legacyMainResolveExtensions !! Z.to_nat resolvedOption))
    (Some (href packageJSONUrl)) ;;
  emit (EmitLegacyIndexDeprecation resolvedUrl packageJSONUrl base
          (PackageConfig.main packageConfig)) ;;;
  ret resolvedUrl.

Definition finalizeResolution (resolved : URL) (base : Base)
    (preserveSymlinks : bool) : W URL :=
  if test true encodedSepRegEx (pathname resolved) then
    throw (ERR_INVALID_MODULE_SPECIFIER (pathname resolved)
             "must not include encoded separator characters")
  else
    let path := fileURLToPath resolved in
    let stats :=
      internalModuleStat
        (toNamespacedPath
           (if StringPrototypeEndsWith path "/"
            then StringPrototypeSlice path (-1) None
            else path)) in
    if stats =? 1 then throw (ERR_UNSUPPORTED_DIR_IMPORT path)
    else if negb (stats =? 0) then
      let reported := if String.eqb path "" then pathname resolved else path in
      (if WATCH_REPORT_DEPENDENCIES && process_send
       then emit (ProcessSend reported)
       else ret tt) ;;;
      throw (ERR_MODULE_NOT_FOUND reported)
    else if negb preserveSymlinks then
      real <- lift (realpathSync path) ;;
      let resolved' :=
        pathToFileURL (real +:+ (if StringPrototypeEndsWith path sep then "/" else "")) in
      ret (set_search_hash resolved' (search resolved) (hash resolved))
    else ret resolved.

(** The [do ... while] loop of [packageResolve] up to the package match:
    the candidate whose directory exists, or the exit at the root. *)
Fixpoint packageResolve_loop (fuel : nat) (packageName : string) (isScoped : bool)
    (packageJSONUrl : URL) (packageJSONPath : string) : W (URL * string) :=
  match fuel with
  | O => (OutOfFuel, [])
  | S fuel' =>
      let stat :=
        internalModuleStat
          (toNamespacedPath
             (StringPrototypeSlice packageJSONPath 0
                (Some (len packageJSONPath - 13)))) in
      if negb (stat =? 1) then
        let lastPath := packageJSONPath in
        packageJSONUrl' <- new_URL
          ((if isScoped then "../../../../node_modules/"
            else "../../../node_modules/") +:+ packageName +:+ "/package.json")
          (Some (href packageJSONUrl)) ;;
        let packageJSONPath' := fileURLToPath packageJSONUrl' in
        if negb (len packageJSONPath' =? len lastPath)
        then packageResolve_loop fuel' packageName isScoped packageJSONUrl'
               packageJSONPath'
        else throw (ERR_MODULE_NOT_FOUND packageName)
      else ret (packageJSONUrl, packageJSONPath)
  end.

(** [exports != null] *)
Definition not_nullish (t : TargetValue) : bool :=
  match t with
  | TNull | TUndefined => false
  | _ => true
  end.

(** [packageResolve]; the fuel bounds the walk and the calls back from
    an [imports] target. *)
Fixpoint packageResolve (fuel : nat) (specifier : string) (base : Base)
    (conditions : gset string) : W URL :=
  match fuel with
  | O => (OutOfFuel, [])
  | S fuel' =>
      if canBeRequiredWithoutScheme specifier then
        new_URL ("node:" +:+ specifier) None
      else
        parsed <- lift (parsePackageName specifier) ;;
        let '(packageName, packageSubpath, isScoped) := parsed in
        packageConfig <- lift (getPackageScopeConfig (base_str base)) ;;
        if PackageConfig.exists_ packageConfig &&
           not_nullish (PackageConfig.exports packageConfig) &&
           bool_decide (PackageConfig.name packageConfig = Some packageName)
        then
          packageExportsResolve (packageResolve fuel')
            (pathToFileURL (PackageConfig.pjsonPath packageConfig))
            packageSubpath packageConfig base conditions
        else
          packageJSONUrl <- new_URL
            ("./node_modules/" +:+ packageName +:+ "/package.json")
            (Some (base_str base)) ;;
          let packageJSONPath := fileURLToPath packageJSONUrl in
          found <- packageResolve_loop fuel packageName isScoped packageJSONUrl
                     packageJSONPath ;;
          let '(packageJSONUrl, packageJSONPath) := found in
          packageConfig <- lift (packageJsonReader_read packageJSONPath) ;;
          if not_nullish (PackageConfig.exports packageConfig) then
            packageExportsResolve (packageResolve fuel') packageJSONUrl
              packageSubpath packageConfig base conditions
          else if String.eqb packageSubpath "." then
            legacyMainResolve packageJSONUrl packageConfig base
          else new_URL packageSubpath (Some (href packageJSONUrl))
  end.

Definition isRelativeSpecifier (specifier : string) : bool :=
  if bool_decide (at_ specifier 0 = Some "."%char) then
    if (len specifier =? 1) || bool_decide (at_ specifier 1 = Some "/"%char) then true
    else if bool_decide (at_ specifier 1 = Some "."%char) then
      if (len specifier =? 2) || bool_decide (at_ specifier 2 = Some "/"%char)
      then true else false
    else false
  else false.

Definition shouldBeTreatedAsRelativeOrAbsolutePath (specifier : string) : bool :=
  if String.eqb specifier "" then false
  else if bool_decide (at_ specifier 0 = Some "/"%char) then true
  else isRelativeSpecifier specifier.

(** The value of the variable [resolved] of [moduleResolve] when the
    finalization is reached; [None] is [undefined]. *)
Definition moduleResolve_resolved (fuel : nat) (specifier : string) (base : Base)
    (conditions : gset string) : W (option URL) :=
  let isRemote :=
    bool_decide (base_protocol base = Some "http:") ||
    bool_decide (base_protocol base = Some "https:") in
  if shouldBeTreatedAsRelativeOrAbsolutePath specifier then
    u <- new_URL specifier (Some (base_str base)) ;; ret (Some u)
  else if negb isRemote && bool_decide (at_ specifier 0 = Some "#"%char) then
    u <- packageImportsResolve (packageResolve fuel) specifier base conditions ;;
    ret (Some u)
  else
    match URL_new specifier None with
    | Some u => ret (Some u)
    | None =>
        if negb isRemote then
          u <- packageResolve fuel specifier base conditions ;; ret (Some u)
        else ret None
    end.

Definition moduleResolve (fuel : nat) (specifier : string) (base : Base)
    (conditions : gset string) (preserveSymlinks : bool) : W URL :=
  resolved <- moduleResolve_resolved fuel specifier base conditions ;;
  match resolved with
  | None => throw (ERR_TYPE_ERROR "Cannot read properties of undefined")
  | Some resolved =>
      if negb (String.eqb (protocol resolved) "file:") then ret resolved
      else finalizeResolution resolved base preserveSymlinks
  end.

(** [checkIfDisallowedImport]: [Some url] is the returned [{ url }]. *)
Definition checkIfDisallowedImport (specifier : string) (parsed : option URL)
    (parsedParentURL : option URL) : outcome (option string) :=
  match parsedParentURL with
  | Some parent =>
      let parentProtocol := protocol parent in
      if String.eqb parentProtocol "http:" || String.eqb parentProtocol "https:" then
        if shouldBeTreatedAsRelativeOrAbsolutePath specifier then
          match parsed with
          | Some parsed =>
              let parsedProtocol := protocol parsed in
              if negb (String.eqb parsedProtocol "") &&
                 negb (String.eqb parsedProtocol "https:") &&
                 negb (String.eqb parsedProtocol "http:")
              then Throw (ERR_NETWORK_IMPORT_DISALLOWED specifier
                            "remote imports cannot import from a local location.")
              else Ok (Some (href parsed))
          | None => Throw (ERR_TYPE_ERROR "Cannot read properties of undefined")
          end
        else if canBeRequiredWithoutScheme specifier then
          Throw (ERR_NETWORK_IMPORT_DISALLOWED specifier
                   "remote imports cannot import from a local location.")
        else
          Throw (ERR_NETWORK_IMPORT_DISALLOWED specifier
                   "only relative and absolute specifiers are supported.")
      else Ok None
  | None => Ok None
  end.

(** [context.parentURL] *)
Inductive parentURL_t : Type :=
| PUndefined
| PString (s : string)
| PURL (u : URL)
| POther.

Definition throwIfInvalidParentURL (parentURL : parentURL_t) : outcome unit :=
  match parentURL with
  | POther => Throw (ERR_INVALID_ARG_TYPE "parentURL")
  | _ => Ok tt
  end.

(** A valid parent, as a string where one is needed; [None] when it is
    falsy. *)
Definition parent_str (parentURL : parentURL_t) : option string :=
  match parentURL with
  | PString s => if String.eqb s "" then None else Some s
  | PURL u => Some (href u)
  | PUndefined | POther => None
  end.

Record Context_t : Type := {
  parentURL : parentURL_t;
  conditions : option (list string)
}.

(** The returned object; [format] is [None] where the key is absent. *)
Record Resolution : Type := {
  url : string;
  format : option (option string)
}.

(** The result of the [try] block that parses the specifier: the early
    return, or the value of [parsed]. *)
Definition parse_specifier (specifier : string) (parsedParentURL : option URL)
    : Resolution + option URL :=
  match (if shouldBeTreatedAsRelativeOrAbsolutePath specifier
         then URL_new specifier (href <$> parsedParentURL)
         else URL_new specifier None) with
  | Some parsed =>
      let protocol := protocol parsed in
      if String.eqb protocol "data:" ||
         (experimentalNetworkImports &&
          (String.eqb protocol "https:" || String.eqb protocol "http:"))
      then inl {| url := href parsed; format := None |}
      else inr (Some parsed)
  | None => inr None
  end.

(** The block of [defaultResolve] that consults the policy manifest:
    [Some href] is the early return of a redirect. *)
Definition policy_redirect (specifier : string) (context : Context_t)
    : W (option string) :=
  match parent_str (parentURL context), policy_manifest with
  | Some parent, Some manifest =>
      match getDependencyMapper manifest parent with
      | Some redirects =>
          match redirect_resolve redirects specifier
                  (default [] (conditions context)) with
          | DestTrue => ret None
          | DestURL destination => ret (Some (href destination))
          | DestMissing =>
              match conditions context with
              | None => throw (ERR_TYPE_ERROR "conditions is not iterable")
              | Some _ =>
                  lift (reaction redirects
                          (ERR_MANIFEST_DEPENDENCY_MISSING specifier)) ;;;
                  ret None
              end
          end
      | None => ret None
      end
  | _, _ => ret None
  end.

(** [parsedParentURL]: the parent parsed, [None] when it is falsy or
    does not parse. *)
Definition parsedParentURL (parentURL : parentURL_t) : option URL :=
  match parent_str parentURL with
  | Some parent => URL_new parent None
  | None => None
  end.

Definition defaultResolve (fuel : nat) (specifier : string) (context : Context_t)
    : W Resolution :=
  let parentURL := parentURL context in
  let conditions := conditions context in
  lift (throwIfInvalidParentURL parentURL) ;;;
  redirected <- policy_redirect specifier context ;;
  match redirected with
  | Some href => ret {| url := href; format := None |}
  | None =>
      let parsedParentURL := parsedParentURL parentURL in
      match parse_specifier specifier parsedParentURL with
      | inl r => ret r
      | inr parsed =>
          maybeReturn <- lift (checkIfDisallowedImport specifier parsed parsedParentURL) ;;
          match maybeReturn with
          | Some u => ret {| url := u; format := None |}
          | None =>
              if bool_decide (protocol <$> parsed = Some "node:")
              then ret {| url := specifier; format := None |}
              else
                let isMain := match parentURL with PUndefined => true | _ => false end in
                base <-
                  (match parentURL with
                   | PUndefined =>
                       if typeFlag then throw ERR_INPUT_TYPE_NOT_ALLOWED
                       else ret (BString (href (pathToFileURL (process_cwd +:+ "/"))))
                   | PString s => ret (BString s)
                   | PURL u => ret (BURL u)
                   | POther => throw (ERR_INVALID_ARG_TYPE "parentURL")
                   end) ;;
                let conditions := getConditionsSet conditions in
                url <- moduleResolve fuel specifier base conditions
                         (if isMain then preserveSymlinksMain else preserveSymlinks) ;;
                ret {| url := href url;
                       format := Some (defaultGetFormatWithoutErrors url) |}
          end
      end
  end.

(** The function the module exports when a policy is installed. *)
Definition defaultResolve_with_policy (fuel : nat) (specifier : string)
    (context : Context_t) : W Resolution :=
  match policy_manifest with
  | Some manifest =>
      r <- defaultResolve fuel specifier context ;;
      lift (mightAllow manifest (url r)
              (ERR_MANIFEST_DEPENDENCY_MISSING specifier)) ;;;
      ret r
  | None => defaultResolve fuel specifier context
  end.

End Resolver.

(** ** A reference host

    A concrete host on which the resolver runs: URLs after the URL
    standard, restricted to what the examples below need (schemes, an
    authority kept as written, hierarchical paths with dot segments and
    percent-encoding, query and fragment; no Windows drive letters, no
    port or credentials), POSIX paths, a file system given by its [stat]
    function and package configurations given by their reader.  Numbers
    are the integers and [NaN]. *)

Module Mini.

Record url : Type := {
  scheme : string;
  host : option string;
  opaque : bool;
  path : list string;
  query : option string;
  fragment : option string
}.

Definition is_alpha (c : ascii) : bool :=
  let n := nat_of_ascii c in
  bool_decide (65 ≤ n ≤ 90)%nat || bool_decide (97 ≤ n ≤ 122)%nat.

Definition is_digit (c : ascii) : bool :=
  let n := nat_of_ascii c in bool_decide (48 ≤ n ≤ 57)%nat.

Definition lower (c : ascii) : ascii :=
  let n := nat_of_ascii c in
  if bool_decide (65 ≤ n ≤ 90)%nat then ascii_of_nat (n + 32) else c.

Definition is_slash (special : bool) (c : ascii) : bool :=
  bool_decide (c = "/"%char) || (special && bool_decide (c = backslash_char)).

Fixpoint break_at (p : ascii -> bool) (l : list ascii) : list ascii * list ascii :=
  match l with
  | [] => ([], [])
  | x :: t => if p x then ([], l) else let '(a, b) := break_at p t in (x :: a, b)
  end.

Fixpoint drop_while (p : ascii -> bool) (l : list ascii) : list ascii :=
  match l with
  | [] => []
  | x :: t => if p x then drop_while p t else l
  end.

Fixpoint split_on (p : ascii -> bool) (l : list ascii) : list (list ascii) :=
  match l with
  | [] => [[]]
  | x :: t =>
      if p x then [] :: split_on p t
      else match split_on p t with
           | s :: r => (x :: s) :: r
           | [] => [[x]]
           end
  end.

Definition hex_digit (n : nat) : ascii :=
  if bool_decide (n < 10)%nat then ascii_of_nat (48 + n) else ascii_of_nat (55 + n).

Definition percent_byte (n : nat) : list ascii :=
  ["%"%char; hex_digit (n / 16); hex_digit (n mod 16)].

(** UTF-8 percent-encoding of a code unit below 256. *)
Definition percent_encode_char (c : ascii) : list ascii :=
  let n := nat_of_ascii c in
  if bool_decide (n < 128)%nat then percent_byte n
  else percent_byte (192 + n / 64) ++ percent_byte (128 + n mod 64).

Definition in_c0_set (c : ascii) : bool :=
  let n := nat_of_ascii c in bool_decide (n < 32)%nat || bool_decide (126 < n)%nat.

Definition dquote : ascii := ascii_of_nat 34.

Definition in_fragment_set (c : ascii) : bool :=
  in_c0_set c || bool_decide (c ∈ dquote :: chars " <>`").

Definition in_query_set (c : ascii) : bool :=
  in_c0_set c || bool_decide (c ∈ dquote :: chars " #<>").

Definition in_path_set (c : ascii) : bool :=
  in_query_set c || bool_decide (c ∈ chars "?`{}").

Definition percent_encode (set : ascii -> bool) (l : list ascii) : list ascii :=
  concat (map (fun c => if set c then percent_encode_char c else [c]) l).

Definition is_single_dot (s : list ascii) : bool :=
  let s := map lower s in
  bool_decide (s = chars ".") || bool_decide (s = chars "%2e").

Definition is_double_dot (s : list ascii) : bool :=
  let s := map lower s in
  bool_decide (s = chars "..") || bool_decide (s = chars ".%2e") ||
  bool_decide (s = chars "%2e.") || bool_decide (s = chars "%2e%2e").

Definition shorten (p : list string) : list string := removelast p.

(** The path state, one segment after the other; [rest = []] marks the
    last segment. *)
Fixpoint path_state (p : list string) (segments : list (list ascii)) : list string :=
  match segments with
  | [] => p
  | s :: rest =>
      let last := bool_decide (rest = []) in
      let p' :=
        if is_double_dot s then
          (if last then shorten p ++ [""] else shorten p)
        else if is_single_dot s then
          (if last then p ++ [""] else p)
        else p ++ [str (percent_encode in_path_set s)] in
      path_state p' rest
  end.

(** Query and fragment of what follows the path. *)
Definition query_fragment (l : list ascii) : option string * option string :=
  match l with
  | [] => (None, None)
  | c :: t =>
      if bool_decide (c = "?"%char) then
        let '(q, f) := break_at (fun x => bool_decide (x = "#"%char)) t in
        (Some (str (percent_encode in_query_set q)),
         match f with
         | [] => None
         | _ :: f' => Some (str (percent_encode in_fragment_set f'))
         end)
      else (None, Some (str (percent_encode in_fragment_set t)))
  end.

Definition is_path_end (c : ascii) : bool :=
  bool_decide (c = "?"%char) || bool_decide (c = "#"%char).

(** A hierarchical path from [p], then query and fragment.  A leading
    slash has been consumed by the caller. *)
Definition parse_path (sch : string) (h : option string) (special : bool)
    (p : list string) (l : list ascii) : url :=
  let '(pp, rest) := break_at is_path_end l in
  let '(q, f) := query_fragment rest in
  {| scheme := sch; host := h; opaque := false;
     path := path_state p (split_on (is_slash special) pp);
     query := q; fragment := f |}.

Definition drop_slash (special : bool) (l : list ascii) : list ascii :=
  match l with
  | c :: t => if is_slash special c then t else l
  | [] => []
  end.

Definition starts_slash (special : bool) (l : list ascii) : bool :=
  match l with
  | c :: _ => is_slash special c
  | [] => false
  end.

Definition is_authority_end (special : bool) (c : ascii) : bool :=
  is_slash special c || is_path_end c.

(** Authority, then the path start state. *)
Definition parse_authority (sch : string) (special : bool) (l : list ascii) : url :=
  let '(h, rest) := break_at (is_authority_end special) l in
  let h := str (map lower h) in
  let h := if String.eqb sch "file" && String.eqb h "localhost" then "" else h in
  parse_path sch (Some h) special [] (drop_slash special rest).

(** After the two slashes that announce an authority: [file] reads the
    host at once, the other special schemes skip further slashes. *)
Definition parse_slashes (sch : string) (special : bool) (l : list ascii) : url :=
  if special && negb (String.eqb sch "file")
  then parse_authority sch special (drop_while (is_slash special) l)
  else parse_authority sch special l.

(** The scheme of the input, lower-cased, and what follows the colon. *)
Fixpoint scan_scheme (acc : list ascii) (l : list ascii) : option (string * list ascii) :=
  match l with
  | [] => None
  | c :: t =>
      if bool_decide (c = ":"%char) then Some (str (rev acc), t)
      else if is_alpha c || is_digit c || bool_decide (c ∈ chars "+-.")
      then scan_scheme (lower c :: acc) t
      else None
  end.

Definition take_scheme (l : list ascii) : option (string * list ascii) :=
  match l with
  | c :: _ => if is_alpha c then scan_scheme [] l else None
  | [] => None
  end.

Definition is_special (sch : string) : bool :=
  bool_decide (sch ∈ ["ftp"; "file"; "http"; "https"; "ws"; "wss"]).

(** The relative states: the input has no scheme of its own, or repeats
    the scheme of a special base without an authority. *)
Definition parse_relative (b : url) (l : list ascii) : option url :=
  let sch := scheme b in
  let special := is_special sch in
  if opaque b then
    match l with
    | c :: t =>
        if bool_decide (c = "#"%char)
        then Some {| scheme := sch; host := host b; opaque := true; path := path b;
                     query := query b;
                     fragment := Some (str (percent_encode in_fragment_set t)) |}
        else None
    | [] => None
    end
  else
    match l with
    | [] => Some {| scheme := sch; host := host b; opaque := false; path := path b;
                    query := query b; fragment := None |}
    | c :: t =>
        if is_slash special c then
          if starts_slash special t
          then Some (parse_slashes sch special (drop_slash special t))
          else Some (parse_path sch (host b) special [] t)
        else if bool_decide (c = "?"%char) then
          let '(q, f) := query_fragment l in
          Some {| scheme := sch; host := host b; opaque := false; path := path b;
                  query := q; fragment := f |}
        else if bool_decide (c = "#"%char) then
          Some {| scheme := sch; host := host b; opaque := false; path := path b;
                  query := query b;
                  fragment := Some (str (percent_encode in_fragment_set t)) |}
        else Some (parse_path sch (host b) special (shorten (path b)) l)
    end.

Definition is_trimmed (c : ascii) : bool := bool_decide (nat_of_ascii c ≤ 32)%nat.

Definition is_tab_or_newline (c : ascii) : bool :=
  let n := nat_of_ascii c in
  bool_decide (n = 9)%nat || bool_decide (n = 10)%nat || bool_decide (n = 13)%nat.

Definition clean (l : list ascii) : list ascii :=
  let l := drop_while is_trimmed l in
  let l := rev (drop_while is_trimmed (rev l)) in
  filter (fun c => is_tab_or_newline c = false) l.

Definition parse (input : list ascii) (base : option url) : option url :=
  let l := clean input in
  match take_scheme l with
  | Some (sch, rest) =>
      let special := is_special sch in
      let same_base :=
        match base with
        | Some b => if String.eqb (scheme b) sch && negb (opaque b) then Some b else None
        | None => None
        end in
      if String.eqb sch "file" then
        if starts_slash true rest then
          if starts_slash true (drop_slash true rest)
          then Some (parse_slashes sch true (drop_slash true (drop_slash true rest)))
          else Some (parse_path sch
                       (Some (default "" (same_base ≫= host))) true []
                       (drop_slash true rest))
        else match same_base with
             | Some b => parse_relative b rest
             | None => Some (parse_path sch (Some "") true [] rest)
             end
      else if special then
        match same_base with
        | Some b => parse_relative b rest
        | None => Some (parse_slashes sch true rest)
        end
      else if starts_slash false rest then
        if starts_slash false (drop_slash false rest)
        then Some (parse_slashes sch false (drop_slash false (drop_slash false rest)))
        else Some (parse_path sch None false [] (drop_slash false rest))
      else
        let '(pp, r) := break_at is_path_end rest in
        let '(q, f) := query_fragment r in
        Some {| scheme := sch; host := None; opaque := true;
                path := [str (percent_encode in_c0_set pp)];
                query := q; fragment := f |}
  | None =>
      match base with
      | Some b => parse_relative b l
      | None => None
      end
  end.

(** The getters of a URL object. *)
Definition pathname (u : url) : string :=
  if opaque u then default "" (head (path u))
  else String.concat "" (map (fun seg => "/" +:+ seg) (path u)).

Definition search (u : url) : string :=
  match query u with
  | None | Some "" => ""
  | Some q => "?" +:+ q
  end.

Definition hash (u : url) : string :=
  match fragment u with
  | None | Some "" => ""
  | Some f => "#" +:+ f
  end.

Definition protocol (u : url) : string := scheme u +:+ ":".

Definition href (u : url) : string :=
  protocol u +:+
  match host u with Some h => "//" +:+ h | None => "" end +:+
  pathname u +:+
  match query u with Some q => "?" +:+ q | None => "" end +:+
  match fragment u with Some f => "#" +:+ f | None => "" end.

(** [new URL(input, base)] *)
Definition URL_new (input : string) (base : option string) : option url :=
  match base with
  | None => parse (chars input) None
  | Some b =>
      match parse (chars b) None with
      | Some bu => parse (chars input) (Some bu)
      | None => None
      end
  end.

Definition set_search_hash (u : url) (search hash : string) : url :=
  {| scheme := scheme u; host := host u; opaque := opaque u; path := path u;
     query := match chars search with
              | [] => None
              | c :: t => Some (str (percent_encode in_query_set
                                       (if bool_decide (c = "?"%char) then t else c :: t)))
              end;
     fragment := match chars hash with
                 | [] => None
                 | c :: t => Some (str (percent_encode in_fragment_set
                                          (if bool_decide (c = "#"%char) then t else c :: t)))
                 end |}.

Definition hex_value (c : ascii) : option nat :=
  let n := nat_of_ascii c in
  if is_digit c then Some (n - 48)%nat
  else if bool_decide (65 ≤ n ≤ 70)%nat then Some (n - 55)%nat
  else if bool_decide (97 ≤ n ≤ 102)%nat then Some (n - 87)%nat
  else None.

Fixpoint percent_decode (l : list ascii) : list ascii :=
  match l with
  | [] => []
  | c :: rest =>
      match rest with
      | a :: b :: t =>
          match hex_value a, hex_value b with
          | Some x, Some y =>
              if bool_decide (c = "%"%char)
              then ascii_of_nat (16 * x + y) :: percent_decode t
              else c :: percent_decode rest
          | _, _ => c :: percent_decode rest
          end
      | _ => c :: percent_decode rest
      end
  end.

(** [fileURLToPath] on POSIX. *)
Definition fileURLToPath (u : url) : string :=
  str (percent_decode (chars (pathname u))).

Definition encodePathChars (l : list ascii) : list ascii :=
  concat (map (fun c =>
                 if bool_decide (c = "%"%char) || bool_decide (c = backslash_char) ||
                    is_tab_or_newline c
                 then percent_encode_char c else [c]) l).

Definition in_pathname_set (c : ascii) : bool := in_path_set c.

(** [pathToFileURL] of an absolute POSIX path. *)
Definition pathToFileURL (p : string) : url :=
  {| scheme := "file"; host := Some ""; opaque := false;
     path := path_state []
               (map (percent_encode in_pathname_set)
                  (split_on (is_slash true) (drop_slash true (encodePathChars (chars p)))));
     query := None; fragment := None |}.

(** Numbers: an integer, or [None] for [NaN]. *)
Fixpoint digits_value (acc : Z) (l : list ascii) : option Z :=
  match l with
  | [] => Some acc
  | c :: t =>
      if is_digit c then digits_value (10 * acc + Z.of_nat (nat_of_ascii c - 48)) t
      else None
  end.

Definition ToNumber (s : string) : option Z :=
  match chars s with
  | [] => Some 0
  | c :: t =>
      if bool_decide (c = "-"%char) then
        match t with [] => None | _ => Z.opp <$> digits_value 0 t end
      else if bool_decide (c = "+"%char) then
        match t with [] => None | _ => digits_value 0 t end
      else digits_value 0 (c :: t)
  end.

Definition NumberToString (n : option Z) : string :=
  match n with
  | None => "NaN"
  | Some z => NilZero.string_of_int (Z.to_int z)
  end.

Definition Number_ge (a b : option Z) : bool :=
  match a, b with Some x, Some y => y <=? x | _, _ => false end.

Definition Number_lt (a b : option Z) : bool :=
  match a, b with Some x, Some y => x <? y | _, _ => false end.

(** What the host knows of the machine it runs on. *)
Record env : Type := {
  stat : string -> Z;
  read : string -> outcome PackageConfig.t;
  scope : string -> outcome PackageConfig.t;
  builtins : list string;
  flag_preserveSymlinks : bool;
  flag_preserveSymlinksMain : bool;
  flag_experimentalNetworkImports : bool;
  flag_inputType : bool;
  env_WATCH_REPORT_DEPENDENCIES : bool;
  has_process_send : bool;
  cwd : string;
  manifest : option (Manifest url)
}.

(** A file system without symbolic links: [stat] of a path with the
    slashes at its end removed, the root apart; a regular file followed
    by a slash is an error ([ENOTDIR]). *)
Definition internalModuleStat (e : env) (p : string) : Z :=
  match rev (drop_while (is_slash false) (rev (chars p))) with
  | [] => stat e (if String.eqb p "" then "" else "/")
  | l =>
      if (stat e (str l) =? 0) && negb (String.eqb (str l) p) then -20
      else stat e (str l)
  end.

(** The probe of [legacyMainResolve]: the index of the first candidate
    that is a regular file. *)
Fixpoint first_file (e : env) (candidates : list (Z * string)) : outcome Z :=
  match candidates with
  | [] => Throw (ERR_MODULE_NOT_FOUND "package main")
  | (i, p) :: rest => if stat e p =? 0 then Ok i else first_file e rest
  end.

Definition FSLegacyMainResolve (e : env) (packageJsonUrlString : string)
    (main : option string) (base : string) : outcome Z :=
  match URL_new "." (Some packageJsonUrlString) with
  | None => Throw (ERR_INVALID_URL packageJsonUrlString)
  | Some dir =>
      let d := fileURLToPath dir in
      first_file e
        (match main with
         | Some m =>
             imap (fun i ext => (Z.of_nat i, d +:+ m +:+ ext))
               (take 7 legacyMainResolveExtensions)
         | None => []
         end ++
         imap (fun i ext => (7 + Z.of_nat i, d +:+ ext))
           ["index.js"; "index.json"; "index.node"])
  end.

Definition getConditionsSet (conditions : option (list string)) : gset string :=
  match conditions with
  | Some l => list_to_set l
  | None => {[ "node"; "import" ]}
  end.

(** Plain paths: segments made of letters, digits and [-_@.], the dot
    segments apart; [file_url] is the URL of such a path. *)
Definition plain_char (c : ascii) : bool :=
  is_alpha c || is_digit c || bool_decide (c ∈ chars "-_@.").

Definition plain_chars (l : list ascii) : bool := forallb plain_char l.

Definition plain_segment (s : string) : bool :=
  plain_chars (chars s) && negb (is_single_dot (chars s)) &&
  negb (is_double_dot (chars s)).

Definition file_url (segments : list string) : url :=
  {| scheme := "file"; host := Some ""; opaque := false; path := segments;
     query := None; fragment := None |}.

(** The characters of a path: each segment after a slash. *)
Definition path_chars (segments : list (list ascii)) : list ascii :=
  concat (map (fun seg => "/"%char :: seg) segments).

(** The characters of a path of plain segments: plain, or a slash. *)
Definition path_char (c : ascii) : Prop := plain_char c = true ∨ c = "/"%char.

(** The segments of a candidate of the walk below its directories. *)
Definition candidate_tail (name : list string) : list string :=
  "node_modules" :: name ++ ["package.json"].

(** A package name of plain segments: one, or two for a scoped name. *)
Definition plain_name (isScoped : bool) (packageName : string) (name : list string) : Prop :=
  Forall (fun s => plain_segment s = true) name ∧
  length name = (if isScoped then 2 else 1)%nat ∧
  packageName = String.concat "/" name.

(** The relative specifier of a step up of the walk, as a path. *)
Definition step_segments (isScoped : bool) (name : list string) : list (list ascii) :=
  replicate (if isScoped then 4 else 3)%nat (chars "..") ++
  map chars (candidate_tail name).

Definition mini_host (e : env) : Host :=
  Build_Host url URL_new href protocol pathname search hash set_search_hash
    fileURLToPath pathToFileURL "/" (fun p => p) (internalModuleStat e)
    (fun p => Ok p) (FSLegacyMainResolve e) (scope e) (read e)
    (fun s => bool_decide (s ∈ builtins e)) (fun _ => None) getConditionsSet
    (flag_preserveSymlinks e) (flag_preserveSymlinksMain e)
    (flag_experimentalNetworkImports e) (flag_inputType e)
    (env_WATCH_REPORT_DEPENDENCIES e) (has_process_send e) (cwd e) (manifest e)
    (option Z) ToNumber NumberToString Some Number_ge Number_lt.

End Mini.

(** ** An installation to run the resolver on

    [/app/main.mjs] next to [/app/node_modules/pkg], a package with an
    [exports] map; the process has the watch flag in its environment and
    no IPC channel. *)

Module Demo.

Definition files : list (string * Z) :=
  [ ("/", 1); ("/app", 1); ("/app/main.mjs", 0); ("/app/sub", 1);
    ("/app/node_modules", 1); ("/app/node_modules/pkg", 1);
    ("/app/node_modules/pkg/package.json", 0);
    ("/app/node_modules/pkg/lib", 1); ("/app/node_modules/pkg/lib/x.js", 0);
    ("/app/node_modules/pkg/src", 1); ("/app/node_modules/pkg/src/a", 1);
    ("/app/node_modules/pkg/src/a/b.js", 0);
    ("/app/node_modules/pkg/y.js", 0); ("/app/node_modules/pkg/n.js", 0);
    ("/app/node_modules/pkg/d.js", 0) ].

Fixpoint lookup_file (l : list (string * Z)) (p : string) : Z :=
  match l with
  | [] => -2
  | (q, st) :: rest => if String.eqb q p then st else lookup_file rest p
  end.

Definition stat (p : string) : Z := lookup_file files p.

Definition pkg_exports : TargetValue :=
  TMap [ (".", TMap [("node", TString "./n.js"); ("default", TString "./d.js")]);
         ("./x", TString "./lib/x.js");
         ("./*", TString "./*");
         ("./*.js", TString "./src/*.js");
         ("./alt", TList [TString "missing-not-rel"; TString "./y.js"]);
         ("./esc", TString "./lib/../../etc") ].

Definition pkg_json : string := "/app/node_modules/pkg/package.json".

Definition pkg_config : PackageConfig.t :=
  {| PackageConfig.exists_ := true;
     PackageConfig.pjsonPath := pkg_json;
     PackageConfig.name := Some "pkg";
     PackageConfig.main := None;
     PackageConfig.type_ := "none";
     PackageConfig.exports := pkg_exports;
     PackageConfig.imports := TUndefined |}.

Definition no_config (p : string) : PackageConfig.t :=
  {| PackageConfig.exists_ := false;
     PackageConfig.pjsonPath := p;
     PackageConfig.name := None;
     PackageConfig.main := None;
     PackageConfig.type_ := "none";
     PackageConfig.exports := TUndefined;
     PackageConfig.imports := TUndefined |}.

Definition read (p : string) : outcome PackageConfig.t :=
  if String.eqb p pkg_json then Ok pkg_config else Ok (no_config p).

Definition scope (href : string) : outcome PackageConfig.t :=
  Ok (no_config "/package.json").

Definition env : Mini.env :=
  {| Mini.stat := stat;
     Mini.read := read;
     Mini.scope := scope;
     Mini.builtins := ["fs"; "path"];
     Mini.flag_preserveSymlinks := false;
     Mini.flag_preserveSymlinksMain := false;
     Mini.flag_experimentalNetworkImports := false;
     Mini.flag_inputType := false;
     Mini.env_WATCH_REPORT_DEPENDENCIES := true;
     Mini.has_process_send := false;
     Mini.cwd := "/app";
     Mini.manifest := None |}.

Definition host : Host := Mini.mini_host env.

Definition parent : string := "file:///app/main.mjs".

Definition context : Context_t (H := host) :=
  {| parentURL := PString (H := host) parent; conditions := None |}.

Definition remote_context : Context_t (H := host) :=
  {| parentURL := PString (H := host) "https://example.com/main.mjs";
     conditions := None |}.

(** [defaultResolve] from [/app/main.mjs]: the returned [url], or the
    code of the error. *)
Definition resolve_from_main (specifier : string) : string + string :=
  match (defaultResolve (H := host) 10 specifier context).1 with
  | Ok r => inl (url r)
  | Throw e => inr (code e)
  | OutOfFuel => inr "out of fuel"
  end.

Definition pkg_url : Mini.url := Mini.pathToFileURL pkg_json.

(** The candidates of the walk for the package [pkg2], which is not
    installed, from [/app/sub]. *)
Definition walk_start : Mini.url :=
  Mini.pathToFileURL "/app/sub/node_modules/pkg2/package.json".

Definition walk_second : Mini.url :=
  Mini.pathToFileURL "/app/node_modules/pkg2/package.json".

Definition walk_last : Mini.url :=
  Mini.pathToFileURL "/node_modules/pkg2/package.json".

(** The URL of the file [/app/main.mjs], with a slash at its end. *)
Definition main_with_slash : Mini.url := Mini.pathToFileURL "/app/main.mjs/".

Definition missing_file : Mini.url := Mini.pathToFileURL "/app/missing.mjs".

End Demo.

(** ** The notions the properties are stated with *)

(** A pattern key matches a request: the key has exactly one [*], the
    request starts with what precedes it, ends with what follows it, and
    is at least as long as the key. *)
Definition pattern_key_matches (q k : string) : Prop :=
  "*"%char ∈ chars k ∧ ("*"%char ∉ after "*" (chars k)) ∧
  before "*" (chars k) `prefix_of` chars q ∧
  after "*" (chars k) `suffix_of` chars q ∧
  (length (chars k) ≤ length (chars q))%nat.

Definition prefix_length (k : string) : nat := length (before "*" (chars k)).

Definition key_length (k : string) : nat := length (chars k).

(** [k] is at least as good a match as [k']: a longer prefix, or the same
    prefix length and a key at least as long. *)
Definition ranks_above (k k' : string) : Prop :=
  (prefix_length k' < prefix_length k)%nat ∨
  (prefix_length k' = prefix_length k ∧ key_length k' ≤ key_length k)%nat.

(** The tests of the loop on a key, the comparison with the running best
    apart. *)
Definition key_test (q k : string) : bool :=
  let patternIndex := StringPrototypeIndexOf k "*" in
  let patternTrailer := StringPrototypeSlice k (patternIndex + 1) None in
  patternPrefixMatches k q &&
  (len q >=? len k) &&
  StringPrototypeEndsWith q patternTrailer &&
  (StringPrototypeLastIndexOf k "*" =? patternIndex).

(** The value assigned to [bestMatchSubpath] for a key. *)
Definition capture (q k : string) : string :=
  let patternIndex := StringPrototypeIndexOf k "*" in
  let patternTrailer := StringPrototypeSlice k (patternIndex + 1) None in
  StringPrototypeSlice q patternIndex (Some (len q - len patternTrailer)).

(** One turn of the loop of the matcher. *)
Definition scan_step (q : string) (best : string * option string) (k : string)
    : string * option string :=
  if patternPrefixMatches k q then patternBestStep q best k else best.

(** [best] is the selection among [keys] for the request [q]: nothing
    when no key matches, else a matching key that no matching key
    outranks, with its capture. *)
Definition is_best_match (q : string) (keys : list string)
    (best : string * option string) : Prop :=
  (best = ("", None) ∧ ∀ k, k ∈ keys → ¬ pattern_key_matches q k) ∨
  (best.1 ∈ keys ∧ pattern_key_matches q best.1 ∧
   best.2 = Some (capture q best.1) ∧
   ∀ k, k ∈ keys → pattern_key_matches q k → ranks_above best.1 k).

(** The two loops of [resolvePackageTarget] on their own, over the
    resolution [res] of an element. *)
Section Loops.
Context {H : Host}.
Variable res : TargetValue -> W resolution.

Fixpoint list_loop (items : list TargetValue) (lastException : lastException_t)
    : W resolution :=
  match items with
  | [] =>
      match lastException with
      | LUndefined => ret RUndefined
      | LNull => ret RNull
      | LError e => throw e
      end
  | targetItem :: rest =>
      match res targetItem with
      | (Throw e, w) =>
          if String.eqb (code e) "ERR_INVALID_PACKAGE_TARGET"
          then log w (list_loop rest (LError e))
          else (Throw e, w)
      | (OutOfFuel, w) => (OutOfFuel, w)
      | (Ok RUndefined, w) => log w (list_loop rest lastException)
      | (Ok RNull, w) => log w (list_loop rest LNull)
      | (Ok (RUrl u), w) => (Ok (RUrl u), w)
      end
  end.

Fixpoint map_loop (conditions : gset string) (entries : list (string * TargetValue))
    : W resolution :=
  match entries with
  | [] => ret RUndefined
  | (key, conditionalTarget) :: rest =>
      if String.eqb key "default" || bool_decide (key ∈ conditions) then
        bind (res conditionalTarget) (fun resolveResult =>
          match resolveResult with
          | RUndefined => map_loop conditions rest
          | _ => ret resolveResult
          end)
      else map_loop conditions rest
  end.

(** An element after which the list loop moves on. *)
Definition moves_on (t : TargetValue) : Prop :=
  (res t).1 = Ok RUndefined ∨ (res t).1 = Ok RNull ∨
  ∃ e, (res t).1 = Throw e ∧ code e = "ERR_INVALID_PACKAGE_TARGET".

(** What the list loop remembers of an element it moves on from. *)
Definition remember (lastException : lastException_t) (t : TargetValue)
    : lastException_t :=
  match (res t).1 with
  | Ok RNull => LNull
  | Throw e => LError e
  | _ => lastException
  end.

End Loops.

(** A key of a condition object that is tried. *)
Definition applies (conditions : gset string) (key : string) : Prop :=
  key = "default" ∨ key ∈ conditions.

(** The own properties of the [exports] value after the main sugar has
    been applied. *)
Definition normalized_exports (sugar : bool) (exports0 : TargetValue)
    : list (string * TargetValue) :=
  if sugar then [(".", exports0)] else ownProperties exports0.

(** What [packageExportsResolve] makes of the resolution of the target
    it has selected. *)
Definition exported `{Host} (packageSubpath : string) (o : outcome resolution)
    : outcome URL :=
  match o with
  | Ok (RUrl u) => Ok u
  | Ok RNull | Ok RUndefined => Throw (ERR_PACKAGE_PATH_NOT_EXPORTED packageSubpath)
  | Throw e => Throw e
  | OutOfFuel => OutOfFuel
  end.

(** A URL within the directory of a [package.json]: its pathname starts
    with the pathname of [new URL('.', packageJSONUrl)]. *)
Definition within_package `{Host} (packageJSONUrl u : URL) : Prop :=
  ∃ packageDir, URL_new "." (Some (href packageJSONUrl)) = Some packageDir ∧
    StringPrototypeStartsWith (pathname u) (pathname packageDir) = true.

(** The walk up the [node_modules] directories, as a relation. *)
Section Walk.
Context {H : Host}.
Variables (packageName : string) (isScoped : bool).

(** The test of the loop: the directory of the candidate exists. *)
Definition candidate_exists (packageJSONPath : string) : bool :=
  internalModuleStat
    (toNamespacedPath
       (StringPrototypeSlice packageJSONPath 0 (Some (len packageJSONPath - 13))))
  =? 1.

(** The candidate three directories up, four for a scoped name. *)
Definition step_up (packageJSONUrl : URL) : option URL :=
  URL_new
    ((if isScoped then "../../../../node_modules/" else "../../../node_modules/")
       +:+ packageName +:+ "/package.json")
    (Some (href packageJSONUrl)).

(** [walk u r]: from the candidate [u] the walk ends in [r]: the first
    candidate whose directory exists, or [ERR_MODULE_NOT_FOUND] when a
    step up leaves the path unchanged. *)
Inductive walk : URL -> outcome (URL * string) -> Prop :=
| walk_found u :
    candidate_exists (fileURLToPath u) = true ->
    walk u (Ok (u, fileURLToPath u))
| walk_root u u' :
    candidate_exists (fileURLToPath u) = false ->
    step_up u = Some u' ->
    fileURLToPath u' = fileURLToPath u ->
    walk u (Throw (ERR_MODULE_NOT_FOUND packageName))
| walk_up u u' r :
    candidate_exists (fileURLToPath u) = false ->
    step_up u = Some u' ->
    fileURLToPath u' <> fileURLToPath u ->
    walk u' r ->
    walk u r.

(** The candidates that the walk from [u0] can reach. *)
Inductive candidate (u0 : URL) : URL -> Prop :=
| candidate_first : candidate u0 u0
| candidate_next u u' :
    candidate u0 u ->
    candidate_exists (fileURLToPath u) = false ->
    step_up u = Some u' ->
    candidate u0 u'.

(** A step up from [u] exists and leaves the path as it is or makes it
    shorter. *)
Definition steps_toward_root (u : URL) : Prop :=
  ∃ u', step_up u = Some u' ∧
    (fileURLToPath u' = fileURLToPath u ∨
     len (fileURLToPath u') < len (fileURLToPath u)).

End Walk.

(** ** The rest of the module

    The functions of the module that the resolver calls to warn, and the
    two helpers [isBareSpecifier] and [getPackageType].
    [resolveAsCommonJS], which only words the hint added to the message
    of an error, runs the CommonJS loader and is not modelled. *)

(** [/[/\\][/\\]/] *)
Definition doubleSlashRegEx : regex :=
  RSeq (RAlt (RLit "/") (RLit backslash)) (RAlt (RLit "/") (RLit backslash)).

(** A call of [process.emitWarning], by its code and the values its
    message is made of; as for the errors, the path of the base is left
    out. *)
Inductive warning : Type :=
| DEP0155 (match_ pjsonPath : string)
| DEP0166 (double : bool) (target request match_ : string) (internal : bool)
    (pjsonPath : string)
| DEP0151 (pkgPath : string) (main : option string) (entry : string).

Section Warnings.
Context {H : Host}.
(** [resolve] of the [path] module. *)
Variable path_resolve : string -> string -> string.

(** [emitTrailingSlashPatternDeprecation], on the set
    [emittedPackageWarnings] of the module. *)
Definition emitTrailingSlashPatternDeprecation (match_ : string) (pjsonUrl : URL)
    (emittedPackageWarnings : gset string) : gset string * list warning :=
  let pjsonPath := fileURLToPath pjsonUrl in
  if bool_decide (pjsonPath +:+ "|" +:+ match_ ∈ emittedPackageWarnings)
  then (emittedPackageWarnings, [])
  else ({[ pjsonPath +:+ "|" +:+ match_ ]} ∪ emittedPackageWarnings,
        [DEP0155 match_ pjsonPath]).

Definition emitInvalidSegmentDeprecation (target request match_ : string)
    (pjsonUrl : URL) (internal isTarget : bool) : list warning :=
  let pjsonPath := fileURLToPath pjsonUrl in
  let double := test false doubleSlashRegEx (if isTarget then target else request) in
  [DEP0166 double target request match_ internal pjsonPath].

(** [!main] *)
Definition no_main (main : option string) : bool :=
  match main with
  | None => true
  | Some m => String.eqb m ""
  end.

Definition emitLegacyIndexDeprecation (url packageJSONUrl : URL)
    (main : option string) : outcome (list warning) :=
  let format := defaultGetFormatWithoutErrors url in
  if negb (bool_decide (format = Some "module")) then Ok []
  else
    let path := fileURLToPath url in
    match URL_new "." (Some (href packageJSONUrl)) with
    | None => Throw (ERR_INVALID_URL ".")
    | Some packageDir =>
        let pkgPath := fileURLToPath packageDir in
        if no_main main then
          Ok [DEP0151 pkgPath main (StringPrototypeSlice path (len pkgPath) None)]
        else if negb (String.eqb (path_resolve pkgPath (template main)) path) then
          Ok [DEP0151 pkgPath main (StringPrototypeSlice path (len pkgPath) None)]
        else Ok []
    end.

(** What a notification of the log does when it is made: the set of the
    warnings made so far, and the warnings. *)
Definition notify (ev : event) (emitted : gset string)
    : outcome (gset string * list warning) :=
  match ev with
  | EmitTrailingSlashPatternDeprecation match_ pjsonUrl _ =>
      Ok (emitTrailingSlashPatternDeprecation match_ pjsonUrl emitted)
  | EmitInvalidSegmentDeprecation target request match_ pjsonUrl internal _ isTarget =>
      Ok (emitted,
          emitInvalidSegmentDeprecation target request match_ pjsonUrl internal isTarget)
  | EmitLegacyIndexDeprecation url packageJSONUrl _ main =>
      match emitLegacyIndexDeprecation url packageJSONUrl main with
      | Ok ws => Ok (emitted, ws)
      | Throw e => Throw e
      | OutOfFuel => OutOfFuel
      end
  | ProcessSend _ => Ok (emitted, [])
  end.

(** The notifications of a log, in order. *)
Fixpoint notifications (log : list event) (emitted : gset string)
    : outcome (gset string * list warning) :=
  match log with
  | [] => Ok (emitted, [])
  | ev :: rest =>
      match notify ev emitted with
      | Ok (emitted', ws) =>
          match notifications rest emitted' with
          | Ok (emitted'', ws') => Ok (emitted'', ws ++ ws')
          | Throw e => Throw e
          | OutOfFuel => OutOfFuel
          end
      | Throw e => Throw e
      | OutOfFuel => OutOfFuel
      end
  end.

End Warnings.

Section Helpers.
Context {H : Host}.

(** [isBareSpecifier]: the truth value of what it returns. *)
Definition isBareSpecifier (specifier : string) : bool :=
  match at_ specifier 0 with
  | Some c => negb (bool_decide (c = "/"%char)) && negb (bool_decide (c = "."%char))
  | None => false
  end.

Definition getPackageType (url : Base) : outcome string :=
  match getPackageScopeConfig (base_str url) with
  | Ok packageConfig => Ok (PackageConfig.type_ packageConfig)
  | Throw e => Throw e
  | OutOfFuel => OutOfFuel
  end.

End Helpers.

(** ** A second installation

    The package [app] at [/app], which every file belongs to: its
    [exports] is its main file, its [imports] names the package [pkg]
    and a directory of its own.  The process runs with [--input-type]
    and under a policy that redirects the specifier [redirected]. *)

Module App.

Definition app_json : string := "/app/package.json".

Definition app_imports : TargetValue :=
  TMap [ ("#dep", TString "pkg");
         ("#internal/*", TString "./src/*.js");
         ("#blocked", TNull) ].

Definition app_config : PackageConfig.t :=
  {| PackageConfig.exists_ := true;
     PackageConfig.pjsonPath := app_json;
     PackageConfig.name := Some "app";
     PackageConfig.main := None;
     PackageConfig.type_ := "module";
     PackageConfig.exports := TString "./main.mjs";
     PackageConfig.imports := app_imports |}.

(** The package [legacy], installed in [/app/node_modules], has no
    [exports] field. *)
Definition legacy_json : string := "/app/node_modules/legacy/package.json".

Definition legacy_config : PackageConfig.t :=
  {| PackageConfig.exists_ := true;
     PackageConfig.pjsonPath := legacy_json;
     PackageConfig.name := Some "legacy";
     PackageConfig.main := None;
     PackageConfig.type_ := "commonjs";
     PackageConfig.exports := TUndefined;
     PackageConfig.imports := TUndefined |}.

Definition files : list (string * Z) :=
  Demo.files ++
  [ ("/app/package.json", 0); ("/app/node_modules/legacy", 1);
    ("/app/node_modules/legacy/package.json", 0);
    ("/app/node_modules/legacy/lib.js", 0) ].

Definition stat (p : string) : Z := Demo.lookup_file files p.

Definition read (p : string) : outcome PackageConfig.t :=
  if String.eqb p app_json then Ok app_config
  else if String.eqb p legacy_json then Ok legacy_config
  else Demo.read p.

Definition scope (href : string) : outcome PackageConfig.t := Ok app_config.

Definition redirects : Redirects Mini.url :=
  {| redirect_resolve := fun specifier _ =>
       if String.eqb specifier "redirected"
       then DestURL (Mini.pathToFileURL "/app/other.mjs")
       else DestTrue;
     reaction := fun _ => Ok tt |}.

Definition manifest : Manifest Mini.url :=
  {| getDependencyMapper := fun _ => Some redirects;
     mightAllow := fun _ _ => Ok tt |}.

Definition env : Mini.env :=
  {| Mini.stat := stat;
     Mini.read := read;
     Mini.scope := scope;
     Mini.builtins := ["fs"; "path"];
     Mini.flag_preserveSymlinks := false;
     Mini.flag_preserveSymlinksMain := false;
     Mini.flag_experimentalNetworkImports := false;
     Mini.flag_inputType := true;
     Mini.env_WATCH_REPORT_DEPENDENCIES := false;
     Mini.has_process_send := false;
     Mini.cwd := "/app";
     Mini.manifest := Some manifest |}.

Definition host : Host := Mini.mini_host env.

Definition app_url : Mini.url := Mini.pathToFileURL app_json.

Definition context : Context_t (H := host) :=
  {| parentURL := PString (H := host) "file:///app/main.mjs"; conditions := Some [] |}.

(** URLs of the first installation that the examples name. *)
Definition remote_parent : Mini.url :=
  Eval vm_compute in
    default Demo.pkg_url (Mini.URL_new "https://example.com/main.mjs" None).

Definition pkg_dir : Mini.url :=
  Eval vm_compute in
    default Demo.pkg_url (Mini.URL_new "." (Some (Mini.href Demo.pkg_url))).

Definition pkg_src_pattern : Mini.url :=
  Eval vm_compute in
    default Demo.pkg_url
      (Mini.URL_new "./src/*.js" (Some (Mini.href Demo.pkg_url))).

Definition legacy_url : Mini.url := Mini.pathToFileURL legacy_json.

End App.

(** ** The notions the further properties are stated with *)

(** A package name that [parsePackageName] accepts: it does not start
    with a dot and has no [%] and no backslash. *)
Definition valid_package_name (name : string) : Prop :=
  at_ name 0 ≠ Some "."%char ∧ ("%"%char ∉ chars name) ∧
  (backslash_char ∉ chars name).

(** [specifier] is [name] followed by [rest], which is empty or starts
    with a slash; [name] is [@scope/pkg] when [isScoped] and has no slash
    otherwise. *)
Definition package_name_parts (specifier name packageSubpath : string)
    (isScoped : bool) : Prop :=
  ∃ rest, specifier = name +:+ rest ∧ packageSubpath = "." +:+ rest ∧
    (rest = "" ∨ at_ rest 0 = Some "/"%char) ∧
    valid_package_name name ∧
    if isScoped then
      ∃ scope pkg, name = scope +:+ "/" +:+ pkg ∧
        at_ scope 0 = Some "@"%char ∧
        ("/"%char ∉ chars scope) ∧ ("/"%char ∉ chars pkg)
    else at_ name 0 ≠ Some "@"%char ∧ ("/"%char ∉ chars name).

(** The name that [parsePackageName] cuts off a specifier: up to the
    first slash, to the second for a scoped name. *)
Definition name_chars (scoped : bool) (l : list ascii) : list ascii :=
  if scoped then before "/" l ++ "/"%char :: before "/" (after "/" l)
  else before "/" l.

(** A key of an [exports] object that is a condition name, not a
    subpath: the test of [isConditionalExportsMainSugar] on a key. *)
Definition condition_key (key : string) : bool :=
  String.eqb key "" || negb (bool_decide (at_ key 0 = Some "."%char)).

(** A segment separator of the expressions on segments. *)
Definition is_separator (c : ascii) : Prop := c = "/"%char ∨ c = backslash_char.

(** [l] has a segment [.], [..] or [node_modules], between separators or
    the ends of [l]. *)
Definition has_forbidden_segment (l : list ascii) : Prop :=
  ∃ pre seg post, l = pre ++ chars seg ++ post ∧
    seg ∈ ["."; ".."; "node_modules"] ∧
    (pre = [] ∨ ∃ p c, pre = p ++ [c] ∧ is_separator c) ∧
    (post = [] ∨ ∃ c p, post = c :: p ∧ is_separator c).

(** What [packageImportsResolve] makes of the resolution of the target
    it has selected. *)
Definition imported `{Host} (name : string) (o : outcome resolution)
    : outcome URL :=
  match o with
  | Ok (RUrl u) => Ok u
  | Ok RNull | Ok RUndefined => Throw (ERR_PACKAGE_IMPORT_NOT_DEFINED name)
  | Throw e => Throw e
  | OutOfFuel => OutOfFuel
  end.

(** A name that [packageImportsResolve] looks up: not [#], not starting
    with [#/], not ending in a slash. *)
Definition valid_imports_name (name : string) : Prop :=
  name ≠ "#" ∧ ¬ chars "#/" `prefix_of` chars name ∧
  ¬ chars "/" `suffix_of` chars name.

(** The key under which a warning is remembered in
    [emittedPackageWarnings]: only [DEP0155] is. *)
Definition warning_key (w : warning) : option string :=
  match w with
  | DEP0155 match_ pjsonPath => Some (pjsonPath +:+ "|" +:+ match_)
  | _ => None
  end.

(** A notification of a deprecated segment. *)
Definition segment_event `{Host} (ev : event) : Prop :=
  match ev with
  | EmitInvalidSegmentDeprecation _ _ _ _ _ _ _ => True
  | _ => False
  end.

(** Every notification of a computation satisfies [P]. *)
Definition notifies `{Host} {A} (P : event -> Prop) (m : W A) : Prop :=
  Forall P m.2.

(** * Properties *)

(** ** Strings *)

Lemma chars_str (l : list ascii) : chars (str l) = l.
Proof. apply list_ascii_of_string_of_list_ascii. Qed.

Lemma str_chars (s : string) : str (chars s) = s.
Proof. apply string_of_list_ascii_of_string. Qed.

Lemma chars_inj (s t : string) : chars s = chars t -> s = t.
Proof. intros E. rewrite <- (str_chars s), <- (str_chars t). by rewrite E. Qed.

Lemma chars_empty (s : string) : chars s = [] -> s = "".
Proof. intros E. by apply chars_inj. Qed.

Lemma eqb_empty (s : string) : String.eqb s "" = bool_decide (chars s = []).
Proof. by destruct s. Qed.

Lemma before_after (c : ascii) (l : list ascii) :
  c ∈ l -> l = before c l ++ c :: after c l.
Proof.
  induction l as [|x t IH]; intros Hin; [by apply elem_of_nil in Hin|].
  simpl. case_bool_decide as E; [by subst|].
  simpl. f_equal. apply IH. apply elem_of_cons in Hin as [->|?]; done.
Qed.

Lemma before_length (c : ascii) (l : list ascii) :
  (length (before c l) <= length l)%nat.
Proof. induction l; simpl; [lia|]. case_bool_decide; simpl; lia. Qed.

Lemma index_from_spec (c : ascii) (l : list ascii) (i : Z) :
  ((c ∉ l) ∧ index_from c l i = -1) ∨
  (c ∈ l ∧ index_from c l i = i + Z.of_nat (length (before c l))).
Proof.
  revert i. induction l as [|x t IH]; intros i; simpl.
  - left. split; [apply not_elem_of_nil|done].
  - case_bool_decide as E.
    + right. subst. split; [apply list_elem_of_here|simpl; lia].
    + destruct (IH (i + 1)) as [[Hn ->]|[Hin ->]].
      * left. split; [|done]. rewrite not_elem_of_cons. split; [congruence|done].
      * right. split; [by apply list_elem_of_further|simpl; lia].
Qed.

Lemma IndexOf_spec (s : string) (c : ascii) :
  ((c ∉ chars s) ∧ StringPrototypeIndexOf s c = -1) ∨
  (c ∈ chars s ∧ StringPrototypeIndexOf s c = Z.of_nat (length (before c (chars s)))).
Proof.
  unfold StringPrototypeIndexOf, StringPrototypeIndexOfFrom.
  assert (0 <= len s) by (unfold len; lia).
  replace (Z.min (Z.max 0 0) (len s)) with 0 by lia.
  change (Z.to_nat 0) with 0%nat. rewrite drop_0.
  destruct (index_from_spec c (chars s) 0) as [[? ->]|[? ->]]; [by left|right].
  split; [done|lia].
Qed.

Lemma last_index_from_notin (c : ascii) (l : list ascii) (i acc : Z) :
  c ∉ l -> last_index_from c l i acc = acc.
Proof.
  revert i acc. induction l as [|x t IH]; intros i acc Hn; simpl; [done|].
  apply not_elem_of_cons in Hn as [Hx Ht].
  rewrite IH by done. case_bool_decide; congruence.
Qed.

Lemma last_index_from_ge (c : ascii) (l : list ascii) (i acc : Z) :
  c ∈ l -> i <= last_index_from c l i acc.
Proof.
  revert i acc. induction l as [|x t IH]; intros i acc Hin; simpl.
  - by apply elem_of_nil in Hin.
  - destruct (decide (c ∈ t)) as [Ht|Ht].
    + specialize (IH (i + 1) (if bool_decide (x = c) then i else acc) Ht). lia.
    + rewrite last_index_from_notin by done.
      apply elem_of_cons in Hin as [->|?]; [|done].
      rewrite bool_decide_eq_true_2 by done. lia.
Qed.

(** The last occurrence is the first one exactly when nothing follows
    the first. *)
Lemma last_index_from_first (c : ascii) (l : list ascii) (i acc : Z) :
  c ∈ l ->
  (last_index_from c l i acc = i + Z.of_nat (length (before c l)) <->
   c ∉ after c l).
Proof.
  revert i acc. induction l as [|x t IH]; intros i acc Hin.
  - by apply elem_of_nil in Hin.
  - simpl. case_bool_decide as E.
    + subst. simpl. destruct (decide (c ∈ t)) as [Ht|Ht].
      * pose proof (last_index_from_ge c t (i + 1) i Ht). split; [lia|done].
      * rewrite last_index_from_notin by done. split; [done|lia].
    + apply elem_of_cons in Hin as [->|Ht]; [done|].
      simpl. rewrite <- (IH (i + 1) acc Ht). split; lia.
Qed.

Lemma LastIndexOf_first (s : string) (c : ascii) :
  c ∈ chars s ->
  (StringPrototypeLastIndexOf s c = StringPrototypeIndexOf s c <->
   c ∉ after c (chars s)).
Proof.
  intros Hin. unfold StringPrototypeLastIndexOf.
  destruct (IndexOf_spec s c) as [[? _]|[_ ->]]; [done|].
  rewrite <- (last_index_from_first c (chars s) 0 (-1) Hin). split; lia.
Qed.

Lemma len_chars (s : string) : len s = Z.of_nat (length (chars s)).
Proof. done. Qed.

Lemma rel_index_in (n i : Z) : 0 <= i <= n -> rel_index n i = i.
Proof. intros. unfold rel_index. destruct (Z.ltb_spec i 0); lia. Qed.

Lemma Slice_chars (s : string) (a b : Z) :
  0 <= a <= len s -> 0 <= b <= len s ->
  chars (StringPrototypeSlice s a (Some b)) =
  take (Z.to_nat (b - a)) (drop (Z.to_nat a) (chars s)).
Proof.
  intros Ha Hb. unfold StringPrototypeSlice.
  by rewrite chars_str, !rel_index_in.
Qed.

Lemma Slice_to_end (s : string) (a : Z) :
  0 <= a <= len s ->
  chars (StringPrototypeSlice s a None) = drop (Z.to_nat a) (chars s).
Proof.
  intros Ha. unfold StringPrototypeSlice.
  rewrite chars_str, rel_index_in by done.
  apply take_ge. rewrite length_drop. unfold len. lia.
Qed.

Lemma StartsWith_spec (s p : string) :
  StringPrototypeStartsWith s p = true <-> chars p `prefix_of` chars s.
Proof. unfold StringPrototypeStartsWith. by rewrite bool_decide_eq_true. Qed.

Lemma EndsWith_spec (s p : string) :
  StringPrototypeEndsWith s p = true <-> chars p `suffix_of` chars s.
Proof. unfold StringPrototypeEndsWith. by rewrite bool_decide_eq_true. Qed.

(** ** Computations *)

Section Computations.
Context {H : Host}.

Lemma bind_lift_ok {A B} (a : A) (f : A -> W B) : bind (lift (Ok a)) f = f a.
Proof. unfold bind, lift. by destruct (f a). Qed.

Lemma bind_ret {A B} (a : A) (f : A -> W B) : bind (ret a) f = f a.
Proof. unfold bind, ret. by destruct (f a). Qed.

Lemma bind_fst {A B} (m : W A) (f : A -> W B) :
  (bind m f).1 =
  match m.1 with
  | Ok a => (f a).1
  | Throw e => Throw e
  | OutOfFuel => OutOfFuel
  end.
Proof. destruct m as [[a|e|] w]; simpl; [|done..]. by destruct (f a). Qed.

Lemma log_fst {A} (w : list event) (m : W A) : (log w m).1 = m.1.
Proof. done. Qed.

Lemma new_URL_fst (input : string) (base : option string) :
  (new_URL input base).1 =
  match URL_new input base with
  | Some u => Ok u
  | None => Throw (ERR_INVALID_URL input)
  end.
Proof. unfold new_URL. by destruct (URL_new input base). Qed.

End Computations.

(** ** The pattern matcher *)

Section Matcher.
Local Abbreviation star := ("*"%char).

(** A key with a star, cut at its first star. *)
Lemma key_cut (k : string) :
  star ∈ chars k ->
  StringPrototypeIndexOf k star = Z.of_nat (prefix_length k) ∧
  chars (StringPrototypeSlice k 0 (Some (StringPrototypeIndexOf k star)))
    = before star (chars k) ∧
  chars (StringPrototypeSlice k (StringPrototypeIndexOf k star + 1) None)
    = after star (chars k).
Proof.
  intros Hin. destruct (IndexOf_spec k star) as [[? _]|[_ E]]; [done|].
  pose proof (before_after star (chars k) Hin) as Hk.
  unfold prefix_length. rewrite E.
  generalize dependent (before star (chars k)); intros b.
  generalize dependent (after star (chars k)); intros a E Hk.
  assert (length (chars k) = length b + 1 + length a)%nat as Hl.
  { rewrite Hk, length_app. simpl. lia. }
  split; [done|]. split.
  - rewrite Slice_chars by (unfold len; lia).
    rewrite Z.sub_0_r, Nat2Z.id. change (Z.to_nat 0) with 0%nat.
    by rewrite drop_0, Hk, take_app_length.
  - rewrite Slice_to_end by (unfold len; lia).
    replace (Z.to_nat (Z.of_nat (length b) + 1)) with (length (b ++ [star]))
      by (rewrite length_app; simpl; lia).
    rewrite Hk. change (b ++ star :: a) with (b ++ [star] ++ a).
    by rewrite app_assoc, drop_app_length.
Qed.

Lemma key_test_spec (q k : string) :
  key_test q k = true <-> pattern_key_matches q k.
Proof.
  unfold key_test, patternPrefixMatches, pattern_key_matches.
  destruct (IndexOf_spec k star) as [[Hn E]|[Hin E]].
  - rewrite E. simpl. split; [done|]. by intros [? _].
  - destruct (key_cut k Hin) as (Ei & Eb & Ea).
    rewrite !andb_true_iff, negb_true_iff, StartsWith_spec, EndsWith_spec, Eb, Ea.
    rewrite Z.eqb_eq, <- (LastIndexOf_first k star Hin).
    rewrite Z.geb_le, !len_chars. 
    assert ((StringPrototypeIndexOf k star =? -1) = false) as ->
      by (apply Z.eqb_neq; lia).
    split.
    + intros [[[[_ ?] ?] ?] ?]. repeat split; try done. lia.
    + intros (_ & ? & ? & ? & ?). repeat split; try done. lia.
Qed.

Lemma matches_has_star (q k : string) : pattern_key_matches q k -> star ∈ chars k.
Proof. by intros [? _]. Qed.

Lemma matches_nonempty (q k : string) : pattern_key_matches q k -> k <> "".
Proof. intros [Hin _] ->. by apply elem_of_nil in Hin. Qed.

(** The comparison that lets a key replace the running best. *)
Lemma patternKeyCompare_empty (k : string) :
  star ∈ chars k -> patternKeyCompare "" k = 1.
Proof.
  intros Hin. unfold patternKeyCompare.
  destruct (key_cut k Hin) as (-> & _). 
  change (StringPrototypeIndexOf "" star) with (-1).
  change (len "") with 0. cbv beta zeta.
  change (-1 =? -1) with true. cbv iota.
  assert (forall n : nat, (Z.of_nat n =? -1) = false) as E
    by (intros; apply Z.eqb_neq; lia).
  rewrite E.
  destruct (Z.gtb_spec 0 (Z.of_nat (prefix_length k) + 1)); [lia|].
  destruct (Z.gtb_spec (Z.of_nat (prefix_length k) + 1) 0); [done|lia].
Qed.

Lemma patternKeyCompare_keys (a k : string) :
  star ∈ chars a -> star ∈ chars k ->
  (patternKeyCompare a k = 1 <->
   (prefix_length a < prefix_length k)%nat ∨
   (prefix_length a = prefix_length k ∧ key_length a < key_length k)%nat).
Proof.
  intros Ha Hk. unfold patternKeyCompare.
  destruct (key_cut a Ha) as (-> & _), (key_cut k Hk) as (-> & _).
  rewrite !len_chars. fold (key_length a) (key_length k).
  assert (forall n : nat, (Z.of_nat n =? -1) = false) as E
    by (intros; apply Z.eqb_neq; lia).
  rewrite !E.
  repeat match goal with
         | |- context [?x >? ?y] => destruct (Z.gtb_spec x y)
         end; split; intros; try done; lia.
Qed.

Lemma scan_step_eq (q : string) (best : string * option string) (k : string) :
  scan_step q best k =
  if key_test q k && (patternKeyCompare best.1 k =? 1)
  then (k, Some (capture q k)) else best.
Proof.
  unfold scan_step, patternBestStep, key_test, capture.
  destruct (patternPrefixMatches k q); [|done].
  destruct (len q >=? len k); [|done].
  destruct (StringPrototypeEndsWith _ _); [|done].
  destruct (patternKeyCompare _ _ =? 1);
    by destruct (StringPrototypeLastIndexOf _ _ =? _).
Qed.

Lemma importsBestMatch_fold (q : string) (keys : list string)
    (best : string * option string) :
  importsBestMatch q keys best = fold_left (scan_step q) keys best.
Proof.
  revert best. induction keys as [|k keys IH]; intros best; [done|].
  simpl. unfold scan_step at 2. by destruct (patternPrefixMatches k q).
Qed.

(** Two keys that match the same request with the same prefix length
    and the same length are the same key. *)
Lemma matches_same_rank (q k k' : string) :
  pattern_key_matches q k -> pattern_key_matches q k' ->
  prefix_length k = prefix_length k' -> key_length k = key_length k' ->
  k = k'.
Proof.
  intros (Hin & _ & Hp & Hs & _) (Hin' & _ & Hp' & Hs' & _).
  unfold prefix_length, key_length. intros Eb El.
  apply chars_inj.
  apply before_after in Hin, Hin'.
  set (b := before star (chars k)) in *. set (a := after star (chars k)) in *.
  set (b' := before star (chars k')) in *. set (a' := after star (chars k')) in *.
  clearbody b a b' a'. rewrite Hin, Hin' in *.
  rewrite !length_app in El. simpl in El.
  assert (b = b') as ->.
  { destruct (prefix_weak_total b b' (chars q) Hp Hp') as [Hw|Hw].
    - apply prefix_length_eq; [done|lia].
    - symmetry. apply prefix_length_eq; [done|lia]. }
  assert (a = a') as ->; [|done].
  destruct (suffix_weak_total a a' (chars q) Hs Hs') as [Hw|Hw].
  - apply suffix_length_eq; [done|lia].
  - symmetry. apply suffix_length_eq; [done|lia].
Qed.

(** The capture is what the request has between the prefix and the
    suffix of the key. *)
Lemma capture_spec (q k : string) :
  pattern_key_matches q k ->
  chars q = before star (chars k) ++ chars (capture q k) ++ after star (chars k).
Proof.
  intros (Hin & _ & Hp & Hs & Hl).
  destruct (key_cut k Hin) as (Ei & _ & Ea).
  unfold capture. rewrite (len_chars (StringPrototypeSlice k _ None)), Ea, Ei, len_chars.
  apply before_after in Hin. unfold prefix_length.
  set (b := before star (chars k)) in *. set (a := after star (chars k)) in *.
  clearbody b a. rewrite Hin in Hl. clear Hin Ei Ea.
  rewrite length_app in Hl. simpl in Hl.
  destruct Hp as [r Hr], Hs as [pre Hpre].
  assert (length (chars q) = length pre + length a)%nat as Hq
    by (by rewrite Hpre, length_app).
  rewrite Slice_chars by (unfold len; lia).
  replace (Z.to_nat (Z.of_nat (length (chars q)) - Z.of_nat (length a)
                     - Z.of_nat (length b))) with (length pre - length b)%nat by lia.
  rewrite Nat2Z.id.
  assert (b = take (length b) pre) as Eb.
  { transitivity (take (length b) (chars q)).
    - by rewrite Hr, take_app_length.
    - rewrite Hpre, take_app_le by lia. done. }
  rewrite Hpre at 2. rewrite drop_app_le by lia.
  rewrite take_app_length' by (rewrite length_drop; lia).
  rewrite Hpre, app_assoc. f_equal.
  rewrite Eb at 1. by rewrite take_drop.
Qed.

Lemma scan_step_best (q : string) (seen : list string)
    (best : string * option string) (k : string) :
  is_best_match q seen best -> is_best_match q (seen ++ [k]) (scan_step q best k).
Proof.
  intros Hbest. rewrite scan_step_eq.
  destruct (key_test q k) eqn:Ht; simpl.
  - apply key_test_spec in Ht.
    destruct Hbest as [[-> Hnone]|(Hin & Hm & Hc & Hmax)].
    + simpl. rewrite patternKeyCompare_empty by by eapply matches_has_star.
      simpl. right. simpl. split; [apply elem_of_app; right; apply list_elem_of_here|]. split; [done|]. split; [done|].
      intros k' [Hk'| ->%list_elem_of_singleton]%elem_of_app Hm'.
      * by destruct (Hnone k').
      * right. split; lia.
    + pose proof (patternKeyCompare_keys best.1 k
                    (matches_has_star _ _ Hm) (matches_has_star _ _ Ht)) as Hcmp.
      destruct (Z.eqb_spec (patternKeyCompare best.1 k) 1) as [E|E].
      * apply Hcmp in E. right. simpl. split; [apply elem_of_app; right; apply list_elem_of_here|].
        split; [done|]. split; [done|].
        intros k' [Hk'| ->%list_elem_of_singleton]%elem_of_app Hm'.
        -- specialize (Hmax k' Hk' Hm'). unfold ranks_above in *. lia.
        -- right. split; lia.
      * right. split; [by apply elem_of_app; left|]. split; [done|]. split; [done|].
        intros k' [Hk'| ->%list_elem_of_singleton]%elem_of_app Hm'; [by apply Hmax|].
        unfold ranks_above. rewrite Hcmp in E. lia.
  - assert (¬ pattern_key_matches q k) as Hn
      by (rewrite <- key_test_spec; congruence).
    destruct Hbest as [[-> Hnone]|(Hin & Hm & Hc & Hmax)].
    + left. split; [done|].
      intros k' [Hk'| ->%list_elem_of_singleton]%elem_of_app; [by apply Hnone|done].
    + right. split; [by apply elem_of_app; left|]. split; [done|]. split; [done|].
      intros k' [Hk'| ->%list_elem_of_singleton]%elem_of_app Hm'; [by apply Hmax|done].
Qed.

Lemma scan_best (q : string) (keys seen : list string)
    (best : string * option string) :
  is_best_match q seen best ->
  is_best_match q (seen ++ keys) (fold_left (scan_step q) keys best).
Proof.
  revert seen best. induction keys as [|k keys IH]; intros seen best Hbest.
  - by rewrite app_nil_r.
  - simpl. rewrite (cons_middle k), app_assoc. apply IH.
    by apply scan_step_best.
Qed.

Lemma importsBestMatch_best (q : string) (keys : list string) :
  is_best_match q keys (importsBestMatch q keys ("", None)).
Proof.
  rewrite importsBestMatch_fold. apply (scan_best q keys []).
  left. split; [done|]. intros k Hk. by apply elem_of_nil in Hk.
Qed.

(** The selection is unique. *)
Lemma is_best_match_unique (q : string) (keys : list string)
    (best best' : string * option string) :
  is_best_match q keys best -> is_best_match q keys best' -> best = best'.
Proof.
  intros [[-> Hnone]|(Hin & Hm & Hc & Hmax)] [[-> Hnone']|(Hin' & Hm' & Hc' & Hmax')].
  - done.
  - by destruct (Hnone _ Hin').
  - by destruct (Hnone' _ Hin).
  - assert (best.1 = best'.1) as E.
    { specialize (Hmax _ Hin' Hm'). specialize (Hmax' _ Hin Hm).
      apply (matches_same_rank q); try done; unfold ranks_above in *; lia. }
    destruct best, best'; simpl in *. congruence.
Qed.

Lemma is_best_match_perm (q : string) (keys keys' : list string)
    (best : string * option string) :
  keys' ≡ₚ keys -> is_best_match q keys' best -> is_best_match q keys best.
Proof.
  intros HP [[-> Hnone]|(Hin & Hm & Hc & Hmax)].
  - left. split; [done|]. intros k Hk. apply Hnone. by rewrite HP.
  - right. rewrite <- HP. split; [done|]. split; [done|]. split; [done|].
    intros k Hk. apply Hmax. by rewrite HP.
Qed.

End Matcher.

Lemma exportsBestMatch_importsBestMatch `{Host} (q : string) (u : URL) (b : Base)
    (keys : list string) (best : string * option string) :
  (exportsBestMatch q u b keys best).1 = importsBestMatch q keys best.
Proof.
  revert best. induction keys as [|k keys IH]; intros best; [done|].
  simpl. destruct (patternPrefixMatches k q); [|done].
  specialize (IH (patternBestStep q best k)).
  by destruct (exportsBestMatch q u b keys (patternBestStep q best k)).
Qed.

(** C1.  For every request [q] and every list of keys, the loop of the
    matcher (the same in [packageImportsResolve] and
    [packageExportsResolve]) selects, among the keys with exactly one [*]
    that match [q], one with the greatest prefix length and, among those,
    the greatest length; it selects a key whenever one matches and none
    otherwise, records the capture of the selected key, and its result
    does not depend on the order of the keys. *)
Theorem pattern_match_selection (q : string) (keys : list string) :
  let best := importsBestMatch q keys ("", None) in
  ((∃ k, k ∈ keys ∧ pattern_key_matches q k) →
   best.1 ∈ keys ∧ pattern_key_matches q best.1 ∧
   (∀ k, k ∈ keys → pattern_key_matches q k → ranks_above best.1 k) ∧
   best.2 = Some (capture q best.1) ∧
   chars q = before "*" (chars best.1) ++ chars (capture q best.1)
               ++ after "*" (chars best.1)) ∧
  ((∀ k, k ∈ keys → ¬ pattern_key_matches q k) → best = ("", None)) ∧
  (∀ keys', keys' ≡ₚ keys → importsBestMatch q keys' ("", None) = best) ∧
  (∀ (H : Host) (u : URL) (b : Base),
     (exportsBestMatch q u b keys ("", None)).1 = best).
Proof.
  intros best. pose proof (importsBestMatch_best q keys) as Hbest.
  fold best in Hbest. split; [|split; [|split]].
  - intros (k & Hk & Hm).
    destruct Hbest as [[_ Hnone]|(Hin & Hm' & Hc & Hmax)]; [by destruct (Hnone k)|].
    split; [done|]. split; [done|]. split; [done|]. split; [done|].
    by apply capture_spec.
  - intros Hnone. destruct Hbest as [[E _]|(Hin & Hm & _)]; [done|].
    by destruct (Hnone _ Hin).
  - intros keys' HP. apply (is_best_match_unique q keys); [|done].
    apply (is_best_match_perm q keys keys'); [done|].
    apply importsBestMatch_best.
  - intros. apply exportsBestMatch_importsBestMatch.
Qed.

(** ** The target resolver *)

Section TargetResolver.
Context {H : Host}.
Variable packageResolve_rec : string -> Base -> gset string -> W URL.
Variables (packageJSONUrl : URL) (subpath packageSubpath : string) (base : Base).
Variables (pattern internal isPathMap : bool) (conditions : gset string).

(** The resolution of a target in the context fixed above. *)
Local Abbreviation resolve := (fun t =>
  resolvePackageTarget packageResolve_rec packageJSONUrl t subpath packageSubpath
    base pattern internal isPathMap conditions).

Lemma resolvePackageTarget_list (l : list TargetValue) :
  resolve (TList l) =
  match l with
  | [] => ret RNull
  | _ => list_loop resolve l LUndefined
  end.
Proof.
  destruct l as [|t l]; [done|]. simpl.
  destruct (resolve t) as [[[u| |]|e|] w] eqn:E; try done.
  all: match goal with
       | |- context [log _ (?f _ _)] =>
           assert (forall items last, f items last = list_loop resolve items last)
             as Hloop
       end.
  all: try (intros items; induction items as [|t' items IH]; intros last;
            [done|]; simpl;
            destruct (resolve t') as [[[u'| |]|e'|] w']; try done;
            try (by rewrite IH);
            destruct (String.eqb _ _); [by rewrite IH|done]).
  all: by rewrite Hloop.
Qed.

Lemma resolvePackageTarget_map (m : list (string * TargetValue)) :
  resolve (TMap m) =
  if existsb isArrayIndex (map fst m)
  then throw (ERR_INVALID_PACKAGE_CONFIG
                "exports cannot contain numeric property keys.")
  else map_loop resolve conditions m.
Proof.
  simpl. destruct (existsb _ _); [done|].
  induction m as [|[key t] m IH]; [done|].
  simpl. destruct (_ || _); [|done]. by rewrite IH.
Qed.

(** The list loop moves over the elements it moves on from, remembering
    the last outcome that was not [Undefined]. *)
Lemma list_loop_moves_on (res : TargetValue -> W resolution)
    (pre rest : list TargetValue) (last : lastException_t) :
  Forall (moves_on res) pre ->
  (list_loop res (pre ++ rest) last).1 =
  (list_loop res rest (fold_left (remember res) pre last)).1.
Proof.
  revert last. induction pre as [|t pre IH]; intros last Hpre; [done|].
  apply Forall_cons in Hpre as [Ht Hpre]. simpl.
  unfold remember at 2. unfold moves_on in Ht.
  destruct (res t) as [o w]; simpl in *.
  destruct Ht as [-> | [-> | (e & -> & ->)]]; simpl; by rewrite IH.
Qed.

Lemma remember_undefined (res : TargetValue -> W resolution)
    (post : list TargetValue) (last : lastException_t) :
  Forall (fun x => (res x).1 = Ok RUndefined) post ->
  fold_left (remember res) post last = last.
Proof.
  revert last. induction post as [|t post IH]; intros last Hpost; [done|].
  apply Forall_cons in Hpost as [Ht Hpost]. simpl.
  unfold remember at 2. rewrite Ht. by apply IH.
Qed.

Lemma undefined_moves_on (res : TargetValue -> W resolution)
    (l : list TargetValue) :
  Forall (fun x => (res x).1 = Ok RUndefined) l -> Forall (moves_on res) l.
Proof. intros Hl. eapply Forall_impl; [exact Hl|]. intros x Hx. by left. Qed.

(** C2.  The target resolver on a list: the empty list yields [Null];
    otherwise the elements are tried in order: the first element that
    resolves to a URL returns it, an element that throws anything but
    [ERR_INVALID_PACKAGE_TARGET] propagates its error, and the loop moves
    on from [Undefined], [Null] and a thrown [ERR_INVALID_PACKAGE_TARGET];
    when the list is exhausted the result is [Undefined] if every element
    was [Undefined], [Null] if the last element that was not [Undefined]
    was [Null], and the error of that element, thrown again, if it threw
    [ERR_INVALID_PACKAGE_TARGET]. *)
Theorem list_target_resolution (l : list TargetValue) :
  (l = [] → resolve (TList l) = ret RNull) ∧
  (∀ pre t post u,
     l = pre ++ t :: post → Forall (moves_on resolve) pre →
     (resolve t).1 = Ok (RUrl u) →
     (resolve (TList l)).1 = Ok (RUrl u)) ∧
  (∀ pre t post e,
     l = pre ++ t :: post → Forall (moves_on resolve) pre →
     (resolve t).1 = Throw e → code e ≠ "ERR_INVALID_PACKAGE_TARGET" →
     (resolve (TList l)).1 = Throw e) ∧
  (l ≠ [] → Forall (fun x => (resolve x).1 = Ok RUndefined) l →
     (resolve (TList l)).1 = Ok RUndefined) ∧
  (∀ pre t post,
     l = pre ++ t :: post → Forall (moves_on resolve) pre →
     (resolve t).1 = Ok RNull →
     Forall (fun x => (resolve x).1 = Ok RUndefined) post →
     (resolve (TList l)).1 = Ok RNull) ∧
  (∀ pre t post e,
     l = pre ++ t :: post → Forall (moves_on resolve) pre →
     (resolve t).1 = Throw e → code e = "ERR_INVALID_PACKAGE_TARGET" →
     Forall (fun x => (resolve x).1 = Ok RUndefined) post →
     (resolve (TList l)).1 = Throw e).
Proof.
  assert (forall pre t post, l = pre ++ t :: post ->
            resolve (TList l) = list_loop resolve l LUndefined) as Hlist.
  { intros pre t post ->. rewrite resolvePackageTarget_list. by destruct pre. }
  split; [by intros ->|]. split; [|split; [|split; [|split]]].
  - intros pre t post u El Hpre Ht. rewrite (Hlist _ _ _ El), El.
    rewrite list_loop_moves_on by done. simpl.
    destruct (resolve t) as [o w]; simpl in *. by subst.
  - intros pre t post e El Hpre Ht Hcode. rewrite (Hlist _ _ _ El), El.
    rewrite list_loop_moves_on by done. simpl.
    destruct (resolve t) as [o w]; simpl in *. subst.
    apply String.eqb_neq in Hcode. by rewrite Hcode.
  - intros Hne Hall. destruct l as [|t l']; [done|].
    rewrite (Hlist [] t l' eq_refl).
    rewrite <- (app_nil_r (t :: l')).
    rewrite list_loop_moves_on by by apply undefined_moves_on.
    by rewrite remember_undefined.
  - intros pre t post El Hpre Ht Hpost. rewrite (Hlist _ _ _ El), El.
    rewrite list_loop_moves_on by done. simpl.
    destruct (resolve t) as [o w] eqn:E; simpl in *. subst o.
    rewrite log_fst, <- (app_nil_r post).
    rewrite list_loop_moves_on by by apply undefined_moves_on.
    by rewrite remember_undefined.
  - intros pre t post e El Hpre Ht Hcode Hpost. rewrite (Hlist _ _ _ El), El.
    rewrite list_loop_moves_on by done. simpl.
    destruct (resolve t) as [o w] eqn:E; simpl in *. subst o.
    rewrite Hcode. simpl. rewrite <- (app_nil_r post).
    rewrite list_loop_moves_on by by apply undefined_moves_on.
    by rewrite remember_undefined.
Qed.

Lemma applies_test (key : string) :
  String.eqb key "default" || bool_decide (key ∈ conditions) = true
  <-> applies conditions key.
Proof.
  unfold applies.
  rewrite orb_true_iff, String.eqb_eq, bool_decide_eq_true. done.
Qed.

(** An entry that the loop over the keys passes: its key is not tried, or
    its value resolves to [Undefined]. *)
Local Abbreviation passed := (fun res (kv : string * TargetValue) =>
  applies conditions kv.1 → (res kv.2 : W resolution).1 = Ok RUndefined).

Lemma map_loop_passed (res : TargetValue -> W resolution)
    (pre rest : list (string * TargetValue)) :
  Forall (passed res) pre ->
  (map_loop res conditions (pre ++ rest)).1 = (map_loop res conditions rest).1.
Proof.
  induction pre as [|[key t] pre IH]; intros Hpre; [done|].
  apply Forall_cons in Hpre as [Ht Hpre]. simpl in *.
  destruct (_ || _) eqn:E; [|by apply IH].
  apply applies_test in E. specialize (Ht E).
  unfold bind. destruct (res t) as [o w]; simpl in *. subst o.
  specialize (IH Hpre). by destruct (map_loop _ _ _), (map_loop _ _ rest).
Qed.

Lemma existsb_isArrayIndex (keys : list string) :
  existsb isArrayIndex keys = true <-> ∃ key, key ∈ keys ∧ isArrayIndex key = true.
Proof.
  rewrite existsb_exists. split; intros (key & Hin & Hk); exists key.
  - by rewrite list_elem_of_In.
  - by rewrite <- list_elem_of_In.
Qed.


End TargetResolver.

(** ** Exports resolution *)

Section Exports.
Context {H : Host}.
Variable packageResolve_rec : string -> Base -> gset string -> W URL.

(** [packageExportsResolve] once the sugar test has returned. *)
Lemma packageExportsResolve_normalized (packageJSONUrl : URL) (q : string)
    (packageConfig : PackageConfig.t) (base : Base) (conditions : gset string)
    (sugar : bool) :
  isConditionalExportsMainSugar (PackageConfig.exports packageConfig) = Ok sugar ->
  not_nullish (PackageConfig.exports packageConfig) = true ->
  let exports := normalized_exports sugar (PackageConfig.exports packageConfig) in
  packageExportsResolve packageResolve_rec packageJSONUrl q packageConfig base
    conditions =
  if ObjectPrototypeHasOwnProperty exports q &&
     negb (StringPrototypeIncludes q "*") &&
     negb (StringPrototypeEndsWith q "/") then
    bind (resolvePackageTarget packageResolve_rec packageJSONUrl
            (property exports q) "" q base false false false conditions)
      (fun resolveResult =>
         match resolveResult with
         | RUrl u => ret u
         | RNull | RUndefined => throw (exportsNotFound q)
         end)
  else
    let '((bestMatch, bestMatchSubpath), w) :=
      exportsBestMatch q packageJSONUrl base (map fst exports) ("", None) in
    log w
      (if negb (String.eqb bestMatch "") then
         bind (resolvePackageTarget packageResolve_rec packageJSONUrl
                 (property exports bestMatch) (assigned bestMatchSubpath)
                 bestMatch base true false (StringPrototypeEndsWith q "/")
                 conditions)
           (fun resolveResult =>
              match resolveResult with
              | RUrl u => ret u
              | RNull | RUndefined => throw (exportsNotFound q)
              end)
       else throw (exportsNotFound q)).
Proof.
  intros Hsugar Hnn. unfold packageExportsResolve, normalized_exports.
  rewrite Hsugar, bind_lift_ok.
  by destruct (PackageConfig.exports packageConfig).
Qed.

(** C5.  In exports resolution (the sugar test passed on an [exports]
    that is neither [null] nor [undefined]), when the request is an own
    key of the map, has no [*] and does not end in a slash, the target
    of that key is resolved with an empty capture, pattern mode off, and
    decides the result, whatever pattern keys also match: a URL is
    returned, [Null] and [Undefined] become [ERR_PACKAGE_PATH_NOT_EXPORTED];
    and when this literal case does not apply and no pattern key matches
    the request, [ERR_PACKAGE_PATH_NOT_EXPORTED] is thrown. *)
Theorem exports_literal_priority (packageJSONUrl : URL) (q : string)
    (packageConfig : PackageConfig.t) (base : Base) (conditions : gset string)
    (sugar : bool) :
  isConditionalExportsMainSugar (PackageConfig.exports packageConfig) = Ok sugar ->
  not_nullish (PackageConfig.exports packageConfig) = true ->
  let exports := normalized_exports sugar (PackageConfig.exports packageConfig) in
  let result :=
    packageExportsResolve packageResolve_rec packageJSONUrl q packageConfig base
      conditions in
  (q ∈ map fst exports → ("*"%char ∉ chars q) →
   ¬ chars "/" `suffix_of` chars q →
   result.1 =
   exported q (resolvePackageTarget packageResolve_rec packageJSONUrl
                 (property exports q) "" q base false false false conditions).1) ∧
  (¬ (q ∈ map fst exports ∧ ("*"%char ∉ chars q) ∧
      ¬ chars "/" `suffix_of` chars q) →
   (∀ k, k ∈ map fst exports → ¬ pattern_key_matches q k) →
   result.1 = Throw (ERR_PACKAGE_PATH_NOT_EXPORTED q)).
Proof.
  intros Hsugar Hnn exports result. subst result.
  rewrite (packageExportsResolve_normalized _ _ _ _ _ sugar) by done.
  fold exports.
  assert (ObjectPrototypeHasOwnProperty exports q &&
          negb (StringPrototypeIncludes q "*") &&
          negb (StringPrototypeEndsWith q "/") = true
          <-> q ∈ map fst exports ∧ ("*"%char ∉ chars q) ∧
              ¬ chars "/" `suffix_of` chars q) as Hcond.
  { unfold ObjectPrototypeHasOwnProperty, StringPrototypeIncludes,
      StringPrototypeEndsWith.
    rewrite !andb_true_iff, !negb_true_iff, !bool_decide_eq_false,
      bool_decide_eq_true. tauto. }
  split.
  - intros Hq Hstar Hslash.
    destruct (_ && _); [|by destruct Hcond as [_ Hc]; specialize (Hc (conj Hq (conj Hstar Hslash)))].
    rewrite bind_fst. unfold exported.
    by destruct (resolvePackageTarget _ _ _ _ _ _ _ _ _ _).1 as [[u| |]|e|].
  - intros Hlit Hnone.
    destruct (_ && _); [by destruct Hlit; apply Hcond|].
    pose proof (exportsBestMatch_importsBestMatch q packageJSONUrl base
                  (map fst exports) ("", None)) as E.
    destruct (exportsBestMatch _ _ _ _ _) as [[bestMatch bestMatchSubpath] w].
    simpl in E.
    destruct (importsBestMatch_best q (map fst exports)) as [[E' _]|(Hin & Hm & _)].
    + rewrite E' in E. by injection E as -> ->.
    + by destruct (Hnone _ Hin).
Qed.

End Exports.

(** ** The package boundary *)

Section Boundary.
Context {H : Host}.
Variable packageResolve_rec : string -> Base -> gset string -> W URL.

Lemma TargetValue_rect' (P : TargetValue -> Prop) :
  (forall s, P (TString s)) ->
  (forall l, Forall P l -> P (TList l)) ->
  (forall m, Forall (fun kv => P kv.2) m -> P (TMap m)) ->
  P TNull -> P TUndefined -> (forall b, P (TOther b)) ->
  forall t, P t.
Proof.
  intros HS HL HM HN HU HO. fix IH 1.
  intros [s|l|m| | |b]; [apply HS| | |apply HN|apply HU|apply HO].
  - apply HL. induction l as [|t l IHl]; constructor; [apply IH|apply IHl].
  - apply HM. induction m as [|[k t] m IHm]; constructor; [apply IH|apply IHm].
Qed.

(** The string case, when the target is resolved against the package:
    the check of line 360 and what is returned after it. *)
Lemma resolvePackageTargetString_checked (target subpath match_ : string)
    (packageJSONUrl : URL) (base : Base) (pattern internal isPathMap : bool)
    (conditions : gset string) (u : URL) :
  internal = false ∨ StringPrototypeStartsWith target "./" = true ->
  (resolvePackageTargetString packageResolve_rec target subpath match_
     packageJSONUrl base pattern internal isPathMap conditions).1 = Ok u ->
  ∃ resolved,
    URL_new target (Some (href packageJSONUrl)) = Some resolved ∧
    within_package packageJSONUrl resolved ∧
    (subpath = "" → u = resolved) ∧
    (subpath ≠ "" → pattern = true →
     URL_new (RegExpReplaceAllChar "*" (href resolved) subpath) None = Some u) ∧
    (subpath ≠ "" → pattern = false →
     URL_new subpath (Some (href resolved)) = Some u).
Proof.
  intros Hmode. unfold resolvePackageTargetString.
  destruct (_ && _ && _); [done|].
  destruct (negb (StringPrototypeStartsWith target "./")) eqn:Hsw.
  { apply negb_true_iff in Hsw. destruct Hmode as [->|Hsw']; [done|congruence]. }
  rewrite bind_fst.
  match goal with |- context [match ?c.1 with _ => _ end] =>
    destruct (c.1) as [[]|e|]; [|done..] end.
  rewrite bind_fst, new_URL_fst.
  destruct (URL_new target _) as [resolved|] eqn:Hres; [|done].
  rewrite bind_fst, new_URL_fst.
  destruct (URL_new "." _) as [packageDir|] eqn:Hdir; [|done].
  destruct (StringPrototypeStartsWith (pathname resolved) (pathname packageDir))
    eqn:Hin; [|done].
  simpl. intros Hu. exists resolved. split; [done|].
  split; [by exists packageDir|].
  destruct (String.eqb_spec subpath "") as [->|Hne].
  { simpl in Hu. injection Hu as ->. done. }
  split; [done|]. rewrite bind_fst in Hu.
  match type of Hu with context [match ?c.1 with _ => _ end] =>
    destruct (c.1) as [[]|e|]; [|done..] end.
  destruct pattern; rewrite new_URL_fst in Hu.
  - split; [|done]. intros _ _.
    destruct (URL_new (RegExpReplaceAllChar _ _ _) _); [by injection Hu as ->|done].
  - split; [done|]. intros _ _.
    destruct (URL_new subpath _); [by injection Hu as ->|done].
Qed.

(** The string case throws [ERR_INVALID_PACKAGE_TARGET] for a target
    that resolves outside the package. *)
Lemma resolvePackageTargetString_outside (target subpath match_ : string)
    (packageJSONUrl : URL) (base : Base) (pattern internal isPathMap : bool)
    (conditions : gset string) (resolved packageDir : URL) :
  internal = false ∨ StringPrototypeStartsWith target "./" = true ->
  URL_new target (Some (href packageJSONUrl)) = Some resolved ->
  URL_new "." (Some (href packageJSONUrl)) = Some packageDir ->
  StringPrototypeStartsWith (pathname resolved) (pathname packageDir) = false ->
  (resolvePackageTargetString packageResolve_rec target subpath match_
     packageJSONUrl base pattern internal isPathMap conditions).1
  = Throw (ERR_INVALID_PACKAGE_TARGET match_ (TString target) internal).
Proof.
  intros Hmode Hres Hdir Hout. unfold resolvePackageTargetString.
  destruct (_ && _ && _); [done|].
  destruct (negb (StringPrototypeStartsWith target "./")) eqn:Hsw.
  { apply negb_true_iff in Hsw. destruct Hmode as [->|Hsw']; [done|congruence]. }
  rewrite bind_fst.
  destruct (test true invalidSegmentRegEx _); [|].
  - destruct (negb (test true deprecatedInvalidSegmentRegEx _)); [|done].
    destruct (negb isPathMap); simpl;
      by rewrite bind_fst, new_URL_fst, Hres, bind_fst, new_URL_fst, Hdir, Hout.
  - simpl. by rewrite bind_fst, new_URL_fst, Hres, bind_fst, new_URL_fst, Hdir, Hout.
Qed.

Lemma list_loop_url (res : TargetValue -> W resolution)
    (items : list TargetValue) (last : lastException_t) (u : URL) :
  (list_loop res items last).1 = Ok (RUrl u) ->
  ∃ t, t ∈ items ∧ (res t).1 = Ok (RUrl u).
Proof.
  revert last. induction items as [|t items IH]; intros last.
  - by destruct last.
  - simpl. destruct (res t) as [[[u'| |]|e|] w] eqn:E; simpl.
    + intros [= ->]. exists t. split; [apply list_elem_of_here|by rewrite E].
    + intros (t' & Hin & Ht')%IH. exists t'. split; [by apply list_elem_of_further|done].
    + intros (t' & Hin & Ht')%IH. exists t'. split; [by apply list_elem_of_further|done].
    + destruct (String.eqb _ _); [|done]. simpl.
      intros (t' & Hin & Ht')%IH. exists t'. split; [by apply list_elem_of_further|done].
    + done.
Qed.

Lemma map_loop_url (res : TargetValue -> W resolution) (conditions : gset string)
    (entries : list (string * TargetValue)) (u : URL) :
  (map_loop res conditions entries).1 = Ok (RUrl u) ->
  ∃ kv, kv ∈ entries ∧ (res kv.2).1 = Ok (RUrl u).
Proof.
  induction entries as [|[key t] entries IH]; [done|]. simpl.
  assert ((map_loop res conditions entries).1 = Ok (RUrl u) ->
          ∃ kv, kv ∈ (key, t) :: entries ∧ (res kv.2).1 = Ok (RUrl u)) as Hrest.
  { intros (kv & Hin & Hkv)%IH. exists kv. split; [by apply list_elem_of_further|done]. }
  destruct (_ || _); [|done].
  rewrite bind_fst. destruct (res t).1 as [[u'| |]|e|] eqn:E; try done.
  simpl. intros [= ->]. exists (key, t). split; [apply list_elem_of_here|done].
Qed.

(** With an empty capture, what the target resolver returns in an
    [exports] resolution lies within the package. *)
Lemma resolvePackageTarget_within (packageJSONUrl : URL) (t : TargetValue) :
  forall (packageSubpath : string) (base : Base) (pattern isPathMap : bool)
         (conditions : gset string) (u : URL),
  (resolvePackageTarget packageResolve_rec packageJSONUrl t "" packageSubpath
     base pattern false isPathMap conditions).1 = Ok (RUrl u) ->
  within_package packageJSONUrl u.
Proof.
  induction t as [s|l IH|m IH| | |b] using TargetValue_rect';
    intros packageSubpath base pattern isPathMap conditions u; try done.
  - simpl. rewrite bind_fst.
    destruct (resolvePackageTargetString _ _ _ _ _ _ _ _ _ _).1 as [u'| |] eqn:E;
      [|done..].
    simpl. intros [= ->].
    apply resolvePackageTargetString_checked in E as (r & _ & Hin & Hr & _);
      [|by left].
    by rewrite (Hr eq_refl).
  - rewrite resolvePackageTarget_list. destruct l as [|t0 l0]; [done|].
    intros (t & Hin & Ht)%list_loop_url.
    rewrite Forall_forall in IH. by eapply IH.
  - rewrite resolvePackageTarget_map. destruct (existsb _ _); [done|].
    intros ([key t] & Hin & Ht)%map_loop_url.
    rewrite Forall_forall in IH. by eapply (IH (key, t)).
Qed.

(** Exports resolution never calls back into [packageResolve]: the
    callback is reached from an [imports] target only. *)
Lemma resolvePackageTarget_callback_free
    (packageResolve_rec' : string -> Base -> gset string -> W URL)
    (packageJSONUrl : URL) (t : TargetValue) :
  forall (subpath packageSubpath : string) (base : Base)
         (pattern isPathMap : bool) (conditions : gset string),
  resolvePackageTarget packageResolve_rec packageJSONUrl t subpath packageSubpath
    base pattern false isPathMap conditions
  = resolvePackageTarget packageResolve_rec' packageJSONUrl t subpath
      packageSubpath base pattern false isPathMap conditions.
Proof.
  induction t as [s|l IH|m IH| | |b] using TargetValue_rect';
    intros subpath packageSubpath base pattern isPathMap conditions; try done.
  - rewrite !resolvePackageTarget_list. destruct l as [|t0 l0]; [done|].
    generalize LUndefined. revert IH. generalize (t0 :: l0). clear t0 l0.
    intros l IH. induction l as [|t l IHl]; intros last; [done|].
    apply Forall_cons in IH as [Ht Hl]. simpl. rewrite Ht.
    destruct (resolvePackageTarget packageResolve_rec' _ _ _ _ _ _ _ _ _)
      as [[[u| |]|e|] w]; try done; by rewrite IHl.
  - rewrite !resolvePackageTarget_map. destruct (existsb _ _); [done|].
    induction m as [|[key t] m IHm]; [done|].
    apply Forall_cons in IH as [Ht Hm]. simpl in *.
    destruct (_ || _); [|by apply IHm]. rewrite Ht. by rewrite IHm.
Qed.

Lemma packageExportsResolve_callback_free
    (packageResolve_rec' : string -> Base -> gset string -> W URL)
    (packageJSONUrl : URL) (q : string) (packageConfig : PackageConfig.t)
    (base : Base) (conditions : gset string) :
  packageExportsResolve packageResolve_rec packageJSONUrl q packageConfig base
    conditions
  = packageExportsResolve packageResolve_rec' packageJSONUrl q packageConfig base
      conditions.
Proof.
  unfold packageExportsResolve.
  destruct (isConditionalExportsMainSugar _) as [sugar|e|]; [|done..].
  rewrite !bind_lift_ok.
  destruct (PackageConfig.exports packageConfig); try done.
  all: destruct (_ && _ && _);
    [by rewrite (resolvePackageTarget_callback_free packageResolve_rec')|].
  all: destruct (exportsBestMatch _ _ _ _ _) as [[bestMatch bestMatchSubpath] w].
  all: destruct (negb _); [|done].
  all: by rewrite (resolvePackageTarget_callback_free packageResolve_rec').
Qed.

(** C4, as the code has it.  A string target that is resolved against
    the [package.json] URL (always in exports resolution, in imports
    resolution when it starts with [./]) resolves to a URL whose pathname
    starts with the pathname of the directory of the [package.json], and
    [ERR_INVALID_PACKAGE_TARGET] is thrown otherwise; with an empty
    capture that URL is the result, so every URL that exports resolution
    returns for a literal key lies within the package directory.  (After
    the substitution of a capture the URL is parsed again from the
    substituted string and is not checked again.) *)
Theorem target_within_package (packageJSONUrl : URL) :
  (∀ target subpath match_ base pattern internal isPathMap conditions
     resolved packageDir,
     internal = false ∨ StringPrototypeStartsWith target "./" = true →
     URL_new target (Some (href packageJSONUrl)) = Some resolved →
     URL_new "." (Some (href packageJSONUrl)) = Some packageDir →
     StringPrototypeStartsWith (pathname resolved) (pathname packageDir) = false →
     (resolvePackageTargetString packageResolve_rec target subpath match_
        packageJSONUrl base pattern internal isPathMap conditions).1
     = Throw (ERR_INVALID_PACKAGE_TARGET match_ (TString target) internal)) ∧
  (∀ target subpath match_ base pattern internal isPathMap conditions u,
     internal = false ∨ StringPrototypeStartsWith target "./" = true →
     (resolvePackageTargetString packageResolve_rec target subpath match_
        packageJSONUrl base pattern internal isPathMap conditions).1 = Ok u →
     ∃ resolved,
       URL_new target (Some (href packageJSONUrl)) = Some resolved ∧
       within_package packageJSONUrl resolved ∧
       (subpath = "" → u = resolved)) ∧
  (∀ t packageSubpath base pattern isPathMap conditions u,
     (resolvePackageTarget packageResolve_rec packageJSONUrl t "" packageSubpath
        base pattern false isPathMap conditions).1 = Ok (RUrl u) →
     within_package packageJSONUrl u) ∧
  (∀ q packageConfig base conditions sugar u,
     isConditionalExportsMainSugar (PackageConfig.exports packageConfig) = Ok sugar →
     not_nullish (PackageConfig.exports packageConfig) = true →
     q ∈ map fst (normalized_exports sugar (PackageConfig.exports packageConfig)) →
     ("*"%char ∉ chars q) → ¬ chars "/" `suffix_of` chars q →
     (packageExportsResolve packageResolve_rec packageJSONUrl q packageConfig
        base conditions).1 = Ok u →
     within_package packageJSONUrl u).
Proof.
  split; [|split; [|split]].
  - intros. by eapply resolvePackageTargetString_outside.
  - intros * Hmode Hu.
    apply resolvePackageTargetString_checked in Hu as (r & ? & ? & ? & _); [|done].
    by exists r.
  - intros. by eapply resolvePackageTarget_within.
  - intros q packageConfig base conditions sugar u Hsugar Hnn Hq Hstar Hslash.
    rewrite (packageExportsResolve_normalized _ _ _ _ _ _ sugar) by done.
    assert (ObjectPrototypeHasOwnProperty
              (normalized_exports sugar (PackageConfig.exports packageConfig)) q &&
            negb (StringPrototypeIncludes q "*") &&
            negb (StringPrototypeEndsWith q "/") = true) as ->.
    { unfold ObjectPrototypeHasOwnProperty, StringPrototypeIncludes,
        StringPrototypeEndsWith.
      rewrite !andb_true_iff, !negb_true_iff, !bool_decide_eq_false,
        bool_decide_eq_true. done. }
    rewrite bind_fst.
    destruct (resolvePackageTarget _ _ _ _ _ _ _ _ _ _).1 as [[u'| |]|e|] eqn:E;
      try done.
    simpl. intros [= ->]. by eapply resolvePackageTarget_within.
Qed.

End Boundary.

(** ** The walk up the directories *)

Section WalkProperties.
Context {H : Host}.
Variables (packageName : string) (isScoped : bool).

Lemma packageResolve_loop_walk (n : nat) :
  forall u0 u,
  (forall c, candidate packageName isScoped u0 c ->
             candidate_exists (fileURLToPath c) = false ->
             steps_toward_root packageName isScoped c) ->
  candidate packageName isScoped u0 u ->
  (length (chars (fileURLToPath u)) <= n)%nat ->
  ∃ r, walk packageName isScoped u r ∧
    forall fuel, (n < fuel)%nat ->
      packageResolve_loop fuel packageName isScoped u (fileURLToPath u) = (r, []).
Proof.
  induction n as [|n IH]; intros u0 u Hsteps Hcand Hlen.
  all: destruct (candidate_exists (fileURLToPath u)) eqn:Hex.
  all: try (exists (Ok (u, fileURLToPath u)); split; [by constructor|];
            intros [|fuel] Hfuel; [lia|]; simpl;
            unfold candidate_exists in Hex; by rewrite Hex).
  all: destruct (Hsteps u Hcand Hex) as (u' & Hup & Hpath).
  all: assert (forall fuel,
         packageResolve_loop (S fuel) packageName isScoped u (fileURLToPath u) =
         if negb (len (fileURLToPath u') =? len (fileURLToPath u))
         then packageResolve_loop fuel packageName isScoped u' (fileURLToPath u')
         else throw (ERR_MODULE_NOT_FOUND packageName)) as Hstep
       by (intros fuel; simpl; unfold candidate_exists in Hex; rewrite Hex; simpl;
           unfold step_up in Hup; unfold new_URL; rewrite Hup, bind_ret; done).
  - destruct Hpath as [Hsame|Hshort]; [|unfold len in Hshort; lia].
    exists (Throw (ERR_MODULE_NOT_FOUND packageName)).
    split; [by eapply walk_root|].
    intros [|fuel] Hfuel; [lia|]. rewrite Hstep, Hsame, Z.eqb_refl. done.
  - destruct Hpath as [Hsame|Hshort].
    + exists (Throw (ERR_MODULE_NOT_FOUND packageName)).
      split; [by eapply walk_root|].
      intros [|fuel] Hfuel; [lia|]. rewrite Hstep, Hsame, Z.eqb_refl. done.
    + destruct (IH u0 u' Hsteps) as (r & Hwalk & Hloop).
      { by eapply candidate_next. }
      { unfold len in Hshort. lia. }
      exists r. split.
      * eapply walk_up; [done..| |done]. intros E. rewrite E in Hshort. lia.
      * intros [|fuel] Hfuel; [lia|]. rewrite Hstep.
        destruct (Z.eqb_spec (len (fileURLToPath u')) (len (fileURLToPath u)));
          [lia|]. simpl. apply Hloop. lia.
Qed.

Lemma walk_deterministic (u : URL) (r r' : outcome (URL * string)) :
  walk packageName isScoped u r -> walk packageName isScoped u r' -> r = r'.
Proof.
  intros Hw. revert r'. induction Hw as [u Hex|u u' Hex Hup Hsame|u u' r Hex Hup Hne Hw IH];
    intros r' Hw'; inversion Hw'; subst; try congruence.
  apply IH. congruence.
Qed.

(** C6.  The loop of [packageResolve] over the [node_modules]
    directories, from the candidate [u0]: when the directory of a
    candidate does not exist the candidate is rewritten three directories
    up (four for a scoped name) and tried again, and the loop ends with
    [ERR_MODULE_NOT_FOUND] exactly when such a step leaves the path
    unchanged.  Provided each step up leaves the path unchanged or makes
    it shorter (which is how URL resolution of [..] behaves on a path),
    the loop terminates: with fuel beyond the length of the first path it
    returns the one result of the walk and notifies nothing. *)
Theorem package_walk_terminates (u0 : URL) :
  (forall c, candidate packageName isScoped u0 c ->
             candidate_exists (fileURLToPath c) = false ->
             steps_toward_root packageName isScoped c) ->
  ∃ r, walk packageName isScoped u0 r ∧
    (forall r', walk packageName isScoped u0 r' -> r' = r) ∧
    forall fuel, (length (chars (fileURLToPath u0)) < fuel)%nat ->
      packageResolve_loop fuel packageName isScoped u0 (fileURLToPath u0) = (r, []).
Proof.
  intros Hsteps.
  destruct (packageResolve_loop_walk _ u0 u0 Hsteps (candidate_first _ _ _)
              (le_n _)) as (r & Hwalk & Hloop).
  exists r. split; [done|]. split; [|done].
  intros r' Hr'. by eapply walk_deterministic.
Qed.

End WalkProperties.

(** ** Finalization *)

Section Finalization.
Context {H : Host}.

Lemma Slice_last_slash (path : string) :
  StringPrototypeEndsWith path "/" = true ->
  StringPrototypeSlice path (-1) None = "/".
Proof.
  intros [pre Hpre]%EndsWith_spec. unfold StringPrototypeSlice, len, rel_index.
  rewrite Hpre, length_app. simpl.
  replace (Z.to_nat (Z.max (Z.of_nat (length pre + 1) + -1) 0)) with (length pre) by lia.
  rewrite drop_app_length.
  by replace (Z.to_nat (Z.of_nat (length pre + 1) -
                        Z.max (Z.of_nat (length pre + 1) + -1) 0)) with 1%nat by lia.
Qed.

(** The path that is reported when the file is missing. *)
Local Abbreviation reported := (fun resolved : URL =>
  if String.eqb (fileURLToPath resolved) "" then pathname resolved
  else fileURLToPath resolved).

(** The argument of the stat probe. *)
Local Abbreviation probed := (fun path : string =>
  toNamespacedPath
    (if StringPrototypeEndsWith path "/" then StringPrototypeSlice path (-1) None
     else path)).

(** The cases of finalization once the test on encoded separators has
    passed. *)
Lemma finalizeResolution_probe (resolved : URL) (base : Base)
    (preserveSymlinks : bool) :
  test true encodedSepRegEx (pathname resolved) = false ->
  let result := finalizeResolution resolved base preserveSymlinks in
  let stats := internalModuleStat (probed (fileURLToPath resolved)) in
  (stats = 1 →
   result = throw (ERR_UNSUPPORTED_DIR_IMPORT (fileURLToPath resolved))) ∧
  (stats ≠ 1 → stats ≠ 0 →
   result = (Throw (ERR_MODULE_NOT_FOUND (reported resolved)),
             if WATCH_REPORT_DEPENDENCIES && process_send
             then [ProcessSend (reported resolved)] else [])) ∧
  (∀ u, result.1 = Ok u → stats = 0) ∧
  (stats = 0 → preserveSymlinks = true → result = ret resolved).
Proof.
  intros Hsep result stats. subst result. unfold finalizeResolution.
  rewrite Hsep. fold stats. split; [|split; [|split]].
  - intros E. by rewrite E.
  - intros E1%Z.eqb_neq E0%Z.eqb_neq. rewrite E1, E0. simpl.
    by destruct (_ && _).
  - intros u. destruct (Z.eqb_spec stats 1); [done|].
    destruct (Z.eqb_spec stats 0); [done|]. simpl.
    by destruct (_ && _).
  - intros E ->. by rewrite E.
Qed.



End Finalization.

(** ** The entry points *)

Section Entry.
Context {H : Host}.

Lemma parse_specifier_absolute (specifier : string) (parent : option URL)
    (parsed : URL) :
  shouldBeTreatedAsRelativeOrAbsolutePath specifier = false ->
  URL_new specifier None = Some parsed ->
  parse_specifier specifier parent =
  if String.eqb (protocol parsed) "data:" ||
     (experimentalNetworkImports &&
      (String.eqb (protocol parsed) "https:" || String.eqb (protocol parsed) "http:"))
  then inl {| url := href parsed; format := None |}
  else inr (Some parsed).
Proof. intros Hrel Hparsed. unfold parse_specifier. by rewrite Hrel, Hparsed. Qed.

(** [defaultResolve] up to the test of the parsed specifier. *)
Lemma defaultResolve_parsed (fuel : nat) (specifier : string) (context : Context_t) :
  throwIfInvalidParentURL (parentURL context) = Ok tt ->
  policy_redirect specifier context = ret None ->
  forall r,
  parse_specifier specifier (parsedParentURL (parentURL context)) = inl r ->
  defaultResolve fuel specifier context = ret r.
Proof.
  intros Hvalid Hpolicy r Hparse. unfold defaultResolve.
  by rewrite Hvalid, bind_lift_ok, Hpolicy, bind_ret, Hparse.
Qed.


(** C9 at the empty specifier: it is not taken for a path, and
    [parsePackageName] accepts it as the package name [""] with the
    subpath ["."], so that resolution goes on as for a bare specifier
    (the test [specifier.length === 0] sits in the branch of a specifier
    that starts with [@], where it cannot hold). *)
Theorem empty_specifier_is_parsed_as_package :
  shouldBeTreatedAsRelativeOrAbsolutePath "" = false ∧
  parsePackageName "" = Ok ("", ".", false) ∧
  (∀ fuel base conditions,
     base_protocol base ≠ Some "http:" → base_protocol base ≠ Some "https:" →
     URL_new "" None = None →
     moduleResolve_resolved fuel "" base conditions
     = bind (packageResolve fuel "" base conditions) (fun u => ret (Some u))).
Proof.
  split; [done|]. split; [by vm_compute|].
  intros fuel base conditions H1 H2 Hurl. unfold moduleResolve_resolved.
  rewrite Hurl. simpl.
  by rewrite !bool_decide_eq_false_2 by done.
Qed.

End Entry.

(** ** The resolver at work

    The scenarios of the specification, the witnesses of the theorems
    above and the inputs on which the resolver departs from a claim, on
    the installation [Demo]. *)

Section AtWork.
Local Abbreviation conds := ({[ "node"; "import" ]} : gset string).
Local Abbreviation from_main := (BString (H := Demo.host) Demo.parent).
Local Abbreviation resolver := (packageResolve (H := Demo.host) 5).

Example resolve_literal_key :
  Demo.resolve_from_main "pkg/x" = inl "file:///app/node_modules/pkg/lib/x.js".
Proof. vm_compute. reflexivity. Qed.

Example resolve_pattern_key :
  Demo.resolve_from_main "pkg/a/b.js" = inl "file:///app/node_modules/pkg/src/a/b.js".
Proof. vm_compute. reflexivity. Qed.

Example resolve_condition :
  Demo.resolve_from_main "pkg" = inl "file:///app/node_modules/pkg/n.js".
Proof. vm_compute. reflexivity. Qed.

Example resolve_alternatives :
  Demo.resolve_from_main "pkg/alt" = inl "file:///app/node_modules/pkg/y.js".
Proof. vm_compute. reflexivity. Qed.

Example resolve_escaping_target :
  Demo.resolve_from_main "pkg/esc" = inr "ERR_INVALID_PACKAGE_TARGET".
Proof. vm_compute. reflexivity. Qed.

Example resolve_encoded_separator :
  Demo.resolve_from_main "./a%2Fb.js" = inr "ERR_INVALID_MODULE_SPECIFIER".
Proof. vm_compute. reflexivity. Qed.

Example resolve_builtin : Demo.resolve_from_main "node:fs" = inl "node:fs".
Proof. vm_compute. reflexivity. Qed.

Example resolve_missing_package :
  Demo.resolve_from_main "pkg2" = inr "ERR_MODULE_NOT_FOUND".
Proof. vm_compute. reflexivity. Qed.

(** The empty specifier is looked up as a package and not found. *)
Example resolve_empty_specifier :
  Demo.resolve_from_main "" = inr "ERR_MODULE_NOT_FOUND".
Proof. vm_compute. reflexivity. Qed.

Example isArrayIndex_keys :
  map (isArrayIndex (H := Demo.host)) ["0"; "42"; "042"; "import"; "default"]
  = [true; true; false; false; false].
Proof. vm_compute. reflexivity. Qed.

(** The selection among two pattern keys that both match. *)
Example best_of_two_patterns :
  importsBestMatch "./a/b.js" ["./*"; "./*.js"] ("", None)
  = ("./*.js", Some "a/b").
Proof. vm_compute. reflexivity. Qed.

(** C4, the claim as stated fails: the request [./..?x] matches the key
    [./*]; the capture [..?x] has no invalid segment, and the URL parsed
    from the substituted string is the parent of the package directory. *)
Lemma substituted_capture_leaves_package :
  ∃ u : URL (Host := Demo.host),
    (packageExportsResolve (H := Demo.host) resolver Demo.pkg_url "./..?x"
       Demo.pkg_config from_main conds).1 = Ok u ∧
    (packageResolve (H := Demo.host) 5 "pkg/..?x" from_main conds).1 = Ok u ∧
    protocol (Host := Demo.host) u = "file:" ∧
    pathname (Host := Demo.host) u = "/app/node_modules/" ∧
    ¬ within_package (H := Demo.host) Demo.pkg_url u.
Proof.
  eexists. split; [vm_compute; reflexivity|]. split; [vm_compute; reflexivity|].
  split; [vm_compute; reflexivity|]. split; [vm_compute; reflexivity|].
  intros (packageDir & Hdir & Hin). vm_compute in Hdir.
  injection Hdir as <-. vm_compute in Hin. discriminate.
Qed.

(** C5 on the package of the installation: the key [./x] is taken
    although the pattern [./*] matches the request too. *)
Lemma exports_literal_priority_witness :
  isConditionalExportsMainSugar (PackageConfig.exports Demo.pkg_config) = Ok false ∧
  not_nullish (PackageConfig.exports Demo.pkg_config) = true ∧
  pattern_key_matches "./x" "./*" ∧
  (packageExportsResolve (H := Demo.host) resolver Demo.pkg_url "./x"
     Demo.pkg_config from_main conds).1
  = exported (H := Demo.host) "./x"
      (resolvePackageTarget (H := Demo.host) resolver Demo.pkg_url
         (TString "./lib/x.js") "" "./x" from_main false false false conds).1.
Proof.
  assert (isConditionalExportsMainSugar (PackageConfig.exports Demo.pkg_config)
          = Ok false) as Hsugar by (vm_compute; reflexivity).
  assert (not_nullish (PackageConfig.exports Demo.pkg_config) = true) as Hnn
    by (vm_compute; reflexivity).
  split; [exact Hsugar|]. split; [exact Hnn|].
  split; [apply key_test_spec; vm_compute; reflexivity|].
  refine (proj1 (exports_literal_priority (H := Demo.host) resolver Demo.pkg_url
                   "./x" Demo.pkg_config from_main conds false Hsugar Hnn) _ _ _);
    compute_done.
Defined.

(** C6 on the installation: the candidates for [pkg2] from [/app/sub]. *)
Lemma demo_candidates (c : URL (Host := Demo.host)) :
  candidate (H := Demo.host) "pkg2" false Demo.walk_start c ->
  c = Demo.walk_start ∨ c = Demo.walk_second ∨ c = Demo.walk_last.
Proof.
  induction 1 as [|c c' _ IH _ Hup]; [by left|].
  destruct IH as [->|[->| ->]]; vm_compute in Hup; injection Hup as <-.
  - right. by left.
  - right. by right.
  - right. by right.
Qed.

Lemma demo_steps (c : URL (Host := Demo.host)) :
  candidate (H := Demo.host) "pkg2" false Demo.walk_start c ->
  candidate_exists (H := Demo.host) (fileURLToPath (Host := Demo.host) c) = false ->
  steps_toward_root (H := Demo.host) "pkg2" false c.
Proof.
  intros [->|[->| ->]]%demo_candidates _.
  - exists Demo.walk_second. split; [vm_compute; reflexivity|].
    right. vm_compute. reflexivity.
  - exists Demo.walk_last. split; [vm_compute; reflexivity|].
    right. vm_compute. reflexivity.
  - exists Demo.walk_last. split; [vm_compute; reflexivity|].
    left. vm_compute. reflexivity.
Qed.

Lemma package_walk_terminates_witness :
  (∀ c, candidate (H := Demo.host) "pkg2" false Demo.walk_start c →
        candidate_exists (H := Demo.host) (fileURLToPath (Host := Demo.host) c)
        = false →
        steps_toward_root (H := Demo.host) "pkg2" false c) ∧
  ∃ r, walk (H := Demo.host) "pkg2" false Demo.walk_start r ∧
    (∀ r', walk (H := Demo.host) "pkg2" false Demo.walk_start r' → r' = r) ∧
    ∀ fuel,
      (length (chars (fileURLToPath (Host := Demo.host) Demo.walk_start)) < fuel)%nat →
      packageResolve_loop (H := Demo.host) fuel "pkg2" false Demo.walk_start
        (fileURLToPath (Host := Demo.host) Demo.walk_start) = (r, []).
Proof.
  split; [exact demo_steps|].
  exact (package_walk_terminates (H := Demo.host) "pkg2" false Demo.walk_start
           demo_steps).
Defined.

(** A step up is four directories for a scoped name. *)
Example step_up_scoped :
  step_up (H := Demo.host) "@s/p" true
    (pathToFileURL (Host := Demo.host) "/app/sub/node_modules/@s/p/package.json")
  = Some (pathToFileURL (Host := Demo.host) "/app/node_modules/@s/p/package.json").
Proof. vm_compute. reflexivity. Qed.

(** The walk for [pkg2] ends at the root. *)
Example walk_reaches_root :
  (packageResolve_loop (H := Demo.host) 40 "pkg2" false Demo.walk_start
     (fileURLToPath (Host := Demo.host) Demo.walk_start)).1
  = Throw (ERR_MODULE_NOT_FOUND "pkg2").
Proof. vm_compute. reflexivity. Qed.




End AtWork.

(** ** The reference host on plain paths

    On the reference host the step up of the walk behaves as the walk
    needs: for a package name and directories made of plain segments it
    removes the last directory, and at the root it changes nothing. *)

Section PlainPaths.
Import Mini.

Lemma chars_app (a b : string) : chars (a +:+ b) = chars a ++ chars b.
Proof. induction a as [|c a IH]; [done|]. simpl. by rewrite <- IH. Qed.

Lemma plain_char_facts (c : ascii) :
  plain_char c = true ->
  is_slash true c = false ∧ is_path_end c = false ∧ in_path_set c = false ∧
  is_trimmed c = false ∧ is_tab_or_newline c = false ∧ c ≠ "%"%char.
Proof.
  destruct c as [[] [] [] [] [] [] [] []]; vm_compute; intros Hc;
    try discriminate Hc; repeat split; try reflexivity; intros E; discriminate E.
Qed.

Lemma path_char_facts (c : ascii) :
  path_char c ->
  is_path_end c = false ∧ in_path_set c = false ∧
  is_trimmed c = false ∧ is_tab_or_newline c = false ∧ c ≠ "%"%char.
Proof.
  intros [Hc%plain_char_facts| ->]; [tauto|].
  repeat split; try reflexivity. intros E; discriminate E.
Qed.

Lemma break_at_none (p : ascii -> bool) (l : list ascii) :
  Forall (fun c => p c = false) l -> break_at p l = (l, []).
Proof.
  induction 1 as [|c l Hc _ IH]; [done|]. simpl. by rewrite Hc, IH.
Qed.

Lemma drop_while_none (p : ascii -> bool) (l : list ascii) :
  Forall (fun c => p c = false) l -> drop_while p l = l.
Proof. destruct 1 as [|c l Hc _]; [done|]. simpl. by rewrite Hc. Qed.

Lemma clean_none (l : list ascii) :
  Forall (fun c => is_trimmed c = false) l ->
  Forall (fun c => is_tab_or_newline c = false) l ->
  clean l = l.
Proof.
  intros Ht Hn. unfold clean.
  rewrite (drop_while_none _ l Ht).
  rewrite drop_while_none by (by apply Forall_rev).
  rewrite rev_involutive.
  induction Hn as [|c l Hc _ IH]; [done|].
  rewrite filter_cons, decide_True by done. f_equal. apply IH.
  by inversion Ht.
Qed.

Lemma split_on_cons (p : ascii -> bool) (l : list ascii) :
  ∃ h r, split_on p l = h :: r.
Proof.
  induction l as [|c l (h & r & IH)]; simpl; [by eexists _, _|].
  rewrite IH. destruct (p c); by eexists _, _.
Qed.

(** Splitting a run without separator in front of the rest. *)
Lemma split_on_prefix (p : ascii -> bool) (s t : list ascii) (h : list ascii)
    (r : list (list ascii)) :
  Forall (fun c => p c = false) s ->
  split_on p t = h :: r ->
  split_on p (s ++ t) = (s ++ h) :: r.
Proof.
  intros Hs Ht. induction Hs as [|c s Hc _ IH]; [done|].
  simpl. by rewrite Hc, IH.
Qed.

Lemma split_on_path_chars (segments : list (list ascii)) :
  Forall (Forall (fun c => is_slash true c = false)) segments ->
  split_on (is_slash true) (path_chars segments) = [] :: segments.
Proof.
  induction 1 as [|s segments Hs _ IH]; [done|].
  unfold path_chars in *. simpl.
  rewrite (split_on_prefix _ _ _ _ _ Hs IH). by rewrite app_nil_r.
Qed.

Lemma path_chars_app (a b : list (list ascii)) :
  path_chars (a ++ b) = path_chars a ++ path_chars b.
Proof. unfold path_chars. by rewrite map_app, concat_app. Qed.

Lemma chars_concat (l : list string) :
  chars (String.concat "" l) = concat (map chars l).
Proof.
  induction l as [|s l IH]; [done|].
  destruct l as [|s' l]; [simpl; by rewrite app_nil_r|].
  change (chars (s +:+ "" +:+ String.concat "" (s' :: l)) =
          chars s ++ concat (map chars (s' :: l))).
  by rewrite !chars_app, IH.
Qed.

Lemma chars_pathname (segments : list string) :
  chars (pathname (file_url segments)) = path_chars (map chars segments).
Proof.
  unfold pathname, path_chars. simpl. rewrite chars_concat, !map_map.
  f_equal.
Qed.

Lemma chars_href (segments : list string) :
  chars (href (file_url segments)) =
  chars "file://" ++ path_chars (map chars segments).
Proof.
  unfold href, protocol. simpl scheme. simpl host. simpl query. simpl fragment.
  rewrite !chars_app, chars_pathname. simpl. by rewrite app_nil_r.
Qed.

Lemma plain_segment_chars (s : string) :
  plain_segment s = true ->
  Forall (fun c => plain_char c = true) (chars s) ∧
  is_single_dot (chars s) = false ∧ is_double_dot (chars s) = false.
Proof.
  unfold plain_segment, plain_chars.
  intros [[Hc Hs%negb_true_iff]%andb_true_iff Hd%negb_true_iff]%andb_true_iff.
  split; [|done]. apply Forall_forall. intros c Hin.
  rewrite forallb_forall in Hc. apply Hc. by apply list_elem_of_In.
Qed.

Lemma path_chars_plain (segments : list string) :
  Forall (fun s => plain_segment s = true) segments ->
  Forall path_char (path_chars (map chars segments)).
Proof.
  induction 1 as [|s segments Hs _ IH]; [constructor|].
  unfold path_chars in *. simpl. constructor; [by right|].
  apply Forall_app. split; [|done].
  apply plain_segment_chars in Hs as [Hs _].
  eapply Forall_impl; [exact Hs|]. intros c Hc. by left.
Qed.

Lemma percent_encode_none (set : ascii -> bool) (l : list ascii) :
  Forall (fun c => set c = false) l -> percent_encode set l = l.
Proof.
  unfold percent_encode. induction 1 as [|c l Hc _ IH]; [done|].
  simpl. by rewrite Hc, IH.
Qed.

Lemma percent_decode_none (l : list ascii) :
  Forall (fun c => c ≠ "%"%char) l -> percent_decode l = l.
Proof.
  induction 1 as [|c l Hc Hl IH]; [done|].
  destruct l as [|a [|b t]]; simpl in *; try by rewrite ?IH.
  destruct (hex_value a), (hex_value b); rewrite ?bool_decide_eq_false_2 by done;
    by rewrite IH.
Qed.

(** The path state appends plain segments as they are. *)
Lemma path_state_plain (segments : list string) :
  Forall (fun s => plain_segment s = true) segments ->
  forall p, path_state p (map chars segments) = p ++ segments.
Proof.
  induction 1 as [|s segments Hs _ IH]; intros p; simpl; [by rewrite app_nil_r|].
  apply plain_segment_chars in Hs as (Hc & -> & ->).
  rewrite IH, percent_encode_none.
  - unfold str. rewrite string_of_list_ascii_of_string. by rewrite <- app_assoc.
  - eapply Forall_impl; [exact Hc|]. intros c Hp. apply plain_char_facts in Hp. tauto.
Qed.

(** A [..] segment that is not the last removes the last segment. *)
Lemma path_state_up (n : nat) (segments : list (list ascii)) (p : list string) :
  segments ≠ [] ->
  path_state p (replicate n (chars "..") ++ segments) =
  path_state (Nat.iter n shorten p) segments.
Proof.
  intros Hne. revert p. induction n as [|n IH]; intros p; [done|].
  cbn [replicate app path_state].
  replace (is_double_dot (chars "..")) with true by done.
  rewrite bool_decide_eq_false_2 by (destruct n, segments; done).
  by rewrite IH, Nat.iter_succ_r.
Qed.

Lemma path_char_all (l : list ascii) :
  Forall path_char l ->
  Forall (fun c => is_path_end c = false) l ∧
  Forall (fun c => is_trimmed c = false) l ∧
  Forall (fun c => is_tab_or_newline c = false) l ∧
  Forall (fun c => c ≠ "%"%char) l.
Proof.
  intros Hl. repeat split; (eapply Forall_impl; [exact Hl|]);
    intros c Hc%path_char_facts; tauto.
Qed.

Lemma take_scheme_file (l : list ascii) :
  take_scheme (chars "file://" ++ l) = Some ("file", "/"%char :: "/"%char :: l).
Proof. vm_compute. reflexivity. Qed.

Lemma plain_no_slash (segments : list string) :
  Forall (fun s => plain_segment s = true) segments ->
  Forall (Forall (fun c => is_slash true c = false)) (map chars segments).
Proof.
  intros Hs. apply Forall_map. eapply Forall_impl; [exact Hs|].
  intros s [Hc _]%plain_segment_chars. eapply Forall_impl; [exact Hc|].
  intros c Hp%plain_char_facts. tauto.
Qed.

Lemma split_on_plain (s : string) (segments : list string) :
  Forall (fun s => plain_segment s = true) (s :: segments) ->
  split_on (is_slash true) (chars s ++ path_chars (map chars segments)) =
  map chars (s :: segments).
Proof.
  intros [Hs Hsegments]%Forall_cons_1.
  apply plain_segment_chars in Hs as [Hs _]. apply plain_no_slash in Hsegments.
  rewrite (split_on_prefix _ (chars s) _ _ _) by
    (first [apply split_on_path_chars, Hsegments
           |eapply Forall_impl; [exact Hs|]; intros c Hp%plain_char_facts; tauto]).
  by rewrite app_nil_r.
Qed.

(** The path state of a [file] URL on plain segments, the first slash
    consumed. *)
Lemma parse_path_plain (p : list string) (s : string) (segments : list string) :
  Forall (fun s => plain_segment s = true) (s :: segments) ->
  parse_path "file" (Some "") true p (chars s ++ path_chars (map chars segments)) =
  file_url (p ++ s :: segments).
Proof.
  intros Hs. unfold parse_path.
  pose proof (path_chars_plain _ Hs) as Hp.
  change (path_chars (map chars (s :: segments))) with
    ("/"%char :: chars s ++ path_chars (map chars segments)) in Hp.
  apply Forall_cons_1 in Hp as [_ Hp].
  apply path_char_all in Hp as (Hend & _).
  rewrite (break_at_none _ _ Hend). simpl query_fragment. cbv iota beta.
  by rewrite (split_on_plain _ _ Hs), (path_state_plain _ Hs).
Qed.

(** Parsing the [href] of a [file] URL of plain segments gives the URL
    back. *)
Lemma parse_href (segments : list string) :
  segments ≠ [] ->
  Forall (fun s => plain_segment s = true) segments ->
  parse (chars (href (file_url segments))) None = Some (file_url segments).
Proof.
  intros Hne Hs. rewrite chars_href. unfold parse.
  pose proof (path_chars_plain _ Hs) as Hp.
  rewrite clean_none.
  2,3: apply Forall_app; split;
       [by repeat constructor|by apply path_char_all in Hp as (_ & ? & ? & _)].
  rewrite take_scheme_file.
  destruct segments as [|s segments]; [done|].
  change (path_chars (map chars (s :: segments))) with
    ("/"%char :: chars s ++ path_chars (map chars segments)).
  set (l := chars s ++ path_chars (map chars segments)).
  change (Some (parse_path "file" (Some "") true [] l) = Some (file_url (s :: segments))).
  subst l. by rewrite parse_path_plain.
Qed.

Lemma split_on_tail (segments : list (list ascii)) :
  segments ≠ [] ->
  Forall (Forall (fun c => is_slash true c = false)) segments ->
  split_on (is_slash true) (tail (path_chars segments)) = segments.
Proof.
  intros Hne Hs. pose proof (split_on_path_chars _ Hs) as E.
  destruct segments as [|s segments]; [done|].
  change (path_chars (s :: segments)) with ("/"%char :: s ++ path_chars segments) in *.
  cbn [split_on] in E. change (is_slash true "/") with true in E. cbv iota in E.
  by injection E.
Qed.

Lemma take_scheme_dot (l : list ascii) : take_scheme ("."%char :: l) = None.
Proof. reflexivity. Qed.

Lemma iter_shorten (d t : list string) : Nat.iter (length t) shorten (d ++ t) = d.
Proof.
  induction t as [|x t IH] using rev_ind; [simpl; by rewrite app_nil_r|].
  rewrite length_app, Nat.add_comm. cbn [length plus].
  rewrite Nat.iter_succ_r, app_assoc. unfold shorten at 2.
  by rewrite removelast_last.
Qed.

Lemma chars_step (isScoped : bool) (packageName : string) (name : list string) :
  plain_name isScoped packageName name ->
  chars ((if isScoped then "../../../../node_modules/" else "../../../node_modules/")
           +:+ packageName +:+ "/package.json") =
  tail (path_chars (step_segments isScoped name)).
Proof.
  intros (_ & Hlen & ->). rewrite !chars_app.
  destruct isScoped, name as [|a [|b [|c name]]]; try done.
  change (String.concat "/" [a; b]) with (a +:+ "/" +:+ b).
  rewrite !chars_app. unfold step_segments, path_chars. simpl.
  by rewrite <- !app_assoc.
Qed.

Lemma dots_path_chars (n : nat) :
  Forall path_char (path_chars (replicate n (chars ".."))).
Proof.
  induction n as [|n IH]; [constructor|].
  change (path_chars (replicate (S n) (chars ".."))) with
    ("/"%char :: "."%char :: "."%char :: path_chars (replicate n (chars ".."))).
  constructor; [by right|]. constructor; [by left|]. constructor; [by left|]. done.
Qed.

Lemma step_segments_plain (isScoped : bool) (name : list string) :
  Forall (fun s => plain_segment s = true) name ->
  step_segments isScoped name ≠ [] ∧
  Forall (Forall (fun c => is_slash true c = false)) (step_segments isScoped name) ∧
  Forall path_char (path_chars (step_segments isScoped name)) ∧
  ∃ l, tail (path_chars (step_segments isScoped name)) = "."%char :: l.
Proof.
  intros Hname.
  assert (Forall (fun s => plain_segment s = true) (candidate_tail name)) as Htail.
  { constructor; [done|]. apply Forall_app. split; [done|]. by repeat constructor. }
  unfold step_segments. split; [by destruct isScoped|].
  split; [|split].
  - apply Forall_app. split; [|by apply plain_no_slash].
    destruct isScoped; by repeat constructor.
  - rewrite path_chars_app. apply Forall_app. split; [|by apply path_chars_plain].
    apply dots_path_chars.
  - destruct isScoped; by eexists.
Qed.

(** One step up on the reference host, on segments: the last segment
    and three more are removed, four for a scoped name, and the tail of a
    candidate is added. *)
Lemma parse_step (isScoped : bool) (packageName : string) (name segments : list string) :
  plain_name isScoped packageName name ->
  parse
    (chars ((if isScoped then "../../../../node_modules/" else "../../../node_modules/")
              +:+ packageName +:+ "/package.json"))
    (Some (file_url segments)) =
  Some (file_url (Nat.iter (if isScoped then 5 else 4)%nat shorten segments ++
                  candidate_tail name)).
Proof.
  intros Hname. rewrite (chars_step _ _ _ Hname).
  destruct Hname as (Hname & Hlen & _).
  destruct (step_segments_plain isScoped name Hname) as (Hne & Hslash & Hchars & l & Hl).
  assert (Forall path_char (tail (path_chars (step_segments isScoped name)))) as Hp.
  { destruct (path_chars (step_segments isScoped name)); [done|].
    by apply Forall_cons_1 in Hchars as [_ ?]. }
  apply path_char_all in Hp as (Hend & Htrim & Hnl & _).
  unfold parse. rewrite (clean_none _ Htrim Hnl).
  rewrite Hl, take_scheme_dot.
  change (Some (parse_path "file" (Some "") true (shorten segments) ("."%char :: l)) =
          Some (file_url (Nat.iter (if isScoped then 5 else 4)%nat shorten segments ++
                          candidate_tail name))).
  rewrite <- Hl. unfold parse_path.
  rewrite (break_at_none _ _ Hend). simpl query_fragment. cbv iota beta.
  rewrite (split_on_tail _ Hne Hslash). unfold step_segments.
  rewrite path_state_up by done. rewrite path_state_plain.
  - rewrite <- Nat.iter_succ_r. by destruct isScoped.
  - constructor; [done|]. apply Forall_app. split; [done|]. by repeat constructor.
Qed.

Lemma mini_fileURLToPath (segments : list string) :
  Forall (fun s => plain_segment s = true) segments ->
  fileURLToPath (file_url segments) = str (path_chars (map chars segments)).
Proof.
  intros Hs. unfold fileURLToPath. rewrite chars_pathname.
  rewrite percent_decode_none; [done|].
  by apply path_chars_plain, path_char_all in Hs as (_ & _ & _ & ?).
Qed.

End PlainPaths.

(** ** The walk on the reference host *)

Section ReferenceWalk.
Variable e : Mini.env.
Variables (packageName : string) (isScoped : bool) (name : list string).
Hypothesis Hname : Mini.plain_name isScoped packageName name.

Local Abbreviation plain := (Forall (fun s => Mini.plain_segment s = true)).
Local Abbreviation candidate_url :=
  (fun d : list string => Mini.file_url (d ++ Mini.candidate_tail name)).

Lemma candidate_tail_plain : plain (Mini.candidate_tail name).
Proof.
  destruct Hname as (Hn & _).
  constructor; [done|]. apply Forall_app. split; [done|]. by repeat constructor.
Qed.

Lemma mini_step_up (d : list string) :
  plain d ->
  step_up (H := Mini.mini_host e) packageName isScoped (candidate_url d) =
  Some (candidate_url (removelast d)).
Proof.
  intros Hd. unfold step_up. cbv beta.
  change (@URL_new (Mini.mini_host e)) with Mini.URL_new.
  change (@href (Mini.mini_host e)) with Mini.href.
  unfold Mini.URL_new.
  rewrite parse_href.
  2: by destruct d.
  2: apply Forall_app; split; [done|apply candidate_tail_plain].
  rewrite (parse_step _ _ name _ Hname). do 3 f_equal.
  destruct Hname as (_ & Hlen & _).
  replace (if isScoped then 5 else 4)%nat with (S (length (Mini.candidate_tail name))).
  2: { unfold Mini.candidate_tail. cbn [length]. rewrite length_app, Hlen.
       by destruct isScoped. }
  by rewrite Nat.iter_succ, iter_shorten.
Qed.

(** On the reference host a step up from a candidate on plain segments
    leaves the path as it is, at the root, or makes it shorter. *)
Lemma mini_steps_toward_root (d : list string) :
  plain d ->
  steps_toward_root (H := Mini.mini_host e) packageName isScoped (candidate_url d).
Proof.
  intros Hd. eexists. split; [by apply mini_step_up|]. cbv beta.
  change (@fileURLToPath (Mini.mini_host e)) with Mini.fileURLToPath.
  destruct d as [|x d _] using rev_ind; [by left|]. right.
  rewrite removelast_last.
  apply Forall_app in Hd as [Hd Hx].
  rewrite !mini_fileURLToPath.
  2,3: repeat (apply Forall_app; split); auto using candidate_tail_plain.
  unfold len. rewrite !chars_str, !map_app, !path_chars_app, !length_app.
  change (Mini.path_chars (map chars [x])) with ("/"%char :: chars x ++ []).
  cbn [length]. lia.
Qed.

Lemma mini_candidates (d : list string) (c : Mini.url) :
  plain d ->
  candidate (H := Mini.mini_host e) packageName isScoped (candidate_url d) c ->
  ∃ d', plain d' ∧ c = candidate_url d'.
Proof.
  intros Hd. induction 1 as [|c c' _ (d' & Hd' & ->) _ Hup]; [by exists d|].
  pose proof (mini_step_up d' Hd') as Hup'. cbv beta in Hup'.
  rewrite Hup' in Hup. injection Hup as <-.
  exists (removelast d'). split; [|done].
  destruct d' as [|x d' _] using rev_ind; [done|].
  rewrite removelast_last. by apply Forall_app in Hd' as [? _].
Qed.

(** X16.  On the reference host the walk from a candidate on plain
    segments ends, whatever the file system holds: the hypothesis on the
    steps up holds there, and with fuel beyond the length of the first
    path the loop returns the result of the walk and notifies nothing. *)
Lemma mini_walk_terminates (d : list string) :
  plain d ->
  let u0 := candidate_url d in
  ∃ r, walk (H := Mini.mini_host e) packageName isScoped u0 r ∧
    forall fuel,
      (length (chars (Mini.fileURLToPath u0)) < fuel)%nat ->
      packageResolve_loop (H := Mini.mini_host e) fuel packageName isScoped u0
        (Mini.fileURLToPath u0) = (r, []).
Proof.
  intros Hd u0.
  apply (packageResolve_loop_walk (H := Mini.mini_host e) packageName isScoped _ u0 u0).
  - intros c (d' & Hd' & ->)%mini_candidates _; [|done].
    by apply mini_steps_toward_root.
  - constructor.
  - done.
Qed.

End ReferenceWalk.

(** The walk for the scoped package [@scope/pkg] from [/app/sub], on the
    installation of the examples. *)
Example walk_of_scoped_package :
  let u0 :=
    Mini.file_url ["app"; "sub"; "node_modules"; "@scope"; "pkg"; "package.json"] in
  ∃ r, walk (H := Demo.host) "@scope/pkg" true u0 r ∧
    forall fuel,
      (length (chars (Mini.fileURLToPath u0)) < fuel)%nat ->
      packageResolve_loop (H := Demo.host) fuel "@scope/pkg" true u0
        (Mini.fileURLToPath u0) = (r, []).
Proof.
  apply (mini_walk_terminates Demo.env "@scope/pkg" true ["@scope"; "pkg"]
           ltac:(by repeat split; repeat constructor) ["app"; "sub"]).
  by repeat constructor.
Defined.

(** * Further properties

    Properties of the remaining functions of the resolver: package
    names, specifier classes, key order, target strings, imports,
    the gates of [defaultResolve] and the deprecation warnings. *)

Set Warnings "-clear-no-such-hyp".

(** ** Package names *)

Section PackageNames.

Lemma before_notin (c : ascii) (l : list ascii) : c ∉ l -> before c l = l.
Proof.
  induction l as [|x l IH]; [done|]. intros [Hx Hl]%not_elem_of_cons.
  simpl. rewrite bool_decide_eq_false_2 by congruence. by rewrite IH.
Qed.

Lemma before_self (c : ascii) (l : list ascii) : c ∉ before c l.
Proof.
  induction l as [|x l IH]; simpl; [apply not_elem_of_nil|].
  case_bool_decide as E; [apply not_elem_of_nil|].
  apply not_elem_of_cons. split; [congruence|done].
Qed.

Lemma before_app (c : ascii) (n r : list ascii) :
  c ∉ n -> before c (n ++ c :: r) = n ∧ after c (n ++ c :: r) = r.
Proof.
  induction n as [|x n IH]; simpl.
  - intros _. by rewrite bool_decide_eq_true_2.
  - intros [Hx Hn]%not_elem_of_cons.
    rewrite bool_decide_eq_false_2 by congruence.
    destruct (IH Hn) as [-> ->]. done.
Qed.

(** What follows the part before the first [c]. *)
Lemma drop_before (c : ascii) (l : list ascii) :
  l = before c l ++ drop (length (before c l)) l ∧
  (drop (length (before c l)) l = [] ∨
   drop (length (before c l)) l = c :: after c l).
Proof.
  induction l as [|x l [IH1 IH2]]; simpl; [by split; [|left]|].
  case_bool_decide as E; simpl.
  - subst. split; [done|by right].
  - split; [by f_equal|done].
Qed.

Lemma IndexOfFrom_spec (s : string) (c : ascii) (from : Z) :
  0 <= from <= len s ->
  let l := drop (Z.to_nat from) (chars s) in
  ((c ∉ l) ∧ StringPrototypeIndexOfFrom s c from = -1) ∨
  (c ∈ l ∧ StringPrototypeIndexOfFrom s c from
           = from + Z.of_nat (length (before c l))).
Proof.
  intros Hfrom l. unfold StringPrototypeIndexOfFrom.
  replace (Z.min (Z.max from 0) (len s)) with from by lia.
  apply index_from_spec.
Qed.

(** The test of the package name, at a position of the name. *)
Lemma invalid_name_search (bol : bool) (l : list ascii) :
  JS.search false invalidPackageNameRegEx bol l = true <->
  (bol = true ∧ head l = Some "."%char) ∨ "%"%char ∈ l ∨ backslash_char ∈ l.
Proof.
  revert bol. induction l as [|c l IH]; intros bol.
  - destruct bol; simpl; (split; [done|]); rewrite !elem_of_nil; naive_solver.
  - cbn [JS.search]. rewrite orb_true_iff, IH. clear IH.
    assert (rmatch false invalidPackageNameRegEx bol (c :: l) (fun _ _ => true) = true
            <-> (bol = true ∧ c = "."%char) ∨ c = "%"%char ∨ c = backslash_char) as ->.
    { unfold invalidPackageNameRegEx.
      cbn [rmatch chars list_ascii_of_string backslash lit_match].
      unfold char_eqb. rewrite !orb_true_iff.
      destruct bol; cbn [andb]; repeat case_bool_decide; subst; simpl;
        naive_solver. }
    rewrite !elem_of_cons. simpl. naive_solver.
Qed.

Lemma invalid_name_test (name : string) :
  test false invalidPackageNameRegEx name = false <-> valid_package_name name.
Proof.
  unfold valid_package_name, test, at_.
  rewrite <- not_true_iff_false, invalid_name_search.
  rewrite <- head_lookup. split.
  - intros Hn. repeat split; intros ?; apply Hn; tauto.
  - intros (H1 & H2 & H3) [[_ ?]|[?|?]]; done.
Qed.

Lemma Slice_str (s : string) (a b : Z) :
  0 <= a <= len s -> 0 <= b <= len s ->
  StringPrototypeSlice s a (Some b) = str (take (Z.to_nat (b - a)) (drop (Z.to_nat a) (chars s))).
Proof. intros Ha Hb. apply chars_inj. by rewrite Slice_chars, chars_str. Qed.

Lemma Slice_str_end (s : string) (a : Z) :
  0 <= a <= len s ->
  StringPrototypeSlice s a None = str (drop (Z.to_nat a) (chars s)).
Proof. intros Ha. apply chars_inj. by rewrite Slice_to_end, chars_str. Qed.

Lemma parsePackageName_eq (specifier : string) :
  let l := chars specifier in
  let scoped := bool_decide (head l = Some "@"%char) in
  parsePackageName specifier =
  if scoped && negb (bool_decide ("/"%char ∈ l)) then
    Throw (ERR_INVALID_MODULE_SPECIFIER specifier "is not a valid package name")
  else if test false invalidPackageNameRegEx (str (name_chars scoped l)) then
    Throw (ERR_INVALID_MODULE_SPECIFIER specifier "is not a valid package name")
  else Ok (str (name_chars scoped l),
           "." +:+ str (drop (length (name_chars scoped l)) l), scoped).
Proof.
  cbv zeta. unfold parsePackageName, at_. rewrite <- head_lookup.
  pose proof (IndexOf_spec specifier "/") as HI.
  set (l := chars specifier) in *.
  set (scoped := bool_decide (head l = Some "@"%char)).
  destruct HI as [[Hn ->]|[Hin ->]].
  - rewrite (bool_decide_eq_false_2 _ Hn). change (-1 =? -1) with true.
    cbn [orb negb]. rewrite andb_true_r.
    destruct scoped; cbn [negb]; change (-1 =? -1) with true; cbv iota.
    + by destruct (test false invalidPackageNameRegEx specifier).
    + unfold name_chars. rewrite before_notin by done.
      rewrite drop_all. unfold l. rewrite str_chars.
      by destruct (test false invalidPackageNameRegEx specifier).
  - rewrite (bool_decide_eq_true_2 _ Hin). cbn [negb]. rewrite andb_false_r.
    pose proof (before_after _ _ Hin) as Hl.
    set (b := before "/" l) in *. set (a := after "/" l) in *.
    assert (length l = length b + 1 + length a)%nat as Hlen
      by (rewrite Hl, length_app; simpl; lia).
    assert (forall n : nat, (Z.of_nat n =? -1) = false) as Eneg
      by (intros; apply Z.eqb_neq; lia).
    assert (len specifier = Z.of_nat (length l)) as Elen by done.
    destruct scoped.
    + rewrite Eneg. replace (len specifier =? 0) with false
        by (symmetry; apply Z.eqb_neq; lia).
      cbn [orb]. unfold name_chars. fold b a.
      pose proof (IndexOfFrom_spec specifier "/" (Z.of_nat (length b) + 1)) as HI.
      cbv zeta in HI. fold l in HI.
      destruct HI as [[Hn' ->]|[Hin' ->]]; [lia| |].
      all: replace (Z.to_nat (Z.of_nat (length b) + 1)) with (length (b ++ ["/"%char]))
             in * by (rewrite length_app; simpl; lia).
      all: assert (drop (length (b ++ ["/"%char])) l = a) as Ea
             by (rewrite Hl at 1; rewrite (cons_middle _ b a), app_assoc;
                 apply drop_app_length).
      all: rewrite Ea in *.
      * change (-1 =? -1) with true. cbv iota.
        rewrite (before_notin _ a) by done. rewrite <- Hl.
        rewrite drop_all. unfold l. rewrite str_chars.
        by destruct (test false invalidPackageNameRegEx specifier).
      * pose proof (before_after _ _ Hin') as Ha.
        set (b' := before "/" a) in *. set (a' := after "/" a) in *.
        assert (length a = length b' + 1 + length a')%nat as Hlen'
          by (rewrite Ha, length_app; simpl; lia).
        replace (Z.of_nat (length b) + 1 + Z.of_nat (length b'))
          with (Z.of_nat (length (b ++ "/"%char :: b')))
          by (rewrite length_app; simpl; lia).
        rewrite Eneg.
        assert (l = (b ++ "/"%char :: b') ++ "/"%char :: a') as Hl'
          by (rewrite Hl at 1; rewrite Ha at 1; by rewrite <- app_assoc).
        rewrite Slice_str, Slice_str_end
          by (rewrite Elen, Hl', !length_app; simpl; lia).
        fold l. rewrite Z.sub_0_r, !Nat2Z.id. change (Z.to_nat 0) with 0%nat.
        rewrite drop_0.
        assert (take (length (b ++ "/"%char :: b')) l = b ++ "/"%char :: b') as ->
          by (rewrite Hl' at 1; apply take_app_length).
        by destruct (test false invalidPackageNameRegEx _).
    + rewrite Eneg. unfold name_chars. fold b.
      rewrite Slice_str, Slice_str_end by (rewrite Elen; lia).
      fold l. rewrite Z.sub_0_r, !Nat2Z.id. change (Z.to_nat 0) with 0%nat.
      rewrite drop_0.
      assert (take (length b) l = b) as ->
        by (rewrite Hl at 1; apply take_app_length).
      by destruct (test false invalidPackageNameRegEx _).
Qed.

Lemma name_chars_split (scoped : bool) (l : list ascii) :
  (scoped = true -> "/"%char ∈ l) ->
  ∃ rest, l = name_chars scoped l ++ rest ∧
    drop (length (name_chars scoped l)) l = rest ∧
    (rest = [] ∨ head rest = Some "/"%char).
Proof.
  intros Hs. unfold name_chars. destruct scoped.
  - pose proof (before_after _ _ (Hs eq_refl)) as Hl.
    destruct (drop_before "/" (after "/" l)) as [Ha Hrest].
    set (b := before "/" l) in *. set (a := after "/" l) in *.
    set (b' := before "/" a) in *.
    exists (drop (length b') a).
    assert (l = (b ++ "/"%char :: b') ++ drop (length b') a) as Hl'.
    { rewrite Hl at 1. rewrite Ha at 1. by rewrite <- app_assoc. }
    split; [done|]. split.
    + rewrite Hl' at 1. apply drop_app_length.
    + destruct Hrest as [->| ->]; [by left|by right].
  - destruct (drop_before "/" l) as [Hl Hrest].
    exists (drop (length (before "/" l)) l). split; [done|]. split; [done|].
    destruct Hrest as [->| ->]; [by left|by right].
Qed.

Lemma before_prefix (c : ascii) (n rest : list ascii) :
  c ∉ n -> rest = [] ∨ head rest = Some c ->
  before c (n ++ rest) = n ∧ (rest ≠ [] -> after c (n ++ rest) = tail rest).
Proof.
  intros Hn [->|Hrest].
  - rewrite app_nil_r. split; [by apply before_notin|done].
  - destruct rest as [|c' rest]; [done|]. injection Hrest as ->.
    destruct (before_app c n rest Hn) as [-> ->]. done.
Qed.

Lemma at_head (s : string) : at_ s 0 = head (chars s).
Proof. unfold at_. by rewrite head_lookup. Qed.

Lemma parsePackageName_ok (specifier name sub : string) (sc : bool) :
  parsePackageName specifier = Ok (name, sub, sc) ->
  package_name_parts specifier name sub sc.
Proof.
  rewrite parsePackageName_eq. cbv zeta.
  set (l := chars specifier). set (scoped := bool_decide (head l = Some "@"%char)).
  destruct (scoped && negb (bool_decide ("/"%char ∈ l))) eqn:Hs; [done|].
  destruct (test false invalidPackageNameRegEx _) eqn:Ht; [done|].
  intros [= <- <- <-].
  assert (scoped = true -> "/"%char ∈ l) as Hin.
  { intros E. rewrite E in Hs. simpl in Hs.
    by apply negb_false_iff, bool_decide_eq_true in Hs. }
  destruct (name_chars_split scoped l Hin) as (rest & Hl & Hdrop & Hrest).
  exists (str rest). split; [|split; [|split; [|split]]].
  - apply chars_inj. by rewrite chars_app, !chars_str.
  - by rewrite Hdrop.
  - rewrite at_head, chars_str. destruct Hrest as [->|?]; [by left|by right].
  - by apply invalid_name_test.
  - unfold name_chars in *. destruct scoped eqn:Esc.
    + exists (str (before "/" l)), (str (before "/" (after "/" l))).
      split; [|split; [|split]].
      * apply chars_inj. rewrite !chars_app, !chars_str. done.
      * rewrite at_head, chars_str.
        apply bool_decide_eq_true in Esc.
        destruct l as [|c t]; [done|]. injection Esc as ->. done.
      * rewrite chars_str. apply before_self.
      * rewrite chars_str. apply before_self.
    + rewrite at_head, chars_str. split; [|apply before_self].
      apply bool_decide_eq_false in Esc.
      destruct l as [|c t]; [done|]. simpl in *.
      case_bool_decide; [done|]. simpl. done.
Qed.

Lemma parsePackageName_build (specifier name sub : string) (sc : bool) :
  package_name_parts specifier name sub sc ->
  parsePackageName specifier = Ok (name, sub, sc).
Proof.
  intros (rest & -> & -> & Hrest & Hvalid & Hname).
  assert (chars rest = [] ∨ head (chars rest) = Some "/"%char) as Hrest'.
  { destruct Hrest as [->|Hr]; [by left|right]. by rewrite <- at_head. }
  rewrite parsePackageName_eq. cbv zeta. rewrite chars_app.
  set (l := chars name ++ chars rest).
  assert (bool_decide (head l = Some "@"%char) = sc ∧
          name_chars sc l = chars name ∧ (sc = true -> "/"%char ∈ l))
    as (-> & Hn & Hin).
  { unfold name_chars, l. destruct sc.
    - destruct Hname as (scope & pkg & -> & Hat & Hs & Hp).
      rewrite at_head in Hat. rewrite !chars_app. simpl.
      split; [|split].
      + apply bool_decide_eq_true_2. by destruct (chars scope).
      + rewrite <- !app_assoc. simpl.
        destruct (before_app "/" (chars scope) (chars pkg ++ chars rest) Hs)
          as [-> ->].
        by destruct (before_prefix "/" (chars pkg) (chars rest) Hp Hrest') as [-> _].
      + intros _. rewrite !elem_of_app, elem_of_cons. tauto.
    - destruct Hname as [Hat Hs]. rewrite at_head in Hat.
      split; [|split; [|done]].
      + apply bool_decide_eq_false_2.
        destruct (chars name) as [|c t]; [|done]. simpl.
        destruct Hrest' as [->| ->]; done.
      + by destruct (before_prefix "/" (chars name) (chars rest) Hs Hrest') as [-> _]. }
  rewrite Hn. subst l. rewrite drop_app_length, !str_chars.
  apply invalid_name_test in Hvalid. rewrite Hvalid.
  destruct sc; [|done]. simpl.
  by rewrite (bool_decide_eq_true_2 _ (Hin eq_refl)).
Qed.

Lemma parsePackageName_total (specifier : string) :
  (∃ name sub sc, parsePackageName specifier = Ok (name, sub, sc)) ∨
  parsePackageName specifier =
  Throw (ERR_INVALID_MODULE_SPECIFIER specifier "is not a valid package name").
Proof.
  rewrite parsePackageName_eq. cbv zeta.
  destruct (_ && _); [by right|].
  destruct (test _ _ _); [by right|]. left. by eexists _, _, _.
Qed.


End PackageNames.

(** ** Specifiers *)

Section Specifiers.
Context {H : Host}.

Lemma head_before (c x : ascii) (l : list ascii) :
  x ≠ c -> head l = Some x -> head (before c l) = Some x.
Proof.
  intros Hx. destruct l as [|y l]; [done|]. intros [= ->]. simpl.
  by rewrite bool_decide_eq_false_2.
Qed.

Lemma before_sub_name_chars (scoped : bool) (l : list ascii) (c : ascii) :
  c ∈ before "/" l -> c ∈ name_chars scoped l.
Proof.
  unfold name_chars. destruct scoped; [|done].
  intros Hc. apply elem_of_app. by left.
Qed.

(** The specifiers that [parsePackageName] refuses at sight. *)
Lemma parsePackageName_refused (specifier : string) :
  at_ specifier 0 = Some "."%char ∨
  (at_ specifier 0 = Some "@"%char ∧ ("/"%char ∉ chars specifier)) ∨
  "%"%char ∈ before "/" (chars specifier) ∨
  backslash_char ∈ before "/" (chars specifier) ->
  parsePackageName specifier =
  Throw (ERR_INVALID_MODULE_SPECIFIER specifier "is not a valid package name").
Proof.
  rewrite at_head. intros Hcase. rewrite parsePackageName_eq. cbv zeta.
  set (l := chars specifier) in *.
  set (scoped := bool_decide (head l = Some "@"%char)).
  destruct (scoped && negb (bool_decide ("/"%char ∈ l))) eqn:Hs; [done|].
  assert (test false invalidPackageNameRegEx (str (name_chars scoped l)) = true)
    as ->; [|done].
  unfold test. rewrite chars_str. apply invalid_name_search.
  destruct Hcase as [Hdot|[[Hat Hn]|[Hp|Hb]]].
  - left. split; [done|].
    assert (scoped = false) as ->
      by (apply bool_decide_eq_false_2; rewrite Hdot; congruence).
    by apply head_before.
  - unfold scoped in Hs. rewrite (bool_decide_eq_true_2 _ Hat) in Hs.
    by rewrite (bool_decide_eq_false_2 _ Hn) in Hs.
  - right. left. by apply before_sub_name_chars.
  - right. right. by apply before_sub_name_chars.
Qed.


(** X3.  The classes of specifiers: [isRelativeSpecifier] holds of [.],
    [..] and what starts with [./] or [../]; a specifier is treated as a
    path when it is relative or starts with a slash; a bare specifier is
    never treated as a path; and a specifier that is neither empty, nor
    bare, nor treated as a path starts with a dot. *)
Theorem specifier_classes (specifier : string) :
  (isRelativeSpecifier specifier = true ↔
   specifier = "." ∨ specifier = ".." ∨
   chars "./" `prefix_of` chars specifier ∨
   chars "../" `prefix_of` chars specifier) ∧
  (shouldBeTreatedAsRelativeOrAbsolutePath specifier = true ↔
   chars "/" `prefix_of` chars specifier ∨ isRelativeSpecifier specifier = true) ∧
  (isBareSpecifier specifier = true →
   shouldBeTreatedAsRelativeOrAbsolutePath specifier = false) ∧
  (specifier ≠ "" → isBareSpecifier specifier = false →
   shouldBeTreatedAsRelativeOrAbsolutePath specifier = false →
   at_ specifier 0 = Some "."%char ∧ isRelativeSpecifier specifier = false).
Proof.
  assert (forall a l, chars a `prefix_of` l <-> take (length (chars a)) l = chars a)
    as Hpre.
  { intros a l. split.
    - intros [r ->]. apply take_app_length.
    - intros E. exists (drop (length (chars a)) l). rewrite <- E at 1.
      by rewrite take_drop. }
  assert (forall (n : nat) (m : Z), 0 <= m ->
            (Z.of_nat n =? m) = bool_decide (n = Z.to_nat m)) as Heqb.
  { intros n m Hm. destruct (Z.eqb_spec (Z.of_nat n) m).
    - rewrite bool_decide_eq_true_2; [done|lia].
    - rewrite bool_decide_eq_false_2; [done|lia]. }
  unfold shouldBeTreatedAsRelativeOrAbsolutePath, isRelativeSpecifier,
    isBareSpecifier, at_, len.
  rewrite !Hpre, !Heqb by lia.
  change (Z.to_nat 1) with 1%nat. change (Z.to_nat 2) with 2%nat.
  destruct specifier as [|c1 [|c2 [|c3 s]]]; simpl;
    repeat case_bool_decide; simplify_eq; simpl; naive_solver.
Qed.

End Specifiers.

(** ** The comparison of pattern keys *)

Section KeyOrder.
Local Abbreviation star := ("*"%char).

(** The comparison of two keys that have a star, by prefix length and
    length. *)
Lemma patternKeyCompare_stars (a b : string) :
  star ∈ chars a -> star ∈ chars b ->
  (patternKeyCompare a b = -1 ∧
   ((prefix_length b < prefix_length a)%nat ∨
    (prefix_length a = prefix_length b ∧ key_length b < key_length a)%nat)) ∨
  (patternKeyCompare a b = 1 ∧
   ((prefix_length a < prefix_length b)%nat ∨
    (prefix_length a = prefix_length b ∧ key_length a < key_length b)%nat)) ∨
  (patternKeyCompare a b = 0 ∧
   prefix_length a = prefix_length b ∧ key_length a = key_length b).
Proof.
  intros Ha Hb. unfold patternKeyCompare.
  destruct (key_cut a Ha) as (-> & _), (key_cut b Hb) as (-> & _).
  rewrite !len_chars. fold (key_length a) (key_length b).
  assert (forall n : nat, (Z.of_nat n =? -1) = false) as E
    by (intros; apply Z.eqb_neq; lia).
  rewrite !E.
  repeat match goal with
         | |- context [?x >? ?y] => destruct (Z.gtb_spec x y)
         end; [left|right; left|left|right; left|right; right];
    (split; [done|lia]).
Qed.

(** X4.  On keys that have a [*], [patternKeyCompare] is a consistent
    comparison: exchanging the arguments negates the result, [-1] is
    transitive, and the result is [-1] exactly when the first key has the
    longer prefix, or the same prefix length and the greater length.  Two
    keys without [*] of the same length compare as [1] in both orders. *)
Theorem pattern_key_compare_order :
  (∀ a b, star ∈ chars a → star ∈ chars b →
     patternKeyCompare a b = - patternKeyCompare b a) ∧
  (∀ a b, star ∈ chars a → star ∈ chars b →
     (patternKeyCompare a b = -1 ↔
      (prefix_length b < prefix_length a)%nat ∨
      (prefix_length a = prefix_length b ∧ key_length b < key_length a)%nat)) ∧
  (∀ a b c, star ∈ chars a → star ∈ chars b → star ∈ chars c →
     patternKeyCompare a b = -1 → patternKeyCompare b c = -1 →
     patternKeyCompare a c = -1) ∧
  (∀ a b, (star ∉ chars a) → (star ∉ chars b) → key_length a = key_length b →
     patternKeyCompare a b = 1 ∧ patternKeyCompare b a = 1).
Proof.
  split; [|split; [|split]].
  - intros a b Ha Hb.
    destruct (patternKeyCompare_stars a b Ha Hb) as [[-> ?]|[[-> ?]|[-> ?]]],
      (patternKeyCompare_stars b a Hb Ha) as [[-> ?]|[[-> ?]|[-> ?]]]; lia.
  - intros a b Ha Hb.
    destruct (patternKeyCompare_stars a b Ha Hb) as [[-> ?]|[[-> ?]|[-> ?]]];
      split; intros; try done; lia.
  - intros a b c Ha Hb Hc Hab Hbc.
    destruct (patternKeyCompare_stars a b Ha Hb) as [[_ ?]|[[E ?]|[E ?]]];
      [|congruence..].
    destruct (patternKeyCompare_stars b c Hb Hc) as [[_ ?]|[[E ?]|[E ?]]];
      [|congruence..].
    destruct (patternKeyCompare_stars a c Ha Hc) as [[-> ?]|[[-> ?]|[-> ?]]];
      [done|lia..].
  - intros a b Ha Hb Hlen. unfold patternKeyCompare, key_length in *.
    destruct (IndexOf_spec a star) as [[_ ->]|[? _]]; [|done].
    destruct (IndexOf_spec b star) as [[_ ->]|[? _]]; [|done].
    change (-1 =? -1) with true. cbv iota. rewrite !len_chars, Hlen.
    by rewrite !Z.gtb_ltb, Z.ltb_irrefl.
Qed.

End KeyOrder.

(** ** The main sugar of [exports] *)

Section Sugar.
Context {H : Host}.

Local Abbreviation mixed_keys :=
  (ERR_INVALID_PACKAGE_CONFIG
     "exports cannot contain some keys starting with '.' and some not.").

Lemma isConditionalExportsMainSugar_loop_next (keys : list string) (i : Z)
    (isConditionalSugar : bool) :
  0 < i ->
  isConditionalExportsMainSugar_loop keys i isConditionalSugar =
  if forallb (fun key => Bool.eqb isConditionalSugar (condition_key key)) keys
  then Ok isConditionalSugar else Throw mixed_keys.
Proof.
  revert i. induction keys as [|key keys IH]; intros i Hi; [done|].
  cbn [isConditionalExportsMainSugar_loop forallb]. fold (condition_key key).
  destruct (Z.eqb_spec i 0); [lia|].
  destruct (Bool.eqb _ _); [|done]. simpl. apply IH. lia.
Qed.

Lemma isConditionalExportsMainSugar_map (m : list (string * TargetValue)) :
  isConditionalExportsMainSugar (TMap m) =
  match map fst m with
  | [] => Ok false
  | key :: keys =>
      if forallb (fun k => Bool.eqb (condition_key key) (condition_key k)) keys
      then Ok (condition_key key) else Throw mixed_keys
  end.
Proof.
  unfold isConditionalExportsMainSugar. destruct (map fst m) as [|key keys]; [done|].
  cbn [isConditionalExportsMainSugar_loop]. fold (condition_key key).
  change (0 =? 0) with true. cbv iota.
  by apply isConditionalExportsMainSugar_loop_next.
Qed.

(** X5.  [isConditionalExportsMainSugar] on an object: it returns [true]
    exactly when the object has a key and no key starts with a dot (the
    empty key counting as one that does not), [false] exactly when every
    key starts with a dot, which includes the object without keys, and it
    throws [ERR_INVALID_PACKAGE_CONFIG] exactly when the object has a key
    of each kind. *)
Theorem exports_sugar_cases (m : list (string * TargetValue)) :
  let keys := map fst m in
  (isConditionalExportsMainSugar (TMap m) = Ok true ↔
   keys ≠ [] ∧ ∀ key, key ∈ keys → condition_key key = true) ∧
  (isConditionalExportsMainSugar (TMap m) = Ok false ↔
   ∀ key, key ∈ keys → condition_key key = false) ∧
  (isConditionalExportsMainSugar (TMap m) = Throw mixed_keys ↔
   ∃ key key', key ∈ keys ∧ key' ∈ keys ∧
     condition_key key = true ∧ condition_key key' = false) ∧
  (isConditionalExportsMainSugar (TMap m) = Ok true ∨
   isConditionalExportsMainSugar (TMap m) = Ok false ∨
   isConditionalExportsMainSugar (TMap m) = Throw mixed_keys).
Proof.
  intros keys. rewrite isConditionalExportsMainSugar_map. fold keys.
  destruct keys as [|key keys].
  { split; [|split; [|split]].
    - split; [done|]. by intros [? _].
    - split; [|done]. intros _ k Hk. by apply elem_of_nil in Hk.
    - split; [done|]. intros (k & _ & Hk & _). by apply elem_of_nil in Hk.
    - right. by left. }
  destruct (forallb _ keys) eqn:Hall.
  - rewrite forallb_forall in Hall.
    assert (forall k, k ∈ key :: keys -> condition_key k = condition_key key) as Hsame.
    { intros k [->|Hk]%elem_of_cons; [done|].
      apply list_elem_of_In, Hall, Bool.eqb_prop in Hk. done. }
    assert (key ∈ key :: keys) as Hkey by apply list_elem_of_here.
    destruct (condition_key key) eqn:E; (split; [|split; [|split]]).
    + split; [|done]. intros _. split; [done|]. apply Hsame.
    + split; [done|]. intros Hnone. by rewrite (Hnone key Hkey) in E.
    + split; [done|]. intros (k & k' & Hk & Hk' & E1 & E2).
      rewrite (Hsame k' Hk') in E2. done.
    + by left.
    + split; [done|]. intros [_ Hall']. by rewrite (Hall' key Hkey) in E.
    + split; [|done]. intros _. apply Hsame.
    + split; [done|]. intros (k & k' & Hk & Hk' & E1 & E2).
      rewrite (Hsame k Hk) in E1. done.
    + right. by left.
  - apply not_true_iff_false in Hall. rewrite forallb_forall in Hall.
    assert (∃ k, k ∈ keys ∧ condition_key k ≠ condition_key key) as (k & Hk & Hne).
    { destruct (decide (Forall (fun k => condition_key k = condition_key key) keys))
        as [Hf|Hf].
      - destruct Hall. intros k Hk%list_elem_of_In.
        rewrite Forall_forall in Hf. rewrite (Hf k Hk). apply Bool.eqb_reflx.
      - apply not_Forall_Exists in Hf; [|intros ?; apply _].
        apply Exists_exists in Hf as (k & Hk & Hne). by exists k. }
    assert (key ∈ key :: keys) as Hkey by apply list_elem_of_here.
    assert (k ∈ key :: keys) as Hk' by by apply list_elem_of_further.
    split; [|split; [|split]].
    + split; [done|]. intros [_ Hall'].
      rewrite (Hall' k Hk'), (Hall' key Hkey) in Hne. done.
    + split; [done|]. intros Hall'.
      rewrite (Hall' k Hk'), (Hall' key Hkey) in Hne. done.
    + split; [|done]. intros _.
      destruct (condition_key key) eqn:E, (condition_key k) eqn:E'; try done.
      * by exists key, k.
      * by exists k, key.
    + right. by right.
Qed.

End Sugar.

(** ** Targets and their segments *)

Section Segments.

Lemma search_here (ci : bool) (r : regex) (bol : bool) (l : list ascii) :
  rmatch ci r bol l (fun _ _ => true) = true -> JS.search ci r bol l = true.
Proof. intros E. destruct l; simpl; by rewrite E. Qed.

Lemma search_later (ci : bool) (r : regex) (l : list ascii) :
  (forall bol, JS.search ci r bol l = true) ->
  forall p bol, JS.search ci r bol (p ++ l) = true.
Proof.
  intros Hl p. induction p as [|x p IH]; intros bol; [apply Hl|].
  simpl. by rewrite IH, orb_true_r.
Qed.

(** Both expressions on segments find a forbidden segment. *)
Lemma forbidden_segment_found (l : list ascii) :
  has_forbidden_segment l ->
  JS.search true deprecatedInvalidSegmentRegEx true l = true ∧
  JS.search true invalidSegmentRegEx true l = true.
Proof.
  intros (pre & seg & post & -> & Hseg & Hpre & Hpost).
  assert (seg = "." ∨ seg = ".." ∨ seg = "node_modules") as Hseg'.
  { rewrite !elem_of_cons in Hseg. rewrite elem_of_nil in Hseg. tauto. }
  clear Hseg.
  destruct Hpre as [->|(p & c & -> & Hc)].
  - simpl. split; apply search_here;
      destruct Hseg' as [->|[->| ->]];
      destruct Hpost as [->|(c & p & -> & [->| ->])];
      vm_compute; reflexivity.
  - rewrite <- !app_assoc.
    split; apply search_later; intros bol; apply search_here;
      destruct bol;
      destruct Hc as [->| ->];
      destruct Hseg' as [->|[->| ->]];
      destruct Hpost as [->|(c & p' & -> & [->| ->])];
      vm_compute; reflexivity.
Qed.

End Segments.

Section TargetStrings.
Context {H : Host}.
Variable packageResolve_rec : string -> Base -> gset string -> W URL.
Variables (packageJSONUrl : URL) (base : Base) (conditions : gset string).

(** X6.  A string target that does not start with [./] is refused with
    [ERR_INVALID_PACKAGE_TARGET], without being resolved: always in an
    [exports] resolution, and in an [imports] resolution when it starts
    with [../] or [/] or parses as a URL. *)
Theorem target_must_be_relative (target subpath match_ : string)
    (pattern internal isPathMap : bool) :
  StringPrototypeStartsWith target "./" = false ->
  internal = false ∨ StringPrototypeStartsWith target "../" = true ∨
  StringPrototypeStartsWith target "/" = true ∨ URLCanParse target = true ->
  resolvePackageTargetString packageResolve_rec target subpath match_
    packageJSONUrl base pattern internal isPathMap conditions
  = throw (ERR_INVALID_PACKAGE_TARGET match_ (TString target) internal) ∧
  resolvePackageTarget packageResolve_rec packageJSONUrl (TString target) subpath
    match_ base pattern internal isPathMap conditions
  = throw (ERR_INVALID_PACKAGE_TARGET match_ (TString target) internal).
Proof.
  intros Hrel Hcase.
  assert (resolvePackageTargetString packageResolve_rec target subpath match_
            packageJSONUrl base pattern internal isPathMap conditions
          = throw (ERR_INVALID_PACKAGE_TARGET match_ (TString target) internal))
    as E.
  { unfold resolvePackageTargetString. rewrite Hrel.
    destruct (_ && _ && _); [done|]. cbn [negb].
    destruct internal eqn:Ei, (StringPrototypeStartsWith target "../") eqn:E1,
      (StringPrototypeStartsWith target "/") eqn:E2, (URLCanParse target) eqn:E3;
      cbn [andb negb]; try done.
    by destruct Hcase as [?|[?|[?|?]]]. }
  split; [done|]. cbn [resolvePackageTarget]. by rewrite E.
Qed.

(** The part of a target after [./]. *)
Lemma Slice_target (target : string) (l : list ascii) :
  chars target = chars "./" ++ l ->
  StringPrototypeStartsWith target "./" = true ∧
  chars (StringPrototypeSlice target 2 None) = l.
Proof.
  intros E. split.
  - apply StartsWith_spec. rewrite E. by exists l.
  - rewrite Slice_to_end by (unfold len; rewrite E; simpl; lia).
    by rewrite E.
Qed.

(** X7.  A string target that has, after its [./], a segment [.], [..]
    or [node_modules] is refused with [ERR_INVALID_PACKAGE_TARGET],
    whatever the request, in [exports] and in [imports], and nothing is
    resolved or notified. *)
Theorem target_with_forbidden_segment (target subpath match_ : string)
    (pattern internal isPathMap : bool) (l : list ascii) :
  chars target = chars "./" ++ l ->
  has_forbidden_segment l ->
  resolvePackageTargetString packageResolve_rec target subpath match_
    packageJSONUrl base pattern internal isPathMap conditions
  = throw (ERR_INVALID_PACKAGE_TARGET match_ (TString target) internal) ∧
  resolvePackageTarget packageResolve_rec packageJSONUrl (TString target) subpath
    match_ base pattern internal isPathMap conditions
  = throw (ERR_INVALID_PACKAGE_TARGET match_ (TString target) internal).
Proof.
  intros [Hrel Hslice]%Slice_target [Hdep Hinv]%forbidden_segment_found.
  assert (resolvePackageTargetString packageResolve_rec target subpath match_
            packageJSONUrl base pattern internal isPathMap conditions
          = throw (ERR_INVALID_PACKAGE_TARGET match_ (TString target) internal))
    as E.
  { unfold resolvePackageTargetString, test. rewrite Hrel, Hslice, Hdep, Hinv.
    by destruct (_ && _ && _). }
  split; [done|]. cbn [resolvePackageTarget]. by rewrite E.
Qed.

(** X8.  A capture (or the rest of a request under a key that ends in a
    slash) with a segment [.], [..] or [node_modules] is refused with
    [ERR_INVALID_MODULE_SPECIFIER], once the target itself has passed its
    tests: it starts with [./], has no such segment and resolves within
    the package. *)
Theorem capture_with_forbidden_segment (target subpath match_ : string)
    (pattern internal isPathMap : bool) (resolved packageDir : URL) :
  StringPrototypeStartsWith target "./" = true ->
  pattern = true ∨ StringPrototypeEndsWith target "/" = true ->
  test true deprecatedInvalidSegmentRegEx (StringPrototypeSlice target 2 None)
  = false ->
  URL_new target (Some (href packageJSONUrl)) = Some resolved ->
  URL_new "." (Some (href packageJSONUrl)) = Some packageDir ->
  StringPrototypeStartsWith (pathname resolved) (pathname packageDir) = true ->
  has_forbidden_segment (chars subpath) ->
  (resolvePackageTargetString packageResolve_rec target subpath match_
     packageJSONUrl base pattern internal isPathMap conditions).1
  = Throw (ERR_INVALID_MODULE_SPECIFIER
             (if pattern then StringPrototypeReplace match_ "*" subpath
              else match_ +:+ subpath)
             ("request is not a valid match in pattern " +:+ match_)).
Proof.
  intros Hrel Hfirst Htarget Hres Hdir Hin Hsub.
  assert (String.eqb subpath "" = false) as Hne.
  { apply String.eqb_neq. intros ->.
    destruct Hsub as (pre & seg & post & E & Hseg & _).
    rewrite !elem_of_cons, elem_of_nil in Hseg.
    destruct pre; [|done]. by destruct Hseg as [->|[->|[->|[]]]]. }
  apply forbidden_segment_found in Hsub as [Hdep Hinv].
  unfold resolvePackageTargetString.
  assert (negb (String.eqb subpath "") && negb pattern &&
          negb (bool_decide (at_Z target (len target - 1) = Some "/"%char))
          = false) as ->.
  { destruct Hfirst as [->|Hend]; [by rewrite andb_false_r|].
    apply EndsWith_spec in Hend as [pre Hpre].
    rewrite Hne. cbn [negb andb]. destruct pattern; [done|]. cbn [negb andb].
    apply negb_false_iff, bool_decide_eq_true_2.
    unfold at_Z, len, at_. rewrite Hpre, length_app. simpl.
    destruct (Z.ltb_spec (Z.of_nat (length pre + 1) - 1) 0); [lia|].
    replace (Z.to_nat (Z.of_nat (length pre + 1) - 1)) with (length pre) by lia.
    by rewrite lookup_app_r, Nat.sub_diag. }
  rewrite Hrel. cbn [negb]. rewrite Htarget. cbn [negb].
  assert (forall (m : W unit) (k : W URL), m.1 = Ok tt -> (bind m (fun _ => k)).1 = k.1)
    as Hstep by (intros m k Hm; by rewrite bind_fst, Hm).
  rewrite Hstep
    by (destruct (test true invalidSegmentRegEx (StringPrototypeSlice target 2 None));
        [|done]; by destruct (negb isPathMap)).
  rewrite bind_fst, new_URL_fst, Hres, bind_fst, new_URL_fst, Hdir, Hin, Hne.
  cbn [negb]. rewrite bind_fst. unfold test in *. rewrite Hinv, Hdep.
  done.
Qed.

End TargetStrings.

(** ** Exports with the main sugar, and imports *)

Section MainOnly.
Context {H : Host}.
Variable packageResolve_rec : string -> Base -> gset string -> W URL.

(** X9.  A package whose [exports] is a string, an array or an object of
    condition names exports its main entry point only: every subpath but
    ["."] is refused with [ERR_PACKAGE_PATH_NOT_EXPORTED], and nothing is
    resolved or notified. *)
Theorem exports_sugar_exports_main_only (packageJSONUrl : URL) (q : string)
    (packageConfig : PackageConfig.t) (base : Base) (conditions : gset string) :
  isConditionalExportsMainSugar (PackageConfig.exports packageConfig) = Ok true ->
  q ≠ "." ->
  packageExportsResolve packageResolve_rec packageJSONUrl q packageConfig base
    conditions
  = throw (ERR_PACKAGE_PATH_NOT_EXPORTED q).
Proof.
  intros Hsugar Hq.
  assert (not_nullish (PackageConfig.exports packageConfig) = true) as Hnn
    by (by destruct (PackageConfig.exports packageConfig)).
  rewrite (packageExportsResolve_normalized _ _ _ _ _ _ true Hsugar Hnn).
  unfold normalized_exports, ObjectPrototypeHasOwnProperty.
  cbn [map fst]. rewrite bool_decide_eq_false_2
    by (rewrite list_elem_of_singleton; congruence).
  cbn [andb exportsBestMatch].
  by assert (patternPrefixMatches "." q = false) as -> by done.
Qed.

End MainOnly.

Section Imports.
Context {H : Host}.
Variable packageResolve_rec : string -> Base -> gset string -> W URL.
Variables (name : string) (base : Base) (conditions : gset string).
Variable packageConfig : PackageConfig.t.

Local Abbreviation packageJSONUrl :=
  (pathToFileURL (PackageConfig.pjsonPath packageConfig)).
Local Abbreviation props := (ownProperties (PackageConfig.imports packageConfig)).
Local Abbreviation result :=
  (packageImportsResolve packageResolve_rec name base conditions).

Lemma valid_imports_name_test :
  valid_imports_name name ->
  String.eqb name "#" || StringPrototypeStartsWith name "#/" ||
  StringPrototypeEndsWith name "/" = false.
Proof.
  intros (H1 & H2 & H3). apply String.eqb_neq in H1. rewrite H1.
  unfold StringPrototypeStartsWith, StringPrototypeEndsWith.
  by rewrite !bool_decide_eq_false_2.
Qed.

(** [packageImportsResolve] once the name has passed and the
    configuration has been read. *)
Lemma packageImportsResolve_read :
  valid_imports_name name ->
  getPackageScopeConfig (base_str base) = Ok packageConfig ->
  result.1 =
  imported name
    (if PackageConfig.exists_ packageConfig then
       if truthy (PackageConfig.imports packageConfig) then
         if ObjectPrototypeHasOwnProperty props name &&
            negb (StringPrototypeIncludes name "*") then
           resolvePackageTarget packageResolve_rec packageJSONUrl
             (property props name) "" name base false true false conditions
         else
           let best := importsBestMatch name (map fst props) ("", None) in
           if negb (String.eqb best.1 "") then
             resolvePackageTarget packageResolve_rec packageJSONUrl
               (property props best.1) (assigned best.2) best.1 base true true
               false conditions
           else ret RUndefined
       else ret RUndefined
     else ret RUndefined).1.
Proof.
  intros Hname Hread. unfold packageImportsResolve.
  rewrite (valid_imports_name_test Hname), Hread, bind_lift_ok, bind_fst.
  destruct (PackageConfig.exists_ packageConfig); [|done].
  destruct (truthy _); [|done].
  destruct (_ && _).
  - by destruct (resolvePackageTarget _ _ _ _ _ _ _ _ _ _).1 as [[]| |].
  - destruct (importsBestMatch _ _ _) as [bestMatch bestMatchSubpath]. simpl.
    destruct (negb _); [|done].
    by destruct (resolvePackageTarget _ _ _ _ _ _ _ _ _ _).1 as [[]| |].
Qed.

(** X10.  [packageImportsResolve] on a name that passes its first test,
    in a package scope that has been read: without a package or without
    a usable [imports] field the name is not defined; a name that is an
    own key and has no [*] is decided by the target of that key alone,
    no pattern being tried; otherwise the pattern key that the matcher
    selects decides, with its capture; and [Null], [Undefined] and the
    absence of a match all end in [ERR_PACKAGE_IMPORT_NOT_DEFINED]. *)
Theorem imports_resolution_cases :
  valid_imports_name name ->
  getPackageScopeConfig (base_str base) = Ok packageConfig ->
  (PackageConfig.exists_ packageConfig = false ∨
   truthy (PackageConfig.imports packageConfig) = false →
   result.1 = Throw (ERR_PACKAGE_IMPORT_NOT_DEFINED name)) ∧
  (PackageConfig.exists_ packageConfig = true →
   truthy (PackageConfig.imports packageConfig) = true →
   (name ∈ map fst props → ("*"%char ∉ chars name) →
    result.1 =
    imported name
      (resolvePackageTarget packageResolve_rec packageJSONUrl
         (property props name) "" name base false true false conditions).1) ∧
   (¬ (name ∈ map fst props ∧ ("*"%char ∉ chars name)) →
    (∀ k, k ∈ map fst props → ¬ pattern_key_matches name k) →
    result.1 = Throw (ERR_PACKAGE_IMPORT_NOT_DEFINED name)) ∧
   (¬ (name ∈ map fst props ∧ ("*"%char ∉ chars name)) →
    ∀ k, k ∈ map fst props → pattern_key_matches name k →
    (∀ k', k' ∈ map fst props → pattern_key_matches name k' → ranks_above k k') →
    result.1 =
    imported name
      (resolvePackageTarget packageResolve_rec packageJSONUrl
         (property props k) (capture name k) k base true true false
         conditions).1)).
Proof.
  intros Hname Hread. rewrite (packageImportsResolve_read Hname Hread).
  assert (ObjectPrototypeHasOwnProperty props name &&
          negb (StringPrototypeIncludes name "*") = true
          <-> name ∈ map fst props ∧ ("*"%char ∉ chars name)) as Hlit.
  { unfold ObjectPrototypeHasOwnProperty, StringPrototypeIncludes.
    by rewrite andb_true_iff, negb_true_iff, bool_decide_eq_true,
      bool_decide_eq_false. }
  split.
  - intros [-> | E]; [done|]. rewrite E. by destruct (PackageConfig.exists_ _).
  - intros -> ->. split; [|split].
    + intros Hin Hstar. by rewrite (proj2 Hlit (conj Hin Hstar)).
    + intros Hn Hnone. destruct (_ && _); [by destruct Hn; apply Hlit|].
      destruct (importsBestMatch_best name (map fst props))
        as [[-> _]|(Hin & Hm & _)]; [done|].
      by destruct (Hnone _ Hin).
    + intros Hn k Hk Hm Hbest. destruct (_ && _); [by destruct Hn; apply Hlit|].
      assert (importsBestMatch name (map fst props) ("", None)
              = (k, Some (capture name k))) as ->.
      { apply (is_best_match_unique name (map fst props));
          [apply importsBestMatch_best|].
        right. done. }
      cbv zeta. cbn [fst snd assigned default].
      apply matches_nonempty, String.eqb_neq in Hm. by rewrite Hm.
Qed.

Lemma append_empty (s : string) : s +:+ "" = s.
Proof. apply chars_inj. by rewrite chars_app, app_nil_r. Qed.

(** X11.  An [imports] entry whose target is a bare specifier (it does
    not start with [./], [../] or [/] and does not parse as a URL)
    resolves as that specifier resolves as a package from the
    [package.json] of the importing package: the outcome and the
    notifications are those of [packageResolve] on the target, with the
    URL of that [package.json] for base. *)
Theorem import_of_bare_target (target : string) :
  valid_imports_name name ->
  getPackageScopeConfig (base_str base) = Ok packageConfig ->
  PackageConfig.exists_ packageConfig = true ->
  truthy (PackageConfig.imports packageConfig) = true ->
  name ∈ map fst props -> ("*"%char ∉ chars name) ->
  property props name = TString target ->
  StringPrototypeStartsWith target "./" = false ->
  StringPrototypeStartsWith target "../" = false ->
  StringPrototypeStartsWith target "/" = false ->
  URLCanParse target = false ->
  result = packageResolve_rec target (BURL packageJSONUrl) conditions.
Proof.
  intros Hname Hread Hex Himp Hin Hstar Htarget H1 H2 H3 H4.
  unfold packageImportsResolve.
  rewrite (valid_imports_name_test Hname), Hread, bind_lift_ok, Hex, Himp.
  unfold ObjectPrototypeHasOwnProperty, StringPrototypeIncludes.
  rewrite (bool_decide_eq_true_2 _ Hin), (bool_decide_eq_false_2 _ Hstar).
  cbn [andb negb]. rewrite Htarget.
  cbn [resolvePackageTarget]. unfold resolvePackageTargetString.
  rewrite H1, H2, H3, H4. cbn [String.eqb negb andb]. rewrite append_empty.
  destruct (packageResolve_rec target (BURL packageJSONUrl) conditions)
    as [[u|e|] w]; simpl; by rewrite ?app_nil_r.
Qed.

End Imports.

(** ** The entry point on a remote parent, on the main entry and under a
    policy *)

Section Gates.
Context {H : Host}.



(** X14.  Under a policy, the exported [defaultResolve] returns a
    resolution only after [mightAllow] of the manifest has passed its
    URL; and a parent that the manifest redirects for the specifier
    resolves to the destination of the redirect, nothing else being
    looked at. *)
Theorem policy_guards_every_result (fuel : nat) (specifier : string)
    (context : Context_t) (manifest : Manifest URL) :
  policy_manifest = Some manifest ->
  (∀ r, (defaultResolve_with_policy fuel specifier context).1 = Ok r →
        (defaultResolve fuel specifier context).1 = Ok r ∧
        mightAllow manifest (url r) (ERR_MANIFEST_DEPENDENCY_MISSING specifier)
        = Ok tt) ∧
  (∀ parent redirects destination,
     parent_str (parentURL context) = Some parent →
     getDependencyMapper manifest parent = Some redirects →
     redirect_resolve redirects specifier (default [] (conditions context))
     = DestURL destination →
     defaultResolve fuel specifier context
     = ret {| url := href destination; format := None |}).
Proof.
  intros Hpolicy. split.
  - intros r. unfold defaultResolve_with_policy. rewrite Hpolicy, bind_fst.
    destruct (defaultResolve fuel specifier context).1 as [r'| |]; [|done..].
    rewrite bind_fst. unfold lift. cbn [fst].
    destruct (mightAllow _ _ _) as [[]| |] eqn:E; [|done..].
    cbn [ret fst]. by intros [= <-].
  - intros parent redirects destination Hparent Hmap Hdest.
    assert (throwIfInvalidParentURL (parentURL context) = Ok tt) as Hvalid
      by (unfold parent_str in Hparent; by destruct (parentURL context)).
    unfold defaultResolve, policy_redirect.
    by rewrite Hvalid, bind_lift_ok, Hparent, Hpolicy, Hmap, Hdest, bind_ret.
Qed.

End Gates.

(** ** The warnings *)

Section WarnOnce.
Context {H : Host}.
Variable path_resolve : string -> string -> string.

Lemma notify_keys (ev : event) (emitted emitted' : gset string)
    (ws : list warning) :
  notify path_resolve ev emitted = Ok (emitted', ws) ->
  (emitted' = emitted ∧ omap warning_key ws = []) ∨
  (∃ key, (key ∉ emitted) ∧ emitted' = {[ key ]} ∪ emitted ∧
          omap warning_key ws = [key]).
Proof.
  destruct ev as [match_ pjsonUrl base|target request match_ pjsonUrl internal base isTarget
                 |url packageJSONUrl base main|watch]; simpl.
  - unfold emitTrailingSlashPatternDeprecation. case_bool_decide as Hin.
    + intros [= <- <-]. by left.
    + intros [= <- <-]. right. by eexists.
  - intros [= <- <-]. by left.
  - unfold emitLegacyIndexDeprecation.
    destruct (negb _); [intros [= <- <-]; by left|].
    destruct (URL_new _ _); [|done].
    destruct (no_main main); [intros [= <- <-]; by left|].
    destruct (negb _); intros [= <- <-]; by left.
  - intros [= <- <-]. by left.
Qed.

Lemma notifications_keys (log : list event) :
  forall (emitted emitted' : gset string) (ws : list warning),
  notifications path_resolve log emitted = Ok (emitted', ws) ->
  emitted ⊆ emitted' ∧ NoDup (omap warning_key ws) ∧
  ∀ key, key ∈ omap warning_key ws → (key ∉ emitted) ∧ key ∈ emitted'.
Proof.
  induction log as [|ev log IH]; intros emitted emitted' ws; simpl.
  - intros [= <- <-]. split; [done|]. split; [constructor|].
    intros key Hkey. by apply elem_of_nil in Hkey.
  - destruct (notify path_resolve ev emitted) as [[e1 ws1]| |] eqn:Hev; [|done..].
    destruct (notifications path_resolve log e1) as [[e2 ws2]| |] eqn:Hlog; [|done..].
    intros [= <- <-]. rewrite omap_app.
    destruct (IH _ _ _ Hlog) as (Hsub & Hnodup & Hkeys).
    destruct (notify_keys _ _ _ _ Hev) as [[-> ->]|(key & Hkey & -> & ->)].
    + done.
    + split; [set_solver|]. split.
      * simpl. constructor; [|done]. intros Hin%Hkeys. set_solver.
      * intros k [->|Hk]%elem_of_cons; [set_solver|].
        destruct (Hkeys k Hk). set_solver.
Qed.

(** The notifications of the loop of [packageExportsResolve]: the same
    call for every key that passes the first test, when the request ends
    in a slash. *)
Lemma exportsBestMatch_log (q : string) (u : URL) (b : Base) (keys : list string)
    (best : string * option string) :
  Forall (fun ev => ev = EmitTrailingSlashPatternDeprecation q u b)
    (exportsBestMatch q u b keys best).2 ∧
  (StringPrototypeEndsWith q "/" = false → (exportsBestMatch q u b keys best).2 = []).
Proof.
  revert best. induction keys as [|k keys IH]; intros best; [by split|].
  simpl. destruct (patternPrefixMatches k q); [|apply IH].
  destruct (IH (patternBestStep q best k)) as [IH1 IH2].
  destruct (exportsBestMatch q u b keys _) as [r w]. simpl in *.
  split.
  - apply Forall_app. split; [|done].
    destruct (StringPrototypeEndsWith q "/"); by repeat constructor.
  - intros E. by rewrite E, (IH2 E).
Qed.

Lemma notifications_same (q : string) (u : URL) (b : Base) (log : list event)
    (emitted : gset string) :
  Forall (fun ev => ev = EmitTrailingSlashPatternDeprecation q u b) log ->
  notifications path_resolve log emitted =
  Ok (if bool_decide (log = [] ∨ fileURLToPath u +:+ "|" +:+ q ∈ emitted)
      then (emitted, [])
      else ({[ fileURLToPath u +:+ "|" +:+ q ]} ∪ emitted,
            [DEP0155 q (fileURLToPath u)])).
Proof.
  intros Hlog. revert emitted. induction Hlog as [|ev log -> _ IH]; intros emitted.
  - cbn [notifications]. by rewrite bool_decide_eq_true_2 by by left.
  - cbn [notifications notify]. unfold emitTrailingSlashPatternDeprecation.
    set (key := fileURLToPath u +:+ "|" +:+ q) in *.
    rewrite (bool_decide_ext (_ :: log = [] ∨ key ∈ emitted) (key ∈ emitted))
      by (split; [by intros [?|?]|by right]).
    destruct (decide (key ∈ emitted)) as [Hin|Hin].
    + rewrite !(bool_decide_eq_true_2 (key ∈ emitted)) by done.
      rewrite IH. by rewrite bool_decide_eq_true_2 by by right.
    + rewrite !(bool_decide_eq_false_2 (key ∈ emitted)) by done.
      rewrite IH. by rewrite bool_decide_eq_true_2 by (right; set_solver).
Qed.

(** X15.  The warning of the trailing-slash pattern ([DEP0155]) is made
    at most once for a package and a request: in any sequence of
    notifications the warnings carry pairwise different keys, none of
    them a key that had been warned before, and all of them remembered
    afterwards.  The loop of [packageExportsResolve] asks for it once for
    every pattern key whose prefix the request has, and only for a
    request that ends in a slash, so that one resolution makes at most
    one such warning, and none for a request that was warned before. *)
Theorem trailing_slash_is_warned_once :
  (∀ log emitted emitted' ws,
     notifications path_resolve log emitted = Ok (emitted', ws) →
     emitted ⊆ emitted' ∧ NoDup (omap warning_key ws) ∧
     ∀ key, key ∈ omap warning_key ws → (key ∉ emitted) ∧ key ∈ emitted') ∧
  (∀ q u b keys best emitted,
     ∃ emitted' ws,
       notifications path_resolve (exportsBestMatch q u b keys best).2 emitted
       = Ok (emitted', ws) ∧
       (length ws ≤ 1)%nat ∧
       (StringPrototypeEndsWith q "/" = false → ws = []) ∧
       (fileURLToPath u +:+ "|" +:+ q ∈ emitted → ws = [])).
Proof.
  split; [intros; by eapply notifications_keys|].
  intros q u b keys best emitted.
  destruct (exportsBestMatch_log q u b keys best) as [Hall Hnone].
  rewrite (notifications_same q u b _ emitted Hall).
  case_bool_decide as Hcase.
  - eexists _, _. split; [done|]. simpl. split; [lia|done].
  - eexists _, _. split; [done|]. simpl. split; [lia|]. split.
    + intros E. destruct Hcase. left. by apply Hnone.
    + intros Hin. destruct Hcase. by right.
Qed.

End WarnOnce.

(** ** Substitution of the capture, and the package that names itself *)

Section Substitution.

Lemma replace_first_cut (c : ascii) (by_ b a : list ascii) :
  c ∉ b -> replace_first c by_ (b ++ c :: a) = b ++ by_ ++ a.
Proof.
  induction b as [|x b IH]; simpl.
  - intros _. by rewrite bool_decide_eq_true_2.
  - intros [Hx Hb]%not_elem_of_cons.
    rewrite bool_decide_eq_false_2 by congruence. by rewrite IH.
Qed.

Lemma replace_all_app (c : ascii) (by_ a b : list ascii) :
  replace_all c by_ (a ++ b) = replace_all c by_ a ++ replace_all c by_ b.
Proof. unfold replace_all. by rewrite map_app, concat_app. Qed.

Lemma replace_all_notin (c : ascii) (by_ l : list ascii) :
  c ∉ l -> replace_all c by_ l = l.
Proof.
  unfold replace_all. induction l as [|x l IH]; [done|].
  intros [Hx Hl]%not_elem_of_cons. simpl.
  rewrite bool_decide_eq_false_2 by congruence. simpl. by rewrite IH.
Qed.

(** X17.  Putting the capture back: for a pattern key [k] that matches
    the request [q], replacing the [*] of [k] by the capture gives [q]
    again, which is the request that a refusal of the capture names; and
    in a target every [*] is replaced by the capture, the rest of the
    target being kept. *)
Theorem capture_substitution (q k : string) :
  pattern_key_matches q k ->
  StringPrototypeReplace k "*" (capture q k) = q ∧
  (∀ a b : string,
     RegExpReplaceAllChar "*" (a +:+ "*" +:+ b) (capture q k)
     = RegExpReplaceAllChar "*" a (capture q k) +:+ capture q k +:+
       RegExpReplaceAllChar "*" b (capture q k)) ∧
  (∀ t : string, ("*"%char ∉ chars t) →
     RegExpReplaceAllChar "*" t (capture q k) = t).
Proof.
  intros Hm. pose proof (capture_spec q k Hm) as Hq.
  destruct Hm as (Hin & _).
  pose proof (before_after _ _ Hin) as Hk.
  split; [|split].
  - apply chars_inj. unfold StringPrototypeReplace. rewrite chars_str.
    rewrite Hk at 1. rewrite replace_first_cut by apply before_self.
    by rewrite Hq.
  - intros a b. apply chars_inj. unfold RegExpReplaceAllChar.
    rewrite !chars_app, !chars_str, !replace_all_app.
    do 2 f_equal. unfold replace_all. simpl. apply app_nil_r.
  - intros t Ht. apply chars_inj. unfold RegExpReplaceAllChar.
    by rewrite chars_str, replace_all_notin.
Qed.

End Substitution.

Section SelfResolution.
Context {H : Host}.

(** X18.  A package that imports itself by its name is resolved through
    its own [exports]: when the specifier is the name of the enclosing
    package followed by a subpath, and that package has an [exports]
    field, [packageResolve] is [packageExportsResolve] on the
    [package.json] of the enclosing package, and no [node_modules]
    directory is looked at. *)
Theorem package_self_resolution (fuel : nat) (specifier name sub : string)
    (sc : bool) (base : Base) (conditions : gset string)
    (packageConfig : PackageConfig.t) :
  canBeRequiredWithoutScheme specifier = false ->
  package_name_parts specifier name sub sc ->
  getPackageScopeConfig (base_str base) = Ok packageConfig ->
  PackageConfig.exists_ packageConfig = true ->
  not_nullish (PackageConfig.exports packageConfig) = true ->
  PackageConfig.name packageConfig = Some name ->
  packageResolve (S fuel) specifier base conditions =
  packageExportsResolve (packageResolve fuel)
    (pathToFileURL (PackageConfig.pjsonPath packageConfig)) sub packageConfig
    base conditions ∧
  ∀ fuel', packageResolve (S fuel') specifier base conditions
           = packageResolve (S fuel) specifier base conditions.
Proof.
  intros Hbuiltin Hparts%parsePackageName_build Hread Hex Hnn Hself.
  assert (forall f, packageResolve (S f) specifier base conditions =
            packageExportsResolve (packageResolve f)
              (pathToFileURL (PackageConfig.pjsonPath packageConfig)) sub
              packageConfig base conditions) as Hstep.
  { intros f. cbn [packageResolve].
    rewrite Hbuiltin, Hparts, bind_lift_ok, Hread, bind_lift_ok, Hex, Hnn, Hself.
    by rewrite bool_decide_eq_true_2. }
  split; [apply Hstep|].
  intros fuel'. rewrite !Hstep. apply packageExportsResolve_callback_free.
Qed.

End SelfResolution.

(** ** The further properties at work *)

Section FurtherExamples.
Local Abbreviation conds := ({[ "node"; "import" ]} : gset string).
Local Abbreviation demo_base := (BString (H := Demo.host) Demo.parent).
Local Abbreviation demo_resolver := (packageResolve (H := Demo.host) 5).
Local Abbreviation app_base := (BString (H := App.host) "file:///app/main.mjs").
Local Abbreviation app_resolver := (packageResolve (H := App.host) 5).


(** X6 on the first installation: the first alternative of [./alt]. *)
Lemma target_must_be_relative_witness :
  StringPrototypeStartsWith "missing-not-rel" "./" = false ∧
  resolvePackageTarget (H := Demo.host) demo_resolver Demo.pkg_url
    (TString "missing-not-rel") "" "./alt" demo_base false false false conds
  = throw (H := Demo.host)
      (ERR_INVALID_PACKAGE_TARGET "./alt" (TString "missing-not-rel") false).
Proof.
  assert (StringPrototypeStartsWith "missing-not-rel" "./" = false) as Hrel
    by (vm_compute; reflexivity).
  split; [exact Hrel|].
  exact (proj2 (target_must_be_relative (H := Demo.host) demo_resolver
                  Demo.pkg_url demo_base conds "missing-not-rel" "" "./alt"
                  false false false Hrel (or_introl eq_refl))).
Defined.

(** X7 on the first installation: the target of [./esc]. *)
Lemma target_with_forbidden_segment_witness :
  has_forbidden_segment (chars "lib/../../etc") ∧
  resolvePackageTarget (H := Demo.host) demo_resolver Demo.pkg_url
    (TString "./lib/../../etc") "" "./esc" demo_base false false false conds
  = throw (H := Demo.host)
      (ERR_INVALID_PACKAGE_TARGET "./esc" (TString "./lib/../../etc") false).
Proof.
  assert (has_forbidden_segment (chars "lib/../../etc")) as Hseg.
  { exists (chars "lib/"), "..", (chars "/../etc").
    split; [reflexivity|]. split; [apply list_elem_of_further, list_elem_of_here|].
    split.
    - right. exists (chars "lib"), "/"%char. split; [reflexivity|by left].
    - right. exists "/"%char, (chars "../etc"). split; [reflexivity|by left]. }
  split; [exact Hseg|].
  exact (proj2 (target_with_forbidden_segment (H := Demo.host) demo_resolver
                  Demo.pkg_url demo_base conds "./lib/../../etc" "" "./esc"
                  false false false (chars "lib/../../etc") eq_refl Hseg)).
Defined.

(** X8 on the first installation: the request [./../x.js] under the key
    [./*.js]. *)
Lemma capture_with_forbidden_segment_witness :
  URL_new (Host := Demo.host) "./src/*.js"
    (Some (href (Host := Demo.host) Demo.pkg_url)) = Some App.pkg_src_pattern ∧
  URL_new (Host := Demo.host) "."
    (Some (href (Host := Demo.host) Demo.pkg_url)) = Some App.pkg_dir ∧
  has_forbidden_segment (chars "../x") ∧
  (resolvePackageTargetString (H := Demo.host) demo_resolver "./src/*.js" "../x"
     "./*.js" Demo.pkg_url demo_base true false false conds).1
  = Throw (ERR_INVALID_MODULE_SPECIFIER "./../x.js"
             "request is not a valid match in pattern ./*.js").
Proof.
  assert (URL_new (Host := Demo.host) "./src/*.js"
            (Some (href (Host := Demo.host) Demo.pkg_url))
          = Some App.pkg_src_pattern) as Hres by (vm_compute; reflexivity).
  assert (URL_new (Host := Demo.host) "."
            (Some (href (Host := Demo.host) Demo.pkg_url)) = Some App.pkg_dir)
    as Hdir by (vm_compute; reflexivity).
  assert (has_forbidden_segment (chars "../x")) as Hseg.
  { exists [], "..", (chars "/x").
    split; [reflexivity|]. split; [apply list_elem_of_further, list_elem_of_here|].
    split; [by left|].
    right. exists "/"%char, (chars "x"). split; [reflexivity|by left]. }
  assert (StringPrototypeStartsWith "./src/*.js" "./" = true) as Hrel
    by (vm_compute; reflexivity).
  assert (test true deprecatedInvalidSegmentRegEx
            (StringPrototypeSlice "./src/*.js" 2 None) = false) as Htarget
    by (vm_compute; reflexivity).
  assert (StringPrototypeStartsWith
            (pathname (Host := Demo.host) App.pkg_src_pattern)
            (pathname (Host := Demo.host) App.pkg_dir) = true) as Hin
    by (vm_compute; reflexivity).
  split; [exact Hres|]. split; [exact Hdir|]. split; [exact Hseg|].
  exact (capture_with_forbidden_segment (H := Demo.host) demo_resolver
           Demo.pkg_url demo_base conds "./src/*.js" "../x" "./*.js"
           true false false App.pkg_src_pattern App.pkg_dir
           Hrel (or_introl eq_refl) Htarget Hres Hdir Hin Hseg).
Defined.

(** X9 on the second installation, whose [exports] is a string. *)
Lemma exports_sugar_exports_main_only_witness :
  isConditionalExportsMainSugar (PackageConfig.exports App.app_config) = Ok true ∧
  packageExportsResolve (H := App.host) app_resolver App.app_url "./other"
    App.app_config app_base conds
  = throw (H := App.host) (ERR_PACKAGE_PATH_NOT_EXPORTED "./other").
Proof.
  split; [reflexivity|].
  refine (exports_sugar_exports_main_only (H := App.host) app_resolver
            App.app_url "./other" App.app_config app_base conds eq_refl _).
  discriminate.
Defined.

Lemma app_valid_names :
  valid_imports_name "#dep" ∧ valid_imports_name "#blocked".
Proof.
  unfold valid_imports_name. repeat split; compute_done.
Qed.

(** X10 on the second installation: the name [#blocked] is an own key
    and is not defined, its target being [null]. *)
Lemma imports_resolution_cases_witness :
  valid_imports_name "#blocked" ∧
  getPackageScopeConfig (Host := App.host)
    (base_str (H := App.host) app_base) = Ok App.app_config ∧
  (packageImportsResolve (H := App.host) app_resolver "#blocked" app_base conds).1
  = Throw (ERR_PACKAGE_IMPORT_NOT_DEFINED "#blocked").
Proof.
  split; [exact (proj2 app_valid_names)|]. split; [reflexivity|].
  refine (proj1 (proj2 (imports_resolution_cases (H := App.host) app_resolver
                          "#blocked" app_base conds App.app_config
                          (proj2 app_valid_names) eq_refl) eq_refl eq_refl)
            _ _).
  - apply list_elem_of_further, list_elem_of_further, list_elem_of_here.
  - compute_done.
Defined.

(** X11 on the second installation: [#dep] is the package [pkg] as the
    [package.json] of [app] sees it. *)
Lemma import_of_bare_target_witness :
  property (ownProperties (PackageConfig.imports App.app_config)) "#dep"
  = TString "pkg" ∧
  URLCanParse (H := App.host) "pkg" = false ∧
  packageImportsResolve (H := App.host) app_resolver "#dep" app_base conds
  = app_resolver "pkg" (BURL (H := App.host) App.app_url) conds.
Proof.
  assert (URLCanParse (H := App.host) "pkg" = false) as Hurl
    by (vm_compute; reflexivity).
  split; [reflexivity|]. split; [exact Hurl|].
  refine (import_of_bare_target (H := App.host) app_resolver "#dep" app_base
            conds App.app_config "pkg" (proj1 app_valid_names) eq_refl eq_refl
            eq_refl _ _ eq_refl _ _ _ Hurl).
  - apply list_elem_of_here.
  - compute_done.
  - vm_compute; reflexivity.
  - vm_compute; reflexivity.
  - vm_compute; reflexivity.
Defined.



(** X14 on the second installation: the policy redirects [redirected]. *)
Lemma policy_guards_every_result_witness :
  policy_manifest (Host := App.host) = Some App.manifest ∧
  defaultResolve (H := App.host) 5 "redirected" App.context
  = ret (H := App.host) {| url := "file:///app/other.mjs"; format := None |}.
Proof.
  split; [reflexivity|].
  exact (proj2 (policy_guards_every_result (H := App.host) 5 "redirected"
                  App.context App.manifest eq_refl)
           "file:///app/main.mjs" App.redirects
           (pathToFileURL (Host := App.host) "/app/other.mjs")
           eq_refl eq_refl eq_refl).
Defined.

(** X17 on a request of the first installation. *)
Lemma capture_substitution_witness :
  pattern_key_matches "./a/b.js" "./*.js" ∧
  capture "./a/b.js" "./*.js" = "a/b" ∧
  StringPrototypeReplace "./*.js" "*" (capture "./a/b.js" "./*.js") = "./a/b.js".
Proof.
  assert (pattern_key_matches "./a/b.js" "./*.js") as Hm
    by (apply key_test_spec; vm_compute; reflexivity).
  split; [exact Hm|]. split; [vm_compute; reflexivity|].
  exact (proj1 (capture_substitution "./a/b.js" "./*.js" Hm)).
Defined.

(** X18 on the second installation: [app/x] from a file of [app]. *)
Lemma package_self_resolution_witness :
  canBeRequiredWithoutScheme (Host := App.host) "app/x" = false ∧
  package_name_parts "app/x" "app" "./x" false ∧
  packageResolve (H := App.host) 3 "app/x" app_base conds
  = packageExportsResolve (H := App.host) (packageResolve (H := App.host) 2)
      App.app_url "./x" App.app_config app_base conds.
Proof.
  assert (canBeRequiredWithoutScheme (Host := App.host) "app/x" = false)
    as Hbuiltin by (vm_compute; reflexivity).
  assert (package_name_parts "app/x" "app" "./x" false) as Hparts
    by (apply parsePackageName_ok; vm_compute; reflexivity).
  split; [exact Hbuiltin|]. split; [exact Hparts|].
  exact (proj1 (package_self_resolution (H := App.host) 2 "app/x" "app" "./x"
                  false app_base conds App.app_config Hbuiltin Hparts
                  eq_refl eq_refl eq_refl eq_refl)).
Defined.

End FurtherExamples.

(** ** What an exports resolution notifies *)

Section Quiet.
Context {H : Host}.
Variable P : event -> Prop.

Lemma notifies_ret {A} (a : A) : notifies P (ret a).
Proof. constructor. Qed.

Lemma notifies_throw {A} (e : error) : notifies P (throw e : W A).
Proof. constructor. Qed.

Lemma notifies_lift {A} (o : outcome A) : notifies P (lift o).
Proof. constructor. Qed.

Lemma notifies_new_URL (input : string) (base : option string) :
  notifies P (new_URL input base).
Proof. unfold new_URL. destruct (URL_new input base); constructor. Qed.

Lemma notifies_bind {A B} (m : W A) (f : A -> W B) :
  notifies P m -> (forall a, notifies P (f a)) -> notifies P (bind m f).
Proof.
  unfold notifies. destruct m as [[a|e|] w]; simpl; intros Hm Hf; [|done..].
  specialize (Hf a). destruct (f a) as [r w']. simpl in *.
  apply Forall_app. by split.
Qed.

Lemma notifies_log {A} (w : list event) (m : W A) :
  Forall P w -> notifies P m -> notifies P (log w m).
Proof. unfold notifies, log. simpl. intros. apply Forall_app. by split. Qed.

Lemma notifies_list_loop (res : TargetValue -> W resolution)
    (items : list TargetValue) :
  Forall (fun t => notifies P (res t)) items ->
  forall last, notifies P (list_loop res items last).
Proof.
  induction 1 as [|t items Ht _ IH]; intros last.
  - simpl. destruct last; constructor.
  - simpl. unfold notifies in Ht. destruct (res t) as [[[u| |]|e|] w]; simpl in Ht.
    + done.
    + by apply notifies_log.
    + by apply notifies_log.
    + destruct (String.eqb _ _); [by apply notifies_log|done].
    + done.
Qed.

Lemma notifies_map_loop (res : TargetValue -> W resolution)
    (conditions : gset string) (entries : list (string * TargetValue)) :
  Forall (fun kv => notifies P (res kv.2)) entries ->
  notifies P (map_loop res conditions entries).
Proof.
  induction 1 as [|[key t] entries Ht _ IH]; [constructor|].
  simpl. destruct (_ || _); [|done].
  apply notifies_bind; [done|]. intros [u| |]; try apply notifies_ret. done.
Qed.

End Quiet.

Section ExportsNotifications.
Context {H : Host}.
Variable packageResolve_rec : string -> Base -> gset string -> W URL.
Variable path_resolve : string -> string -> string.

(** The notifications of the string case in an [exports] resolution. *)
Lemma resolvePackageTargetString_notifies (target subpath match_ : string)
    (packageJSONUrl : URL) (base : Base) (pattern isPathMap : bool)
    (conditions : gset string) :
  notifies (fun ev => segment_event ev ∧ isPathMap = false)
    (resolvePackageTargetString packageResolve_rec target subpath match_
       packageJSONUrl base pattern false isPathMap conditions).
Proof.
  unfold resolvePackageTargetString.
  destruct (_ && _ && _); [apply notifies_throw|].
  destruct (negb (StringPrototypeStartsWith target "./"));
    [apply notifies_throw|].
  assert (forall ev : event, segment_event ev ->
            notifies (fun ev => segment_event ev ∧ isPathMap = false)
              (if negb isPathMap then emit ev else ret tt)) as Hemit.
  { intros ev Hev. destruct isPathMap; [apply notifies_ret|].
    by repeat constructor. }
  apply notifies_bind.
  { destruct (test true invalidSegmentRegEx _); [|apply notifies_ret].
    destruct (negb (test true deprecatedInvalidSegmentRegEx _));
      [by apply Hemit|apply notifies_throw]. }
  intros _. apply notifies_bind; [apply notifies_new_URL|]. intros resolved.
  apply notifies_bind; [apply notifies_new_URL|]. intros packageDir.
  destruct (negb (StringPrototypeStartsWith _ _)); [apply notifies_throw|].
  destruct (String.eqb subpath ""); [apply notifies_ret|].
  apply notifies_bind.
  { destruct (test true invalidSegmentRegEx subpath); [|apply notifies_ret].
    destruct (negb (test true deprecatedInvalidSegmentRegEx subpath));
      [by apply Hemit|apply notifies_throw]. }
  intros _. destruct pattern; apply notifies_new_URL.
Qed.

Lemma resolvePackageTarget_notifies (packageJSONUrl : URL) (t : TargetValue) :
  forall (subpath packageSubpath : string) (base : Base)
         (pattern isPathMap : bool) (conditions : gset string),
  notifies (fun ev => segment_event ev ∧ isPathMap = false)
    (resolvePackageTarget packageResolve_rec packageJSONUrl t subpath
       packageSubpath base pattern false isPathMap conditions).
Proof.
  induction t as [s|l IH|m IH| | |b] using TargetValue_rect';
    intros subpath packageSubpath base pattern isPathMap conditions;
    try (by constructor).
  - cbn [resolvePackageTarget]. apply notifies_bind.
    + apply resolvePackageTargetString_notifies.
    + intros u. apply notifies_ret.
  - rewrite resolvePackageTarget_list. destruct l as [|t0 l0]; [constructor|].
    apply notifies_list_loop.
    eapply Forall_impl; [exact IH|]. intros t Ht. apply Ht.
  - rewrite resolvePackageTarget_map.
    destruct (existsb _ _); [constructor|].
    apply notifies_map_loop.
    eapply Forall_impl; [exact IH|]. intros kv Hkv. apply Hkv.
Qed.

Lemma notifications_segments (log : list event) (emitted : gset string) :
  Forall segment_event log ->
  ∃ ws, notifications path_resolve log emitted = Ok (emitted, ws) ∧
        omap warning_key ws = [].
Proof.
  induction 1 as [|ev log Hev _ (ws & IH & Hws)]; [by exists []|].
  destruct ev; try done. cbn [notifications notify]. rewrite IH.
  eexists. split; [done|]. done.
Qed.

(** X19.  An exports resolution notifies one kind of deprecation only:
    for a request that ends in a slash, the trailing-slash pattern, and
    nothing else; for any other request, deprecated segments, and nothing
    else.  It never sends a watch notification and never reports a legacy
    main.  Its notifications therefore never fail and make at most one
    warning that is remembered ([DEP0155]). *)
Theorem exports_resolution_notifications (packageJSONUrl : URL) (q : string)
    (packageConfig : PackageConfig.t) (base : Base) (conditions : gset string) :
  let log :=
    (packageExportsResolve packageResolve_rec packageJSONUrl q packageConfig
       base conditions).2 in
  (if StringPrototypeEndsWith q "/"
   then Forall (fun ev => ev = EmitTrailingSlashPatternDeprecation q packageJSONUrl base) log
   else Forall segment_event log) ∧
  ∀ emitted, ∃ emitted' ws,
    notifications path_resolve log emitted = Ok (emitted', ws) ∧
    (length (omap warning_key ws) ≤ 1)%nat.
Proof.
  intros log.
  assert (if StringPrototypeEndsWith q "/"
          then Forall (fun ev => ev = EmitTrailingSlashPatternDeprecation q packageJSONUrl base) log
          else Forall segment_event log) as Hlog.
  { subst log.
    destruct (isConditionalExportsMainSugar (PackageConfig.exports packageConfig))
      as [sugar|e|] eqn:Hsugar.
    2,3: unfold packageExportsResolve; rewrite Hsugar;
         by destruct (StringPrototypeEndsWith q "/").
    destruct (not_nullish (PackageConfig.exports packageConfig)) eqn:Hnn.
    2: { unfold packageExportsResolve. rewrite Hsugar, bind_lift_ok.
         destruct (PackageConfig.exports packageConfig); try done;
           by destruct (StringPrototypeEndsWith q "/"). }
    rewrite (packageExportsResolve_normalized _ _ _ _ _ _ sugar Hsugar Hnn).
    set (exports := normalized_exports sugar (PackageConfig.exports packageConfig)).
    assert (forall (m : W resolution) (Q : event -> Prop),
              Forall Q m.2 ->
              Forall Q (bind m (fun resolveResult =>
                          match resolveResult with
                          | RUrl u => ret u
                          | RNull | RUndefined => throw (exportsNotFound q)
                          end)).2) as Hbind.
    { intros [[[u| |]| |] w] Q Hm; simpl in *; by rewrite ?app_nil_r. }
    assert (forall l : list event,
              Forall (fun ev => segment_event ev ∧ true = false) l -> l = [])
      as Hnothing.
    { intros [|ev l] Hl; [done|]. by apply Forall_cons_1 in Hl as [[_ ?] _]. }
    destruct (ObjectPrototypeHasOwnProperty exports q &&
              negb (StringPrototypeIncludes q "*") &&
              negb (StringPrototypeEndsWith q "/")) eqn:Hlit.
    - apply andb_true_iff in Hlit as [_ Hslash%negb_true_iff].
      rewrite Hslash. apply Hbind.
      eapply Forall_impl; [apply (resolvePackageTarget_notifies _ _ _ _ _ _ false)|].
      by intros ev [? _].
    - destruct (exportsBestMatch_log q packageJSONUrl base (map fst exports)
                  ("", None)) as [Hall Hnone].
      destruct (exportsBestMatch _ _ _ _ _) as [[bestMatch bestMatchSubpath] w].
      cbn [snd] in Hall, Hnone. unfold log. cbn [snd].
      destruct (StringPrototypeEndsWith q "/") eqn:Hslash.
      + apply Forall_app. split; [done|].
        destruct (negb (String.eqb bestMatch "")); [|constructor].
        apply Hbind.
        rewrite (Hnothing _ (resolvePackageTarget_notifies _ _ _ _ _ _ true _)).
        constructor.
      + rewrite (Hnone eq_refl). simpl.
        destruct (negb (String.eqb bestMatch "")); [|constructor].
        apply Hbind.
        eapply Forall_impl; [apply (resolvePackageTarget_notifies _ _ _ _ _ _ false)|].
        by intros ev [? _]. }
  split; [done|].
  intros emitted. destruct (StringPrototypeEndsWith q "/").
  - rewrite (notifications_same path_resolve q packageJSONUrl base _ emitted Hlog).
    case_bool_decide; eexists _, _; (split; [done|]); simpl; lia.
  - destruct (notifications_segments log emitted Hlog) as (ws & -> & Hws).
    eexists _, _. split; [done|]. rewrite Hws. simpl. lia.
Qed.

End ExportsNotifications.

(** ** The package that is found *)

Section PackageMatch.
Context {H : Host}.

(** X20.  The package found in the nearest [node_modules] decides alone.
    When the specifier does not name the enclosing package and the
    directory of the first candidate exists, [packageResolve] is the
    resolution in that package: through its [exports] when it has the
    field; else the legacy main for the subpath ["."], and for any other
    subpath the subpath parsed against the URL of its [package.json],
    without any test on the result.  No directory further up is looked
    at, whatever that resolution ends in. *)
Theorem nearest_package_decides (fuel : nat) (specifier name sub : string)
    (sc : bool) (base : Base) (conditions : gset string)
    (scopeConfig packageConfig : PackageConfig.t) (packageJSONUrl : URL) :
  canBeRequiredWithoutScheme specifier = false ->
  package_name_parts specifier name sub sc ->
  getPackageScopeConfig (base_str base) = Ok scopeConfig ->
  PackageConfig.exists_ scopeConfig && not_nullish (PackageConfig.exports scopeConfig) &&
    bool_decide (PackageConfig.name scopeConfig = Some name) = false ->
  URL_new ("./node_modules/" +:+ name +:+ "/package.json") (Some (base_str base))
  = Some packageJSONUrl ->
  candidate_exists (fileURLToPath packageJSONUrl) = true ->
  packageJsonReader_read (fileURLToPath packageJSONUrl) = Ok packageConfig ->
  packageResolve (S fuel) specifier base conditions =
  if not_nullish (PackageConfig.exports packageConfig) then
    packageExportsResolve (packageResolve fuel) packageJSONUrl sub packageConfig
      base conditions
  else if String.eqb sub "." then legacyMainResolve packageJSONUrl packageConfig base
  else new_URL sub (Some (href packageJSONUrl)).
Proof.
  intros Hbuiltin Hparts%parsePackageName_build Hscope Hself Hurl Hdir Hread.
  cbn [packageResolve].
  rewrite Hbuiltin, Hparts, bind_lift_ok, Hscope, bind_lift_ok, Hself.
  unfold new_URL at 1. rewrite Hurl, bind_ret.
  cbn [packageResolve_loop]. unfold candidate_exists in Hdir.
  rewrite Hdir. cbn [negb]. rewrite bind_ret, Hread, bind_lift_ok.
  done.
Qed.

End PackageMatch.

Section PackageMatchExample.
Local Abbreviation conds := ({[ "node"; "import" ]} : gset string).
Local Abbreviation app_base := (BString (H := App.host) "file:///app/main.mjs").

(** X20 on the second installation: [legacy/../../etc/x.js] leaves the
    package [legacy], which has no [exports]. *)
Lemma nearest_package_decides_witness :
  candidate_exists (H := App.host) (fileURLToPath (Host := App.host) App.legacy_url)
  = true ∧
  package_name_parts "legacy/../../etc/x.js" "legacy" "./../../etc/x.js" false ∧
  packageResolve (H := App.host) 3 "legacy/../../etc/x.js" app_base conds
  = new_URL (H := App.host) "./../../etc/x.js"
      (Some (href (Host := App.host) App.legacy_url)).
Proof.
  assert (candidate_exists (H := App.host)
            (fileURLToPath (Host := App.host) App.legacy_url) = true) as Hdir
    by (vm_compute; reflexivity).
  assert (package_name_parts "legacy/../../etc/x.js" "legacy" "./../../etc/x.js"
            false) as Hparts
    by (apply parsePackageName_ok; vm_compute; reflexivity).
  assert (canBeRequiredWithoutScheme (Host := App.host) "legacy/../../etc/x.js"
          = false) as Hbuiltin by (vm_compute; reflexivity).
  assert (URL_new (Host := App.host) "./node_modules/legacy/package.json"
            (Some (base_str (H := App.host) app_base)) = Some App.legacy_url)
    as Hurl by (vm_compute; reflexivity).
  assert (packageJsonReader_read (Host := App.host)
            (fileURLToPath (Host := App.host) App.legacy_url)
          = Ok App.legacy_config) as Hread by (vm_compute; reflexivity).
  split; [exact Hdir|]. split; [exact Hparts|].
  exact (nearest_package_decides (H := App.host) 2 "legacy/../../etc/x.js"
           "legacy" "./../../etc/x.js" false app_base conds App.app_config
           App.legacy_config App.legacy_url Hbuiltin Hparts eq_refl eq_refl
           Hurl Hdir Hread).
Defined.

End PackageMatchExample.
